(** * ISAAC / COHDA core: planning data structures, observer, topology

    A shallow embedding of the negotiation core of the repository:
    - [planning.py]: [SystemConfig], [Candidate], [WorkingMemory],
      [Planner._get_new_os], [Planner._decide], [Planner._perceive];
    - [observer/observer.py]: the final-candidate buffer and [_get_solution];
    - [controller/core/management.py]: [TopologyManager].

    Modelling conventions.
    - Python objects live in a heap (a list of objects, a reference is an
      index); [is] is equality of references, [==] is the class's [__eq__].
    - A raised exception is a value [Err e] of the error monad [result].
    - [str] is [string] (bytes, UTF-8); [<] on [str] is [String.ltb].
    - [dict] with [str] keys is [gmap string _]; [set] is [gset].
    - Python [int] is [Z]; an index stored in [idx] is a [nat].
    - NumPy floats are an abstract numeric type [num] with the operations
      the code uses (class [Numeric]); the few order laws a proof needs are
      stated separately (class [NumericLaws]).
    - A 2-D NumPy array is the list of its rows. *)

From Stdlib Require Import ZArith String Ascii.
From Stdlib Require QArith.
From stdpp Require Import gmap strings list sorting.

Local Open Scope Z_scope.
Set Warnings "-clear-no-such-hyp".

(** ** Exceptions and the error monad *)

Inductive exn : Type :=
  | KeyError | IndexError | ValueError | TypeError | NameError
  | AssertionError | InvalidStateError | ZeroDivisionError | InvalidRef.

Inductive result (A : Type) : Type :=
  | Ok (a : A)
  | Err (e : exn).
Arguments Ok {A} a.
Arguments Err {A} e.

#[global] Instance result_ret : MRet result := λ A a, Ok a.
#[global] Instance result_bind : MBind result := λ A B f m,
  match m with Ok a => f a | Err e => Err e end.

(** [o] or raise [e]. *)
Definition or_raise {A} (e : exn) (o : option A) : result A :=
  match o with Some a => Ok a | None => Err e end.

(** [assert b]. *)
Definition assert (b : bool) : result unit :=
  if b then Ok tt else Err AssertionError.

(** ** The object heap *)

Abbreviation ref := nat (only parsing).
Definition heap (A : Type) : Type := list A.

Definition deref {A} (h : heap A) (r : ref) : result A :=
  or_raise InvalidRef (h !! r).

(** Constructing an object allocates it at a fresh reference. *)
Definition alloc {A} (h : heap A) (v : A) : heap A * ref :=
  (h ++ [v], length h).

(** [a[i] = v] on a Python list. *)
Definition list_set {A} (l : list A) (i : nat) (v : A) : result (list A) :=
  if decide (i < length l)%nat then Ok (<[i:=v]> l) else Err IndexError.

(** ** Strings and sorting *)

Definition str_le : relation string := λ a b, String.leb a b = true.
#[global] Instance str_le_dec : RelDecision str_le.
Proof. intros a b. unfold str_le. apply _. Defined.

(** [min(a, b)] on names. *)
Definition str_min (a b : string) : string :=
  if String.ltb b a then b else a.

(** [sorted(keys)] for a collection of names. *)
Definition sorted (l : list string) : list string := merge_sort str_le l.

(** ** Numbers *)

Class Numeric : Type := {
  num : Type;
  num_eqb : num → num → bool;       (* x == y *)
  num_ltb : num → num → bool;       (* x < y; [x > y] is [num_ltb y x] *)
  num_zero : num;
  num_add : num → num → num;
  num_sub : num → num → num;
  num_mul : num → num → num;
  num_abs : num → num;
  num_neg : num → num;
  num_sum : list num → num;         (* [np.sum] of a vector *)
}.

(** The order laws some proofs rely on.  IEEE floats satisfy them on
    every value but NaN. *)
Class NumericLaws (N : Numeric) : Prop := {
  num_eqb_refl : ∀ x : num, num_eqb x x = true;
  num_eqb_sym : ∀ x y : num, num_eqb x y = num_eqb y x;
  num_ltb_neq : ∀ x y : num, num_ltb x y = true → num_eqb x y = false;
}.

Definition Z_numeric : Numeric :=
  {| num := Z; num_eqb := Z.eqb; num_ltb := Z.ltb; num_zero := 0;
     num_add := Z.add; num_sub := Z.sub; num_mul := Z.mul;
     num_abs := Z.abs; num_neg := Z.opp; num_sum := foldr Z.add 0 |}.

(** Numbers with a NaN: [None] is NaN, which no comparison holds of, itself
    included, and which every operation hands on, as IEEE floats do. *)
Definition nan_lift1 (f : Z → Z) (x : option Z) : option Z := f <$> x.

Definition nan_lift2 (f : Z → Z → Z) (x y : option Z) : option Z :=
  match x, y with Some a, Some b => Some (f a b) | _, _ => None end.

Definition nan_test (f : Z → Z → bool) (x y : option Z) : bool :=
  match x, y with Some a, Some b => f a b | _, _ => false end.

Definition Znan_numeric : Numeric :=
  {| num := option Z; num_eqb := nan_test Z.eqb; num_ltb := nan_test Z.ltb;
     num_zero := Some 0;
     num_add := nan_lift2 Z.add; num_sub := nan_lift2 Z.sub;
     num_mul := nan_lift2 Z.mul;
     num_abs := nan_lift1 Z.abs; num_neg := nan_lift1 Z.opp;
     num_sum := foldr (nan_lift2 Z.add) (Some 0) |}.

(** ** NumPy arrays *)

Section numpy.
Context `{Numeric}.

Fixpoint row_equal (r1 r2 : list num) : bool :=
  match r1, r2 with
  | [], [] => true
  | x :: r1, y :: r2 => num_eqb x y && row_equal r1 r2
  | _, _ => false
  end.

(** [np.array_equal(a, b)]: same shape and all elements [==]. *)
Fixpoint array_equal (a b : list (list num)) : bool :=
  match a, b with
  | [], [] => true
  | r1 :: a, r2 :: b => row_equal r1 r2 && array_equal a b
  | _, _ => false
  end.

(** [cs[i] = os] on a 2-D array: the row is replaced when [os] has the
    row's length, a one-element [os] is broadcast, any other length is a
    [ValueError]; a row index out of range is an [IndexError]. *)
Definition set_row (cs : list (list num)) (i : nat) (os : list num)
  : result (list (list num)) :=
  r ← or_raise IndexError (cs !! i);
  if decide (length os = length r) then Ok (<[i:=os]> cs)
  else match os with
       | [x] => Ok (<[i:=replicate (length r) x]> cs)
       | _ => Err ValueError
       end.

(** The number of columns, [cs.shape[1]]. *)
Definition width (cs : list (list num)) : nat :=
  match cs with
  | [] => 0%nat
  | r :: _ => length r
  end.

(** [cluster_schedule.sum(axis=0)]: the rows are added up in row order,
    interval by interval.  An [ndarray] is rectangular and here it has at
    least one row: on such a list of rows this is NumPy's sum.  (On rows of
    different lengths, which no [ndarray] holds, and on the empty array the
    function is not meant: the results that evaluate it assume rows of one
    length and a row to be there.) *)
Definition sum_axis0 (cs : list (list num)) : list num :=
  match cs with
  | [] => []
  | r :: rest => foldl (zip_with num_add) r rest
  end.
End numpy.

(** ** [planning.SystemConfig] *)

Module SystemConfig.
Section defs.
Context `{Numeric}.

(** The instance attributes [_idx], [_cs], [_sids], [_cnt]. *)
Record t : Type := mk {
  idx : gmap string nat;
  cs : list (list num);
  sids : list Z;
  cnt : list Z;
}.

(** [Data = namedtuple('Data', 'os, sid, count')] *)
Record Data : Type := mkData {
  os : list num;
  sid : Z;
  count : Z;
}.

(** [__eq__] *)
Definition eqb (self other : t) : bool :=
  bool_decide (idx self = idx other) &&
  bool_decide (sids self = sids other) &&
  bool_decide (cnt self = cnt other) &&
  array_equal (cs self) (cs other).

(** [data(self, agent)] *)
Definition data (self : t) (agent : string) : result Data :=
  i ← or_raise KeyError (idx self !! agent);
  os ← or_raise IndexError (cs self !! i);
  sid ← or_raise IndexError (sids self !! i);
  count ← or_raise IndexError (cnt self !! i);
  Ok (mkData os sid count).

(** The local variables of [merge] that its loop updates.  [os] may be
    [None] when a row is appended and [sid] is only bound once an agent
    was read, so both are optional here. *)
Record locals : Type := mkLocals {
  modified : bool;
  sid_var : option Z;
  idx_map : gmap string nat;
  cs_buf : list (option (list num));
  sids_buf : list Z;
  cnt_buf : list Z;
}.

Definition locals0 : locals := mkLocals false None ∅ [] [] [].

(** One iteration of [for i, a in enumerate(sorted(keyset_i | keyset_j))]:
    first the values of [modified], [os], [sid] and [count] after the two
    [if]s, then the four appends. *)
Definition merge_entry (sysconf_i sysconf_j : t) (a : string) (st : locals)
    : result (bool * option (list num) * option Z * Z) :=
  let keyset_i := dom (idx sysconf_i) in
  let keyset_j := dom (idx sysconf_j) in
  (* os = None; count = -1 *)
  '(os1, sid1, count1) ←
    (if decide (a ∈ keyset_i)
     then d ← data sysconf_i a; Ok (Some (os d), Some (sid d), count d)
     else Ok (None, sid_var st, -1));
  if decide (a ∈ keyset_j)
  then data_j ← data sysconf_j a;
       if bool_decide (count data_j > count1)
       then Ok (true, Some (os data_j), Some (sid data_j), count data_j)
       else Ok (modified st, os1, sid1, count1)
  else Ok (modified st, os1, sid1, count1).

Definition merge_step (sysconf_i sysconf_j : t) (i : nat) (a : string)
    (st : locals) : result locals :=
  '(modified, os, sid, count) ← merge_entry sysconf_i sysconf_j a st;
  sid ← or_raise NameError sid;
  Ok (mkLocals modified (Some sid)
        (<[a:=i]> (idx_map st))
        (cs_buf st ++ [os])
        (sids_buf st ++ [sid])
        (cnt_buf st ++ [count])).

Fixpoint merge_loop (sysconf_i sysconf_j : t) (keys : list string) (i : nat)
    (st : locals) : result locals :=
  match keys with
  | [] => Ok st
  | a :: keys =>
      st ← merge_step sysconf_i sysconf_j i a st;
      merge_loop sysconf_i sysconf_j keys (S i) st
  end.

(** [np.array(cs)] of the buffered rows; a [None] among them does not
    give a 2-D float array. *)
Definition np_array (cs : list (option (list num))) : result (list (list num)) :=
  or_raise ValueError (mapM id cs).

(** [merge(cls, sysconf_i, sysconf_j)], with its closing assertion. *)
Definition merge (h : heap t) (sysconf_i sysconf_j : ref) : result (heap t * ref) :=
  x ← deref h sysconf_i;
  y ← deref h sysconf_j;
  let keyset_i := dom (idx x) in
  let keyset_j := dom (idx y) in
  st ← merge_loop x y (sorted (elements (keyset_i ∪ keyset_j))) 0 locals0;
  '(h', sysconf) ←
    (if modified st
     then rows ← np_array (cs_buf st);
          Ok (alloc h (mk (idx_map st) rows (sids_buf st) (cnt_buf st)))
     else Ok (h, sysconf_i));
  z ← deref h' sysconf;
  _ ← assert (Bool.eqb (eqb z x) (bool_decide (sysconf = sysconf_i)));
  Ok (h', sysconf).

(** [update(self, agent, os, sid)] *)
Definition update (h : heap t) (self : ref) (agent : string)
    (os : list num) (sid : Z) : result (heap t * ref) :=
  x ← deref h self;
  let idx' := idx x in                       (* self._idx.copy() *)
  i ← or_raise KeyError (idx' !! agent);
  cs' ← set_row (cs x) i os;
  sids' ← list_set (sids x) i sid;
  c ← or_raise IndexError (cnt x !! i);
  cnt' ← list_set (cnt x) i (c + 1);
  Ok (alloc h (mk idx' cs' sids' cnt')).

(** The invariants of the data model: [idx] is a bijection between the
    agents and the rows, the vectors have one entry per row, the rows have
    one common length, the counters are not negative. *)
Definition wf (x : t) : Prop :=
  map_Forall (λ _ i, (i < length (cs x))%nat) (idx x) ∧
  NoDup (snd <$> map_to_list (idx x)) ∧
  size (idx x) = length (cs x) ∧
  length (sids x) = length (cs x) ∧
  length (cnt x) = length (cs x) ∧
  Forall (λ r, length r = width (cs x)) (cs x) ∧
  Forall (λ c, 0 ≤ c) (cnt x).

#[global] Instance wf_dec (x : t) : Decision (wf x).
Proof. unfold wf. apply _. Defined.
End defs.
End SystemConfig.

(** ** [planning.Candidate] *)

Module Candidate.
Section defs.
Context `{Numeric}.

(** The instance attributes; [perf] is [None] for the scratch object that
    [Planner._decide] builds before it calls [update]. *)
Record t : Type := mk {
  agent : string;
  idx : gmap string nat;
  cs : list (list num);
  sids : list Z;
  perf : option num;
}.

(** [Data = namedtuple('Data', 'os, sid')] *)
Record Data : Type := mkData {
  os : list num;
  sid : Z;
}.

(** [==] on two performances, either of which may be [None]. *)
Definition perf_eqb (p q : option num) : bool :=
  match p, q with
  | Some x, Some y => num_eqb x y
  | None, None => true
  | _, _ => false
  end.

(** [p > q]; ordering [None] is a [TypeError]. *)
Definition perf_gt (p q : option num) : result bool :=
  match p, q with
  | Some x, Some y => Ok (num_ltb y x)
  | _, _ => Err TypeError
  end.

(** [__eq__] *)
Definition eqb (self other : t) : bool :=
  bool_decide (agent self = agent other) &&
  bool_decide (idx self = idx other) &&
  bool_decide (sids self = sids other) &&
  perf_eqb (perf self) (perf other) &&
  array_equal (cs self) (cs other).

(** [data(self, agent)] *)
Definition data (self : t) (agent : string) : result Data :=
  i ← or_raise KeyError (idx self !! agent);
  os ← or_raise IndexError (cs self !! i);
  sid ← or_raise IndexError (sids self !! i);
  Ok (mkData os sid).

(** The buffers filled by the loop of [merge]'s third branch. *)
Record locals : Type := mkLocals {
  idx_map : gmap string nat;
  cs_buf : list (list num);
  sids_buf : list Z;
}.

Definition locals0 : locals := mkLocals ∅ [] [].

Definition merge_step (candidate_i candidate_j : t) (i : nat) (a : string)
    (st : locals) : result locals :=
  let keyset_i := dom (idx candidate_i) in
  d ← (if decide (a ∈ keyset_i) then data candidate_i a
       else data candidate_j a);
  Ok (mkLocals (<[a:=i]> (idx_map st)) (cs_buf st ++ [os d])
        (sids_buf st ++ [sid d])).

Fixpoint merge_loop (candidate_i candidate_j : t) (keys : list string)
    (i : nat) (st : locals) : result locals :=
  match keys with
  | [] => Ok st
  | a :: keys =>
      st ← merge_step candidate_i candidate_j i a st;
      merge_loop candidate_i candidate_j keys (S i) st
  end.

(** [merge(cls, candidate_i, candidate_j, agent, perf_func)], with its
    closing assertion; the parameter [agent] is called [me] here, [agent]
    being the attribute.  [perf_func] is a callback and may raise. *)
Definition merge_with (h : heap t) (candidate_i candidate_j : ref)
    (me : string) (perf_func : list (list num) → result num)
    : result (heap t * ref) :=
  ci ← deref h candidate_i;
  cj ← deref h candidate_j;
  let keyset_i := dom (idx ci) in
  let keyset_j := dom (idx cj) in
  '(h', candidate) ←
    (if decide (keyset_i ⊂ keyset_j) then (Ok (h, candidate_j) : result (heap t * ref))
     else if decide (keyset_i = keyset_j) then
       better ← perf_gt (perf cj) (perf ci);
       if (better : bool) then Ok (h, candidate_j)
       else if perf_eqb (perf cj) (perf ci) then
         if String.ltb (agent cj) (agent ci)
         then Ok (h, candidate_j)
         else Ok (h, candidate_i)
       else Ok (h, candidate_i)
     else if decide (keyset_j ∖ keyset_i ≠ ∅) then
       st ← merge_loop ci cj (sorted (elements (keyset_i ∪ keyset_j))) 0
              locals0;
       let cs := cs_buf st in
       perf ← perf_func cs;
       Ok (alloc h (mk me (idx_map st) cs (sids_buf st) (Some perf)))
     else Ok (h, candidate_i));
  z ← deref h' candidate;
  _ ← assert (Bool.eqb (eqb z ci) (bool_decide (candidate = candidate_i)));
  Ok (h', candidate).

(** [merge] with a [perf_func] that returns. *)
Definition merge (h : heap t) (candidate_i candidate_j : ref)
    (me : string) (perf_func : list (list num) → num)
    : result (heap t * ref) :=
  merge_with h candidate_i candidate_j me (λ cs, Ok (perf_func cs)).

(** [update(self, agent, os, sid, perf_func)] *)
Definition update (h : heap t) (self : ref) (agent : string)
    (os : list num) (sid : Z) (perf_func : list (list num) → num)
    : result (heap t * ref) :=
  x ← deref h self;
  let idx' := idx x in                       (* dict(self._idx) *)
  i ← or_raise KeyError (idx' !! agent);
  cs' ← set_row (cs x) i os;
  sids' ← list_set (sids x) i sid;
  let perf := perf_func cs' in
  Ok (alloc h (mk agent idx' cs' sids' (Some perf))).

(** The shape invariants of the data model that [merge] and [update] rely
    on: every indexed agent has a row, there is one schedule id per row, and
    a finished candidate has a performance. *)
Definition wf (x : t) : Prop :=
  map_Forall (λ _ i, (i < length (cs x))%nat) (idx x) ∧
  length (sids x) = length (cs x) ∧
  is_Some (perf x).

#[global] Instance wf_dec (x : t) : Decision (wf x).
Proof. unfold wf. apply _. Defined.
End defs.
End Candidate.

(** ** [planning.WorkingMemory] *)

Module WorkingMemory.
Section defs.
Context `{Numeric}.

Record t : Type := mk {
  neighbors : list string;
  start : Z;
  res : Z;
  intervals : Z;
  ts : list num;
  weights : list num;
  ps : list (Z * num * list num);      (* (sid, utility, os) *)
  sysconf : option ref;
  candidate : option ref;
  msgs_in : Z;
  msgs_out : Z;
}.

(** [objective_function(self, cluster_schedule)].  The function is
    NumPy's on the shapes the negotiation works with: a cluster schedule
    with at least one row, and rows, target schedule and weights of one
    common length.  On other shapes NumPy broadcasts an operand of length
    one and raises a [ValueError] otherwise, which this function does not
    do: every result that evaluates it assumes the common length. *)
Definition objective_function (self : t) (cluster_schedule : list (list num))
    : num :=
  let sum_cs := sum_axis0 cluster_schedule in
  let diff := num_abs <$> zip_with num_sub (ts self) sum_cs in
  let w_diff := zip_with num_mul diff (weights self) in
  num_neg (num_sum w_diff).
End defs.
End WorkingMemory.

(** ** [planning.Planner]: the decide step *)

Module Planner.
Section defs.
Context `{Numeric}.

(** The attributes the decide step reads: [self.name] and [self.wm]. *)
Record t : Type := mk {
  name : string;
  wm : WorkingMemory.t;
}.

(** The loop of [_get_new_os]: [best_perf] and, once a better schedule was
    seen ([new_candidate_found]), the pair [new_op_sched, new_sid]. *)
Fixpoint _get_new_os_loop (self : t) (hs : heap SystemConfig.t)
    (sysconf : ref) (name : string) (ps : list (Z * num * list num))
    (best_perf : option num) (found : option (list num * Z))
    : result (heap SystemConfig.t * option (list num * Z)) :=
  match ps with
  | [] => Ok (hs, found)
  | (sid, _, op_sched) :: ps =>
      '(hs, new_s) ← SystemConfig.update hs sysconf name op_sched sid;
      s ← deref hs new_s;
      let new_perf :=
        WorkingMemory.objective_function (wm self) (SystemConfig.cs s) in
      better ← Candidate.perf_gt (Some new_perf) best_perf;
      if (better : bool)
      then _get_new_os_loop self hs sysconf name ps (Some new_perf)
             (Some (op_sched, sid))
      else _get_new_os_loop self hs sysconf name ps best_perf found
  end.

(** [_get_new_os(self, current_best_perf, sysconf, name)] *)
Definition _get_new_os (self : t) (hs : heap SystemConfig.t)
    (current_best_perf : option num) (sysconf : ref) (name : string)
    : result (heap SystemConfig.t * option (list num * Z)) :=
  _get_new_os_loop self hs sysconf name (WorkingMemory.ps (wm self))
    current_best_perf None.

(** [_decide(self, sysconf, candidate)] *)
Definition _decide (self : t) (hs : heap SystemConfig.t)
    (hc : heap Candidate.t) (sysconf candidate : ref)
    : result (heap SystemConfig.t * heap Candidate.t * ref * ref) :=
  let self_name := name self in
  let name := self_name in
  x ← deref hs sysconf;
  dx ← SystemConfig.data x name;
  let current_sid := SystemConfig.sid dx in
  c ← deref hc candidate;
  current_best ← Candidate.data c name;
  let current_best_perf := Candidate.perf c in
  let best_os := Candidate.os current_best in
  let best_sid := Candidate.sid current_best in
  '(hs, new_os_sid) ← _get_new_os self hs current_best_perf sysconf name;
  '(hs, hc, candidate, best_os, best_sid) ←
    match new_os_sid with
    | Some (new_os, new_sid) =>
        '(hs, new_s) ← SystemConfig.update hs sysconf name new_os new_sid;
        s ← deref hs new_s;
        let '(hc, scratch) :=
          alloc hc (Candidate.mk self_name (SystemConfig.idx s)
                      (SystemConfig.cs s) (SystemConfig.sids s) None) in
        '(hc, new_candidate) ←
          Candidate.update hc scratch name new_os new_sid
            (WorkingMemory.objective_function (wm self));
        nc ← deref hc new_candidate;
        better ← Candidate.perf_gt (Candidate.perf nc) (Candidate.perf c);
        if (better : bool)
        then Ok (hs, hc, new_candidate, new_os, new_sid)
        else Ok (hs, hc, candidate, best_os, best_sid)
    | None => Ok (hs, hc, candidate, best_os, best_sid)
    end;
  if bool_decide (current_sid ≠ best_sid)
  then '(hs, sysconf) ← SystemConfig.update hs sysconf name best_os best_sid;
       Ok (hs, hc, sysconf, candidate)
  else Ok (hs, hc, sysconf, candidate).
End defs.
End Planner.

(** ** [observer.ObserverAgent]: collecting the final candidates *)

Module ObserverAgent.
Section defs.
Context `{Numeric}.

(** The attributes of the observer.  A future is the flag "has a result";
    the monitoring database and the termination detector are other
    objects, which the observer only calls. *)
Record t : Type := mk {
  _n_agents : option Z;
  _agents_registered : bool;
  _ts : option (list num);
  _weights : option (list num);
  _agents : gmap nat string;           (* agent proxy -> address *)
  _agent_names : gmap string string;   (* address -> name *)
  _solution_determined : bool;
  _solution : option ref;
  _candidates : list ref;
  _stop : bool;
  _terminated : bool;
}.

(** [__init__(self, container, ctrl_proxy, n_agents=...)] *)
Definition __init__ (n_agents : option Z) : t :=
  {| _n_agents := n_agents;
     _agents_registered := bool_decide (n_agents = None);
     _ts := None; _weights := None;
     _agents := ∅; _agent_names := ∅;
     _solution_determined := false; _solution := None; _candidates := [];
     _stop := false;
     _terminated := false |}.

(** [fut.set_result(True)] on a future that already has one raises. *)
Definition set_result (done : bool) : result bool :=
  if done then Err InvalidStateError else Ok true.

(** [register_unitAgent(self, agent_proxy, addr, name=None)] *)
Definition register_unitAgent (self : t) (agent_proxy : nat) (addr : string)
    (name : option string) : result t :=
  let agents := <[agent_proxy:=addr]> (_agents self) in
  let name' := match name with
               | Some n => if String.eqb n "" then addr else n
               | None => addr
               end in
  let names := <[addr:=name']> (_agent_names self) in
  registered ←
    (if bool_decide (_n_agents self = Some (Z.of_nat (size agents)))
     then set_result (_agents_registered self)
     else Ok (_agents_registered self));
  Ok {| _n_agents := _n_agents self; _agents_registered := registered;
        _ts := _ts self; _weights := _weights self;
        _agents := agents; _agent_names := names;
        _solution_determined := _solution_determined self;
        _solution := _solution self; _candidates := _candidates self;
        _stop := _stop self; _terminated := _terminated self |}.

(** [start_observation(self, conn_data, date, target_schedule, weights)]
    with [_reset_negotiation_setup]. *)
Definition start_observation (self : t) (target_schedule weights : list num)
    : result t :=
  _ ← assert (bool_decide (length target_schedule = length weights));
  Ok {| _n_agents := _n_agents self;
        _agents_registered := _agents_registered self;
        _ts := Some target_schedule; _weights := Some weights;
        _agents := _agents self; _agent_names := _agent_names self;
        _solution_determined := false;
        _solution := None; _candidates := [];
        _stop := _stop self; _terminated := _terminated self |}.

(** [functools.reduce(f, candidates)] for a function on heap objects. *)
Fixpoint reduce_from (f : heap Candidate.t → ref → ref →
                          result (heap Candidate.t * ref))
    (h : heap Candidate.t) (acc : ref) (l : list ref)
    : result (heap Candidate.t * ref) :=
  match l with
  | [] => Ok (h, acc)
  | c :: l => '(h, acc) ← f h acc c; reduce_from f h acc l
  end.

Definition reduce (f : heap Candidate.t → ref → ref →
                       result (heap Candidate.t * ref))
    (h : heap Candidate.t) (l : list ref)
    : result (heap Candidate.t * ref) :=
  match l with
  | [] => Err TypeError
  | c :: l => reduce_from f h c l
  end.

(** The loop [for c in candidates[1:]: assert c == solution]. *)
Fixpoint assert_all_equal (h : heap Candidate.t) (solution : Candidate.t)
    (l : list ref) : result unit :=
  match l with
  | [] => Ok tt
  | c :: l =>
      x ← deref h c;
      _ ← assert (Candidate.eqb x solution);
      assert_all_equal h solution l
  end.

(** The dummy working memory of [_get_solution]. *)
Definition dummy_wm (ts weights : list num) : WorkingMemory.t :=
  {| WorkingMemory.neighbors := []; WorkingMemory.start := 0;
     WorkingMemory.res := 0; WorkingMemory.intervals := 0;
     WorkingMemory.ts := ts; WorkingMemory.weights := weights;
     WorkingMemory.ps := [];
     WorkingMemory.sysconf := None; WorkingMemory.candidate := None;
     WorkingMemory.msgs_in := 0; WorkingMemory.msgs_out := 0 |}.

Definition with_solution (self : t) (solution : ref) (determined : bool) : t :=
  {| _n_agents := _n_agents self;
     _agents_registered := _agents_registered self;
     _ts := _ts self; _weights := _weights self;
     _agents := _agents self; _agent_names := _agent_names self;
     _solution_determined := determined;
     _solution := Some solution; _candidates := _candidates self;
     _stop := _stop self; _terminated := _terminated self |}.

(** [_get_solution(self, candidates)].  The merging branch builds its
    dummy working memory from [self._ts] and [self._weights] as they are.
    Before the first [start_observation] they are [None]: the objective
    function then raises a [TypeError] when it is evaluated, that is when a
    merge has to build a new candidate; merges that return one of their
    arguments go through.  ([start_observation] sets the two together, so
    they are both [None] or both set.) *)
Definition _get_solution (self : t) (h : heap Candidate.t)
    (candidates : list ref) : result (t * heap Candidate.t * ref) :=
  '(h, solution) ←
    (if _terminated self then
       solution ← or_raise IndexError (candidates !! 0%nat);
       s ← deref h solution;
       _ ← assert_all_equal h s (drop 1 candidates);
       Ok (h, solution)
     else
       let perf_func : list (list num) → result num :=
         match _ts self, _weights self with
         | Some ts, Some weights =>
             λ cs, Ok (WorkingMemory.objective_function
                         (dummy_wm ts weights) cs)
         | _, _ => λ _, Err TypeError
         end in
       let reducer := λ h ci cj,
         Candidate.merge_with h ci cj "controller" perf_func in
       reduce reducer h candidates);
  determined ← set_result (_solution_determined self);
  Ok (with_solution self solution determined, h, solution).

(** [update_final_cand(self, candidate)] *)
Definition update_final_cand (self : t) (h : heap Candidate.t)
    (candidate : ref) : result (t * heap Candidate.t) :=
  let self :=
    {| _n_agents := _n_agents self;
       _agents_registered := _agents_registered self;
       _ts := _ts self; _weights := _weights self;
       _agents := _agents self; _agent_names := _agent_names self;
       _solution_determined := _solution_determined self;
       _solution := _solution self;
       _candidates := _candidates self ++ [candidate];
       _stop := _stop self; _terminated := _terminated self |} in
  if bool_decide (length (_candidates self) = size (_agents self))
  then '(self, h, _) ← _get_solution self h (_candidates self); Ok (self, h)
  else Ok (self, h).

(** [stop(self)] *)
Definition stop (self : t) : t :=
  {| _n_agents := _n_agents self;
     _agents_registered := _agents_registered self;
     _ts := _ts self; _weights := _weights self;
     _agents := _agents self; _agent_names := _agent_names self;
     _solution_determined := _solution_determined self;
     _solution := _solution self; _candidates := _candidates self;
     _stop := true; _terminated := _terminated self |}.

(** What happens to an observer: the calls of its exposed methods, and the
    termination detector resolving its [terminated] future, upon which
    [_wait_finish_neg] calls the controller's [negotiation_finished]. *)
Inductive event : Type :=
  | Register (agent_proxy : nat) (addr : string) (name : option string)
  | StartObservation (target_schedule weights : list num)
  | UpdateStats (agent : string) (msgs_in msgs_out : Z)
  | TerminationDetected
  | UpdateFinalCand (candidate : ref)
  | Stop.

Definition step (self : t) (h : heap Candidate.t) (e : event)
    : result (t * heap Candidate.t) :=
  match e with
  | Register p addr name =>
      self ← register_unitAgent self p addr name; Ok (self, h)
  | StartObservation ts weights =>
      self ← start_observation self ts weights; Ok (self, h)
  | UpdateStats _ _ _ => Ok (self, h)
  | TerminationDetected => Ok (self, h)
  | UpdateFinalCand c => update_final_cand self h c
  | Stop => Ok (stop self, h)
  end.

Fixpoint run (self : t) (h : heap Candidate.t) (evs : list event)
    : result (t * heap Candidate.t) :=
  match evs with
  | [] => Ok (self, h)
  | e :: evs => '(self, h) ← step self h e; run self h evs
  end.
End defs.
End ObserverAgent.

(** ** [controller.core.management.TopologyManager] *)

Module TopologyManager.

(** The order of [sorted] on pairs of names. *)
Definition pair_le : relation (string * string) := λ p q,
  String.ltb p.1 q.1 = true ∨ (p.1 = q.1 ∧ String.leb p.2 q.2 = true).
#[global] Instance pair_le_dec : RelDecision pair_le.
Proof. intros p q. unfold pair_le. apply _. Defined.

(** [sorted(items, key=lambda x: x[1])]: a stable sort by address. *)
Fixpoint insert_by_addr (x : nat * string) (l : list (nat * string))
    : list (nat * string) :=
  match l with
  | [] => [x]
  | y :: l' =>
      if String.ltb x.2 y.2 then x :: y :: l' else y :: insert_by_addr x l'
  end.

Definition sorted_by_addr (items : list (nat * string)) : list (nat * string) :=
  foldl (λ acc x, insert_by_addr x acc) [] items.

(** [int(x)] truncates towards zero. *)
Definition int (x : QArith_base.Q) : Z :=
  Z.quot (QArith_base.Qnum x) (Z.pos (QArith_base.Qden x)).

(** [d[k]] on a dict given by its items. *)
Definition dict_get (d : list (nat * string)) (k : nat) : result string :=
  or_raise KeyError ((λ f, f.2.2) <$> list_find (λ kv, kv.1 = k) d).

Section defs.
(** [random.Random]: the generator is a state, [Random seed] the seeded
    one, and [randbelow] draws an index below a bound, as [choice] does. *)
Context {rng : Type}.
Variable Random : option Z → rng.
Variable randbelow : rng → nat → nat * rng.

(** [rnd.choice(seq)] *)
Definition choice (rnd : rng) (seq : list nat) : result (nat * rng) :=
  if decide (seq = []) then Err IndexError
  else
    let '(k, rnd) := randbelow rnd (length seq) in
    a ← or_raise IndexError (seq !! k);
    Ok (a, rnd).

(** The attributes; a proxy is a [nat], [_agent_addresses] the items of
    the dict of the agents in insertion order. *)
Record t : Type := mk {
  _agent_addresses : option (list (nat * string));
  _topology : option (gmap nat (gset string));
  _topology_phi : QArith_base.Q;
  _topology_seed : option Z;
}.

(** [__init__(self, phi=1, seed=None)] *)
Definition __init__ (phi : QArith_base.Q) (seed : option Z) : t :=
  mk None None phi seed.

(** [topology[agent].add(addr)] *)
Definition add_neighbor (topology : gmap nat (gset string)) (agent : nat)
    (addr : string) : result (gmap nat (gset string)) :=
  s ← or_raise KeyError (topology !! agent);
  Ok (<[agent:={[addr]} ∪ s]> topology).

(** [agent_list[k % n_agents]] for an integer [k]. *)
Definition list_get_mod (agent_list : list nat) (k n_agents : Z) : result nat :=
  if decide (n_agents = 0) then Err ZeroDivisionError
  else or_raise IndexError (agent_list !! Z.to_nat (k mod n_agents)).

(** [_build_ring(self, agent_list, n_agents)], from index [i] on. *)
Fixpoint _build_ring_loop (addresses : list (nat * string))
    (agent_list : list nat) (n_agents : Z) (i : Z) (rest : list nat)
    (topology : gmap nat (gset string)) : result (gmap nat (gset string)) :=
  match rest with
  | [] => Ok topology
  | agent :: rest =>
      agent_left ← list_get_mod agent_list (i - 1) n_agents;
      agent_right ← list_get_mod agent_list (i + 1) n_agents;
      addr_left ← dict_get addresses agent_left;
      topology ← add_neighbor topology agent addr_left;
      addr_right ← dict_get addresses agent_right;
      topology ← add_neighbor topology agent addr_right;
      _build_ring_loop addresses agent_list n_agents (i + 1) rest topology
  end.

Definition _build_ring (addresses : list (nat * string))
    (agent_list : list nat) (n_agents : Z)
    (topology : gmap nat (gset string)) : result (gmap nat (gset string)) :=
  _build_ring_loop addresses agent_list n_agents 0 agent_list topology.

(** [_add_random_topology(self, agent_list)], [count] draws to go. *)
Fixpoint _add_random_loop (addresses : list (nat * string))
    (agent_list : list nat) (count : nat) (rnd : rng)
    (topology : gmap nat (gset string)) : result (gmap nat (gset string)) :=
  match count with
  | O => Ok topology
  | S count =>
      '(agent_a, rnd) ← choice rnd agent_list;
      '(agent_b, rnd) ← choice rnd agent_list;
      if decide (agent_a = agent_b)
      then _add_random_loop addresses agent_list count rnd topology
      else
        addr_b ← dict_get addresses agent_b;
        topology ← add_neighbor topology agent_a addr_b;
        addr_a ← dict_get addresses agent_a;
        topology ← add_neighbor topology agent_b addr_a;
        _add_random_loop addresses agent_list count rnd topology
  end.

(** [range(int(len(agent_list) * phi))] has this many elements.  [phi] is
    taken as the exact rational it denotes: for a float [phi] the code
    rounds the product to binary64 before it truncates, which can differ by
    one draw (and overflows for huge [phi]).  The results on the topology
    hold for every number of draws, or are stated for [phi = 0], where the
    product is an exact [0]. *)
Definition n_draws (n : nat) (phi : QArith_base.Q) : nat :=
  Z.to_nat (int (QArith_base.Qmult (QArith_base.inject_Z (Z.of_nat n)) phi)).

Definition _add_random_topology (self : t) (addresses : list (nat * string))
    (agent_list : list nat) (topology : gmap nat (gset string))
    : result (gmap nat (gset string)) :=
  let rnd := Random (_topology_seed self) in
  _add_random_loop addresses agent_list
    (n_draws (length agent_list) (_topology_phi self)) rnd topology.

(** [make_topology(self, agents)]: the new state and the returned dict. *)
Definition make_topology (self : t) (agents : list (nat * string))
    : result (t * gmap nat (gset string)) :=
  let n_agents := length agents in
  let agent_list := fst <$> sorted_by_addr agents in
  let topology : gmap nat (gset string) :=
    list_to_map ((λ kv, (kv.1, ∅)) <$> agents) in
  let done topology :=
    Ok (mk (Some agents) (Some topology) (_topology_phi self)
          (_topology_seed self), topology) in
  if decide (n_agents = 1%nat) then done topology
  else
    topology ← _build_ring agents agent_list (Z.of_nat n_agents) topology;
    topology ← _add_random_topology self agents agent_list topology;
    done topology.

(** The body of the inner loop of [topology_as_list]. *)
Definition connection (agent_names : gmap string string)
    (agent_addr others_addr : string) : result (string * string) :=
  name_a ← or_raise KeyError (agent_names !! agent_addr);
  name_o ← or_raise KeyError (agent_names !! others_addr);
  if String.ltb agent_addr others_addr then Ok (name_a, name_o)
  else Ok (name_o, name_a).

Fixpoint connections_of (agent_names : gmap string string)
    (agent_addr : string) (remotes : list string)
    (connections : gset (string * string))
    : result (gset (string * string)) :=
  match remotes with
  | [] => Ok connections
  | others_addr :: remotes =>
      con ← connection agent_names agent_addr others_addr;
      connections_of agent_names agent_addr remotes ({[con]} ∪ connections)
  end.

Fixpoint connections_loop (addresses : list (nat * string))
    (agent_names : gmap string string)
    (items : list (nat * gset string))
    (connections : gset (string * string))
    : result (gset (string * string)) :=
  match items with
  | [] => Ok connections
  | (agent_proxy, remotes) :: items =>
      agent_addr ← dict_get addresses agent_proxy;
      connections ← connections_of agent_names agent_addr
                      (elements remotes) connections;
      connections_loop addresses agent_names items connections
  end.

(** [topology_as_list(self, agent_names)] *)
Definition topology_as_list (self : t) (agent_names : gmap string string)
    : result (list (string * string)) :=
  topology ← or_raise AssertionError (_topology self);
  addresses ← or_raise AssertionError (_agent_addresses self);
  connections ← connections_loop addresses agent_names
                  (map_to_list topology) ∅;
  Ok (merge_sort pair_le (elements connections)).
End defs.
End TopologyManager.

(** ** Outcomes of the merge functions *)

(** The outcome of [Candidate.merge], branch by branch.  A run never ends in
    the closing assertion: it returns, or it fails earlier on a performance
    of [None] or on an agent without data. *)
Definition Candidate_merge_outcome `{Numeric} (h : heap Candidate.t)
    (i j : ref) (me : string) (f : list (list num) → num)
    (ci cj : Candidate.t) (out : result (heap Candidate.t * ref)) : Prop :=
  let K_i := dom (Candidate.idx ci) in
  let K_j := dom (Candidate.idx cj) in
  match out with
  | Ok (h', r) =>
      (K_i ⊂ K_j ∧ h' = h ∧ r = j) ∨
      (K_i = K_j ∧ h' = h ∧
       ∃ p q, Candidate.perf ci = Some p ∧ Candidate.perf cj = Some q ∧
         r = if num_ltb p q then j
             else if num_eqb q p &&
                     String.ltb (Candidate.agent cj) (Candidate.agent ci)
                  then j else i) ∨
      (¬ K_i ⊂ K_j ∧ K_i ≠ K_j ∧ K_j ∖ K_i ≠ ∅ ∧
       ∃ st, Candidate.merge_loop ci cj (sorted (elements (K_i ∪ K_j))) 0
               Candidate.locals0 = Ok st ∧
         h' = h ++ [Candidate.mk me (Candidate.idx_map st)
                      (Candidate.cs_buf st) (Candidate.sids_buf st)
                      (Some (f (Candidate.cs_buf st)))] ∧
         r = length h) ∨
      (¬ K_i ⊂ K_j ∧ K_i ≠ K_j ∧ K_j ∖ K_i = ∅ ∧ h' = h ∧ r = i)
  | Err e =>
      (K_i = K_j ∧ e = TypeError ∧
       (Candidate.perf ci = None ∨ Candidate.perf cj = None)) ∨
      (K_j ∖ K_i ≠ ∅ ∧
       Candidate.merge_loop ci cj (sorted (elements (K_i ∪ K_j))) 0
         Candidate.locals0 = Err e)
  end.


(** What the loop of [SystemConfig.merge] did for the agent [a], whose
    counter in the buffer is [c]: [bounds]: [c] is at least the counters of
    [a] in the two arguments; [took_j]: the data of [sysconf_j] were newer
    and were taken; [kept_i]: they were not. *)
Definition bounds `{Numeric} (x y : SystemConfig.t) (a : string) (c : Z) : Prop :=
  (∀ di, SystemConfig.data x a = Ok di → SystemConfig.count di ≤ c) ∧
  (∀ dj, SystemConfig.data y a = Ok dj → SystemConfig.count dj ≤ c).

Definition took_j `{Numeric} (x y : SystemConfig.t) (a : string) (c : Z) : Prop :=
  ∃ dj, SystemConfig.data y a = Ok dj ∧ c = SystemConfig.count dj ∧
    (a ∈ dom (SystemConfig.idx x) →
     ∃ di, SystemConfig.data x a = Ok di ∧
           SystemConfig.count di < SystemConfig.count dj).

Definition kept_i `{Numeric} (x y : SystemConfig.t) (a : string) : Prop :=
  a ∈ dom (SystemConfig.idx y) →
  ∃ dj, SystemConfig.data y a = Ok dj ∧
    if decide (a ∈ dom (SystemConfig.idx x))
    then ∃ di, SystemConfig.data x a = Ok di ∧
               SystemConfig.count dj ≤ SystemConfig.count di
    else SystemConfig.count dj ≤ -1.

(** The outcome of [SystemConfig.merge]: it returns [sysconf_i] itself when
    the loop modified nothing and a new object built from the buffers when
    it did, and a failing run never fails in the closing assertion. *)
Definition SystemConfig_merge_outcome `{Numeric} (h : heap SystemConfig.t)
    (i : ref) (x y : SystemConfig.t)
    (out : result (heap SystemConfig.t * ref)) : Prop :=
  let keys := sorted (elements (dom (SystemConfig.idx x) ∪
                                dom (SystemConfig.idx y))) in
  match out with
  | Ok (h', r) =>
      ∃ st, SystemConfig.merge_loop x y keys 0 SystemConfig.locals0 = Ok st ∧
        ((SystemConfig.modified st = false ∧ h' = h ∧ r = i) ∨
         (SystemConfig.modified st = true ∧
          ∃ rows, SystemConfig.np_array (SystemConfig.cs_buf st) = Ok rows ∧
            h' = h ++ [SystemConfig.mk (SystemConfig.idx_map st) rows
                         (SystemConfig.sids_buf st) (SystemConfig.cnt_buf st)] ∧
            r = length h))
  | Err e =>
      e ≠ AssertionError ∧
      (SystemConfig.merge_loop x y keys 0 SystemConfig.locals0 = Err e ∨
       ∃ st, SystemConfig.merge_loop x y keys 0 SystemConfig.locals0 = Ok st ∧
         SystemConfig.np_array (SystemConfig.cs_buf st) = Err e)
  end.


(** The graph of a topology: the agent [a] is linked to the agent [b] when
    the address of [b] is among the neighbours of [a]. *)
Definition linked (agents : list (nat * string))
    (topology : gmap nat (gset string)) (a b : nat) : Prop :=
  ∃ addr_b N, (b, addr_b) ∈ agents ∧ topology !! a = Some N ∧ addr_b ∈ N.

(** Every neighbour of an agent is the address of another agent, which has
    the agent among its own neighbours. *)
Definition mutual (agents : list (nat * string))
    (topology : gmap nat (gset string)) : Prop :=
  ∀ a N addr, topology !! a = Some N → addr ∈ N →
    ∃ b Nb addr_a, (b, addr) ∈ agents ∧ b ≠ a ∧ (a, addr_a) ∈ agents ∧
      topology !! b = Some Nb ∧ addr_a ∈ Nb.

(** What the ring loop leaves in a topology: the agent at position [k] of
    the list has exactly the addresses of the agents at the positions
    [k - 1] and [k + 1] (modulo the length) as neighbours. *)
Definition ring_of (agents : list (nat * string)) (L : list nat)
    (T : gmap nat (gset string)) : Prop :=
  ∀ (k : nat) a, L !! k = Some a →
    ∃ l r al ar,
      L !! Z.to_nat ((Z.of_nat k - 1) mod Z.of_nat (length L)) = Some l ∧
      L !! Z.to_nat ((Z.of_nat k + 1) mod Z.of_nat (length L)) = Some r ∧
      (l, al) ∈ agents ∧ (r, ar) ∈ agents ∧
      T !! a = Some ({[ar]} ∪ ({[al]} ∪ ∅)).

(** ** Further specifications *)

(** The data that [SystemConfig.merge] keeps for an agent: those of
    [sysconf_j] when they carry the larger counter, else those of
    [sysconf_i]; those of the only configuration that knows the agent
    otherwise. *)
Definition newer_of `{Numeric} (x y : SystemConfig.t) (a : string)
    (d : SystemConfig.Data) : Prop :=
  match SystemConfig.data x a, SystemConfig.data y a with
  | Ok di, Ok dj =>
      d = if bool_decide (SystemConfig.count dj > SystemConfig.count di)
          then dj else di
  | Ok di, Err _ => d = di
  | Err _, Ok dj => d = dj
  | Err _, Err _ => False
  end.

(** ** [planning.Planner]: the negotiation loop *)

Module Negotiation.
Section defs.
Context `{Numeric}.

(** A call [neighbor.update(sysconf, candidate)] that the planner issues:
    the neighbour and the two arguments as the working memory holds them. *)
Record message : Type := mkMessage {
  msg_to : string;
  msg_sysconf : option ref;
  msg_candidate : option ref;
}.

(** The arguments of a call of the observer's [update_stats] (all but the
    unit's name and the process time). *)
Record stats : Type := mkStats {
  st_perf : option num;
  st_n_os : nat;
  st_msgs_in : Z;
  st_msgs_out : Z;
  st_msg_sent : bool;
}.

(** The planner during a negotiation: [self.name] and [self.wm] (a
    [Planner.t]), [self.inbox] and [self.task_negotiation_stop]. *)
Record t : Type := mk {
  planner : Planner.t;
  inbox : list (ref * ref);
  task_negotiation_stop : bool;
}.

(** Assignments to attributes of the working memory. *)
Definition set_msgs_in (wm : WorkingMemory.t) (n : Z) : WorkingMemory.t :=
  WorkingMemory.mk (WorkingMemory.neighbors wm) (WorkingMemory.start wm)
    (WorkingMemory.res wm) (WorkingMemory.intervals wm) (WorkingMemory.ts wm)
    (WorkingMemory.weights wm) (WorkingMemory.ps wm)
    (WorkingMemory.sysconf wm) (WorkingMemory.candidate wm)
    n (WorkingMemory.msgs_out wm).

Definition set_msgs_out (wm : WorkingMemory.t) (n : Z) : WorkingMemory.t :=
  WorkingMemory.mk (WorkingMemory.neighbors wm) (WorkingMemory.start wm)
    (WorkingMemory.res wm) (WorkingMemory.intervals wm) (WorkingMemory.ts wm)
    (WorkingMemory.weights wm) (WorkingMemory.ps wm)
    (WorkingMemory.sysconf wm) (WorkingMemory.candidate wm)
    (WorkingMemory.msgs_in wm) n.

Definition set_state (wm : WorkingMemory.t) (sysconf candidate : option ref)
    : WorkingMemory.t :=
  WorkingMemory.mk (WorkingMemory.neighbors wm) (WorkingMemory.start wm)
    (WorkingMemory.res wm) (WorkingMemory.intervals wm) (WorkingMemory.ts wm)
    (WorkingMemory.weights wm) (WorkingMemory.ps wm)
    sysconf candidate
    (WorkingMemory.msgs_in wm) (WorkingMemory.msgs_out wm).

(** [store_topology(self, _, neighbors, target_schedule, weights,
    resolution, intervals, startdate)]; [possible_schedules] is what the
    unit model's [generate_schedules] returned, [self_inbox] the inbox,
    which the method leaves as it is. *)
Definition store_topology (name : string) (self_inbox : list (ref * ref))
    (hs : heap SystemConfig.t) (hc : heap Candidate.t)
    (neighbors : list string) (target_schedule weights : list num)
    (resolution intervals startdate : Z)
    (possible_schedules : list (Z * num * list num))
    : result (t * heap SystemConfig.t * heap Candidate.t) :=
  _ ← assert (bool_decide (intervals = Z.of_nat (length target_schedule)));
  let wm := WorkingMemory.mk neighbors startdate resolution intervals
              target_schedule weights possible_schedules None None 0 0 in
  '(schedule_id, _, op_sched) ← or_raise IndexError (possible_schedules !! 0%nat);
  let '(hs, sysconf) :=
    alloc hs (SystemConfig.mk {[ name := 0%nat ]} [op_sched] [schedule_id]
                [0]) in
  let wm := set_state wm (Some sysconf) None in
  let perf := WorkingMemory.objective_function wm [op_sched] in
  let '(hc, candidate) :=
    alloc hc (Candidate.mk name {[ name := 0%nat ]} [op_sched] [schedule_id]
                (Some perf)) in
  let wm := set_state wm (Some sysconf) (Some candidate) in
  Ok (mk (Planner.mk name wm) self_inbox false, hs, hc).

(** [update(self, sysconf_other, candidate_other)] *)
Definition update (self : t) (sysconf_other candidate_other : ref) : t :=
  mk (planner self) (inbox self ++ [(sysconf_other, candidate_other)])
    (task_negotiation_stop self).

(** [_perceive(self, sysconf, sysconf_other, candidate, candidate_other)] *)
Definition _perceive (self : Planner.t) (hs : heap SystemConfig.t)
    (hc : heap Candidate.t) (sysconf sysconf_other : ref)
    (candidate candidate_other : ref)
    : result (heap SystemConfig.t * heap Candidate.t * ref * ref) :=
  '(hs, sysconf) ← SystemConfig.merge hs sysconf sysconf_other;
  '(hc, candidate) ←
    Candidate.merge hc candidate candidate_other (Planner.name self)
      (WorkingMemory.objective_function (Planner.wm self));
  Ok (hs, hc, sysconf, candidate).

(** The loop [for sysconf_other, candidate_other in inbox] of
    [process_inbox]; [msgs_in] is [self.wm.msgs_in]. *)
Fixpoint perceive_loop (self : Planner.t) (hs : heap SystemConfig.t)
    (hc : heap Candidate.t) (msgs : list (ref * ref)) (msgs_in : Z)
    (sysconf candidate : ref)
    : result (heap SystemConfig.t * heap Candidate.t * Z * ref * ref) :=
  match msgs with
  | [] => Ok (hs, hc, msgs_in, sysconf, candidate)
  | (sysconf_other, candidate_other) :: msgs =>
      let msgs_in := msgs_in + 1 in
      '(hs, hc, sysconf, candidate) ←
        _perceive self hs hc sysconf sysconf_other candidate candidate_other;
      perceive_loop self hs hc msgs msgs_in sysconf candidate
  end.

(** [_act(self)]: one message per neighbour, each counted. *)
Definition _act (wm : WorkingMemory.t) : WorkingMemory.t * list message :=
  foldl (λ '(wm, sent) neighbor,
           let wm := set_msgs_out wm (WorkingMemory.msgs_out wm + 1) in
           (wm, sent ++ [mkMessage neighbor (WorkingMemory.sysconf wm)
                           (WorkingMemory.candidate wm)]))
        (wm, []) (WorkingMemory.neighbors wm).

(** [_update_obs_agent(self, msg_sent)]: the call of [update_stats]. *)
Definition _update_obs_agent (wm : WorkingMemory.t) (hc : heap Candidate.t)
    (msg_sent : bool) : result stats :=
  candidate ← or_raise InvalidRef (WorkingMemory.candidate wm);
  c ← deref hc candidate;
  Ok (mkStats (Candidate.perf c) (length (Candidate.cs c))
        (WorkingMemory.msgs_in wm) (WorkingMemory.msgs_out wm) msg_sent).

(** [init_negotiation(self)] *)
Definition init_negotiation (self : t) (hc : heap Candidate.t)
    : result (t * list message * stats) :=
  let '(wm, sent) := _act (Planner.wm (planner self)) in
  st ← _update_obs_agent wm hc true;
  Ok (mk (Planner.mk (Planner.name (planner self)) wm) (inbox self)
        (task_negotiation_stop self), sent, st).

(** One pass through the body of the loop of [process_inbox], after the
    sleep: the new state, the messages sent and the statistics reported
    (none when the inbox was empty).  A working memory without a system
    configuration or candidate makes the first merge fail on [None]. *)
Definition process_inbox_body (self : t) (hs : heap SystemConfig.t)
    (hc : heap Candidate.t)
    : result (t * heap SystemConfig.t * heap Candidate.t *
              list message * option stats) :=
  match inbox self with
  | [] => Ok (self, hs, hc, [], None)
  | _ :: _ =>
      let name := Planner.name (planner self) in
      let wm := Planner.wm (planner self) in
      sysconf0 ← or_raise InvalidRef (WorkingMemory.sysconf wm);
      candidate0 ← or_raise InvalidRef (WorkingMemory.candidate wm);
      '(hs, hc, msgs_in, sysconf, candidate) ←
        perceive_loop (planner self) hs hc (inbox self)
          (WorkingMemory.msgs_in wm) sysconf0 candidate0;
      let wm := set_msgs_in wm msgs_in in
      let state_changed :=
        negb (bool_decide (sysconf = sysconf0)) ||
        negb (bool_decide (candidate = candidate0)) in
      '(hs, hc, wm, sent) ←
        (if state_changed
         then '(hs, hc, sc, cand) ←
                Planner._decide (Planner.mk name wm) hs hc sysconf candidate;
              let wm := set_state wm (Some sc) (Some cand) in
              let '(wm, sent) := _act wm in
              Ok (hs, hc, wm, sent)
         else Ok (hs, hc, wm, []));
      st ← _update_obs_agent wm hc state_changed;
      Ok (mk (Planner.mk name wm) [] (task_negotiation_stop self),
          hs, hc, sent, Some st)
  end.

(** What holds of a planner between two passes, for schedules of [n]
    intervals: its system configuration and its candidate are well-formed
    objects that know the agent itself, and all rows, all possible
    schedules, the target schedule and the weights have [n] entries. *)
Definition inv (n : nat) (self : Planner.t) (hs : heap SystemConfig.t)
    (hc : heap Candidate.t) : Prop :=
  ∃ sysconf candidate x c,
    WorkingMemory.sysconf (Planner.wm self) = Some sysconf ∧
    WorkingMemory.candidate (Planner.wm self) = Some candidate ∧
    hs !! sysconf = Some x ∧ hc !! candidate = Some c ∧
    SystemConfig.wf x ∧ Candidate.wf c ∧
    Planner.name self ∈ dom (SystemConfig.idx x) ∧
    Planner.name self ∈ dom (Candidate.idx c) ∧
    Forall (λ r, length r = n) (SystemConfig.cs x) ∧
    Forall (λ r, length r = n) (Candidate.cs c) ∧
    Forall (λ p, length p.2 = n) (WorkingMemory.ps (Planner.wm self)) ∧
    length (WorkingMemory.ts (Planner.wm self)) = n ∧
    length (WorkingMemory.weights (Planner.wm self)) = n.

(** What the planner holds while it works through its inbox: a
    well-formed configuration and candidate that know the agent, with rows
    of [n] entries. *)
Definition perceived (n : nat) (name : string) (hs : heap SystemConfig.t)
    (hc : heap Candidate.t) (sysconf candidate : ref) : Prop :=
  ∃ x c, hs !! sysconf = Some x ∧ hc !! candidate = Some c ∧
    SystemConfig.wf x ∧ Candidate.wf c ∧
    name ∈ dom (SystemConfig.idx x) ∧ name ∈ dom (Candidate.idx c) ∧
    Forall (λ r, length r = n) (SystemConfig.cs x) ∧
    Forall (λ r, length r = n) (Candidate.cs c).

(** A received message is acceptable when its two objects are well-formed
    with rows of [n] entries. *)
Definition msg_ok (n : nat) (hs : heap SystemConfig.t)
    (hc : heap Candidate.t) (m : ref * ref) : Prop :=
  ∃ y d, hs !! m.1 = Some y ∧ hc !! m.2 = Some d ∧
    SystemConfig.wf y ∧ Candidate.wf d ∧
    Forall (λ r, length r = n) (SystemConfig.cs y) ∧
    Forall (λ r, length r = n) (Candidate.cs d).
End defs.
End Negotiation.

(** ** [controller.ControllerAgent]: broadcasting the solution *)

Module ControllerAgent.
Section defs.
Context `{Numeric}.

(** The loop of [_broadcast_solution]: [futs] collects the calls
    [agent.set_schedule(schedule_id)]. *)
Fixpoint _broadcast_loop (solution : Candidate.t)
    (items : list (nat * string)) (futs : list (nat * Z))
    : result (list (nat * Z)) :=
  match items with
  | [] => Ok futs
  | (agent, addr) :: items =>
      i ← or_raise KeyError (Candidate.idx solution !! addr);
      schedule_id ← or_raise IndexError (Candidate.sids solution !! i);
      _broadcast_loop solution items (futs ++ [(agent, schedule_id)])
  end.

(** [_broadcast_solution(self, solution)]; [agents] are the items of
    [self._agents] (agent proxy, address). *)
Definition _broadcast_solution (agents : list (nat * string))
    (hc : heap Candidate.t) (solution : ref) : result (list (nat * Z)) :=
  s ← deref hc solution;
  _broadcast_loop s agents [].
End defs.
End ControllerAgent.

(** The performance that [_get_new_os] computes for a schedule [os] of the
    agent in row [i] of the configuration [x]: the objective function on
    the cluster schedule of [x.update(name, os, sid)]. *)
Definition perf_with `{Numeric} (self : Planner.t) (x : SystemConfig.t)
    (i : nat) (os : list num) : num :=
  WorkingMemory.objective_function (Planner.wm self)
    (<[i:=os]> (SystemConfig.cs x)).

(** The scan of [_get_new_os] over the possible schedules as a function of
    the performances alone: the best performance so far and the schedule
    that reached it. *)
Fixpoint best_schedule `{Numeric} (self : Planner.t) (x : SystemConfig.t)
    (i : nat) (ps : list (Z * num * list num)) (best : num)
    (found : option (list num * Z)) : num * option (list num * Z) :=
  match ps with
  | [] => (best, found)
  | (sid, _, os) :: ps =>
      if num_ltb best (perf_with self x i os)
      then best_schedule self x i ps (perf_with self x i os) (Some (os, sid))
      else best_schedule self x i ps best found
  end.

(** ** Sample objects, over the integers *)

Module Sample.

Definition sc_ab : @SystemConfig.t Z_numeric :=
  @SystemConfig.mk Z_numeric {[ "a" := 0%nat; "b" := 1%nat ]} [[1; 2]; [3; 4]] [0; 0] [0; 5].

Definition sc_bc : @SystemConfig.t Z_numeric :=
  @SystemConfig.mk Z_numeric {[ "b" := 0%nat; "c" := 1%nat ]}
    [[9; 9]; [1; 1]] [2; 3] [7; 1].

Definition cand_a : @Candidate.t Z_numeric :=
  @Candidate.mk Z_numeric "a" {[ "a" := 0%nat; "b" := 1%nat ]}
    [[1; 2]; [3; 4]] [0; 1] (Some (-3)).

Definition cand_b : @Candidate.t Z_numeric :=
  @Candidate.mk Z_numeric "b" {[ "a" := 0%nat; "b" := 1%nat ]}
    [[1; 2]; [0; 0]] [0; 0] (Some (-3)).

Definition cand_c : @Candidate.t Z_numeric :=
  @Candidate.mk Z_numeric "c" {[ "c" := 0%nat ]} [[5; 5]] [2] (Some 0).

(** A performance function on integer matrices: minus the sum of the
    entries. *)
Definition perf_sum (cs : list (list Z)) : Z :=
  - foldr Z.add 0 (concat cs).

(** Agent ["A"] of a negotiation of two agents with target [[2; 2]] and
    weights [[1; 1]]: its schedules are [0: [0; 0]] and [1: [2; 0]], and it
    believes that ["B"] has chosen [[0; 2]]. *)
Definition planner_A : @Planner.t Z_numeric :=
  @Planner.mk Z_numeric "A"
    (@WorkingMemory.mk Z_numeric ["B"] 0 900 2 [2; 2] [1; 1]
       [(0, 0, [0; 0]); (1, 0, [2; 0])] None None 0 0).

Definition sc_A : @SystemConfig.t Z_numeric :=
  @SystemConfig.mk Z_numeric {[ "A" := 0%nat; "B" := 1%nat ]}
    [[0; 0]; [0; 2]] [0; 1] [0; 1].

Definition cand_A : @Candidate.t Z_numeric :=
  @Candidate.mk Z_numeric "B" {[ "A" := 0%nat; "B" := 1%nat ]}
    [[0; 0]; [0; 2]] [0; 1] (Some (-2)).

(** A negotiation of two agents seen by the observer: both register, the
    observation starts, statistics arrive, the termination detector fires,
    and the first agent hands in its final candidate. *)
Definition obs_events : list (@ObserverAgent.event Z_numeric) :=
  [ ObserverAgent.Register 0%nat "a" None;
    ObserverAgent.Register 1%nat "b" None;
    @ObserverAgent.StartObservation Z_numeric [2; 2] [1; 1];
    ObserverAgent.UpdateStats "a" 1 1;
    ObserverAgent.UpdateStats "b" 1 1;
    ObserverAgent.TerminationDetected;
    ObserverAgent.UpdateFinalCand 0%nat ].

Definition obs_state : @ObserverAgent.t Z_numeric :=
  match ObserverAgent.run (ObserverAgent.__init__ None) [cand_a; cand_a]
          obs_events with
  | Ok (self, _) => self
  | Err _ => ObserverAgent.__init__ None
  end.

(** A linear congruential generator as the random source. *)
Definition lcg_Random (seed : option Z) : Z :=
  match seed with Some s => s | None => 42 end.

Definition lcg_randbelow (s : Z) (n : nat) : nat * Z :=
  (Z.to_nat (s mod Z.of_nat n), (1103515245 * s + 12345) mod 2147483648).

(** Three agents, their addresses and their names. *)
Definition agents3 : list (nat * string) :=
  [(0%nat, "tcp://h:5555/2"); (1%nat, "tcp://h:5555/0");
   (2%nat, "tcp://h:5555/1")].

Definition names3 : gmap string string :=
  {[ "tcp://h:5555/0" := "zeta"; "tcp://h:5555/1" := "alpha";
     "tcp://h:5555/2" := "mid" ]}.

Definition manager : TopologyManager.t :=
  TopologyManager.__init__ (QArith_base.Qmake 1 1) (Some 7).

(** The manager after [make_topology] on the three agents. *)
Definition manager3 : TopologyManager.t :=
  match TopologyManager.make_topology lcg_Random lcg_randbelow manager
          agents3 with
  | Ok (self, _) => self
  | Err _ => manager
  end.

(** A candidate over three agents, and the messages and state of agent
    ["A"] in the middle of a negotiation. *)
Definition cand_abc : @Candidate.t Z_numeric :=
  @Candidate.mk Z_numeric "c" {[ "a" := 0%nat; "b" := 1%nat; "c" := 2%nat ]}
    [[1; 2]; [3; 4]; [5; 5]] [0; 1; 2] (Some (-20)).

Definition sc_B : @SystemConfig.t Z_numeric :=
  @SystemConfig.mk Z_numeric {[ "A" := 0%nat; "B" := 1%nat ]}
    [[0; 0]; [2; 2]] [0; 2] [0; 2].

Definition cand_B : @Candidate.t Z_numeric :=
  @Candidate.mk Z_numeric "B" {[ "A" := 0%nat; "B" := 1%nat ]}
    [[0; 0]; [2; 2]] [0; 2] (Some 0).

Definition negotiation_A : @Negotiation.t Z_numeric :=
  @Negotiation.mk Z_numeric
    (@Planner.mk Z_numeric "A"
       (@WorkingMemory.mk Z_numeric ["B"] 0 900 2 [2; 2] [1; 1]
          [(0, 0, [0; 0]); (1, 0, [2; 0])] (Some 0%nat) (Some 0%nat) 0 0))
    [(1%nat, 1%nat)] false.

(** A system configuration and a candidate that hold a NaN, as a schedule
    read from a file with [nan] entries gives. *)
Definition sc_nan : @SystemConfig.t Znan_numeric :=
  @SystemConfig.mk Znan_numeric {[ "a" := 0%nat ]} [[None; Some 1]] [0] [0].

Definition cand_nan : @Candidate.t Znan_numeric :=
  @Candidate.mk Znan_numeric "a" {[ "a" := 0%nat ]} [[None; Some 1]] [0]
    (Some None).

(** A negotiation ended by the termination detector in which the two
    agents hand in different final candidates. *)
Definition obs_events_differ : list (@ObserverAgent.event Z_numeric) :=
  [ ObserverAgent.Register 0%nat "a" None;
    ObserverAgent.Register 1%nat "c" None;
    @ObserverAgent.StartObservation Z_numeric [2; 2] [1; 1];
    ObserverAgent.TerminationDetected;
    ObserverAgent.UpdateFinalCand 0%nat;
    ObserverAgent.UpdateFinalCand 1%nat ].

End Sample.

(** * Properties *)

(** ** The error monad and the heap *)

Lemma bind_Ok {A B} (m : result A) (f : A → result B) (b : B) :
  m ≫= f = Ok b ↔ ∃ a, m = Ok a ∧ f a = Ok b.
Proof.
  destruct m as [a|e]; simpl.
  - split; [eauto | by intros (a' & [= <-] & ?)].
  - split; [done | by intros (a' & ? & ?)].
Qed.

Lemma or_raise_Ok {A} (e : exn) (o : option A) (a : A) :
  or_raise e o = Ok a ↔ o = Some a.
Proof. destruct o; simpl; split; congruence. Qed.

Lemma deref_Ok {A} (h : heap A) (r : ref) (a : A) :
  deref h r = Ok a ↔ h !! r = Some a.
Proof. apply or_raise_Ok. Qed.

Lemma assert_Ok (b : bool) (u : unit) : assert b = Ok u ↔ b = true.
Proof. destruct b, u; simpl; split; congruence. Qed.

Lemma list_set_Ok {A} (l : list A) (i : nat) (v : A) (l' : list A) :
  list_set l i v = Ok l' ↔ (i < length l)%nat ∧ l' = <[i:=v]> l.
Proof.
  unfold list_set. case_decide; split; try intros [? ?]; try congruence; try lia.
  intros [= <-]. done.
Qed.

(** Inversion of a successful run of monadic code. *)
Ltac inv_ok :=
  repeat match goal with
  | H : _ ≫= _ = Ok _ |- _ => apply bind_Ok in H as (? & ? & H)
  | H : or_raise _ _ = Ok _ |- _ => apply or_raise_Ok in H
  | H : deref _ _ = Ok _ |- _ => apply deref_Ok in H
  | H : assert _ = Ok _ |- _ => apply assert_Ok in H
  | H : list_set _ _ _ = Ok _ |- _ => apply list_set_Ok in H as [? ?]
  | H : Ok _ = Ok _ |- _ => injection H as ?
  | H : Err _ = Ok _ |- _ => discriminate H
  | H : mret _ = Ok _ |- _ => injection H as ?
  end.

Lemma alloc_old {A} (h : heap A) (v x : A) (q : ref) :
  h !! q = Some x → (alloc h v).1 !! q = Some x.
Proof. intros Hq. simpl. by apply lookup_app_l_Some. Qed.

Lemma alloc_new {A} (h : heap A) (v : A) :
  (alloc h v).1 !! (alloc h v).2 = Some v.
Proof. simpl. by rewrite list_lookup_middle. Qed.

Lemma alloc_fresh {A} (h : heap A) (v : A) : h !! (alloc h v).2 = None.
Proof. simpl. by apply lookup_ge_None_2. Qed.

(** ** Index maps *)

Lemma idx_inj (m : gmap string nat) (a b : string) (i : nat) :
  NoDup (snd <$> map_to_list m) → m !! a = Some i → m !! b = Some i → a = b.
Proof.
  intros Hnd Ha Hb.
  apply elem_of_map_to_list in Ha, Hb.
  apply list_elem_of_lookup in Ha as [p Hp], Hb as [q Hq].
  assert (p = q) as ->.
  { eapply NoDup_lookup; [exact Hnd | |]; rewrite list_lookup_fmap.
    - by rewrite Hp.
    - by rewrite Hq. }
  congruence.
Qed.

Lemma width_lookup `{Numeric} (cs : list (list num)) (i : nat) (r : list num) :
  Forall (λ r, length r = width cs) cs → cs !! i = Some r →
  length r = width cs.
Proof. intros Hall Hi. by eapply (Forall_lookup_1 _ _ _ _ Hall Hi). Qed.

Lemma set_row_same_width `{Numeric} (cs : list (list num)) (i : nat)
    (os r : list num) :
  cs !! i = Some r → length os = length r → set_row cs i os = Ok (<[i:=os]> cs).
Proof.
  intros Hi Hlen. unfold set_row. rewrite Hi. simpl.
  by rewrite decide_True.
Qed.

(** ** [SystemConfig.update] *)

(** C6. For a well-formed configuration [sc] and an agent present in its
    index map, [sc.update(agent, os, sid)] (with [os] of the row length)
    returns a new configuration whose row and schedule id for the agent are
    [os] and [sid] and whose counter is exactly one more; the index map and
    the data of every other agent are those of [sc], and no object that was
    on the heap before, [sc] included, has changed. *)
Theorem SystemConfig_update_frame `{Numeric} (h : heap SystemConfig.t)
    (self : ref) (sc : SystemConfig.t) (agent : string) (os : list num)
    (sid : Z) :
  h !! self = Some sc →
  SystemConfig.wf sc →
  is_Some (SystemConfig.idx sc !! agent) →
  length os = width (SystemConfig.cs sc) →
  ∃ h' r sc' d,
    SystemConfig.update h self agent os sid = Ok (h', r) ∧
    h' !! r = Some sc' ∧
    SystemConfig.data sc agent = Ok d ∧
    SystemConfig.data sc' agent =
      Ok (SystemConfig.mkData os sid (SystemConfig.count d + 1)) ∧
    SystemConfig.idx sc' = SystemConfig.idx sc ∧
    (∀ b, b ≠ agent → SystemConfig.data sc' b = SystemConfig.data sc b) ∧
    (∀ q x, h !! q = Some x → h' !! q = Some x) ∧
    h !! r = None.
Proof.
  intros Hself (Hlt & Hinj & _ & Hsids & Hcnt & Hrows & _) [i Hi] Hos.
  pose proof (Hlt _ _ Hi) as Hi_lt. simpl in Hi_lt.
  destruct (lookup_lt_is_Some_2 (SystemConfig.cs sc) i Hi_lt) as [row Hrow].
  destruct (lookup_lt_is_Some_2 (SystemConfig.sids sc) i) as [s0 Hs0]; [lia|].
  destruct (lookup_lt_is_Some_2 (SystemConfig.cnt sc) i) as [c Hc]; [lia|].
  assert (length os = length row) as Hlen.
  { rewrite Hos. symmetry. by eapply width_lookup. }
  set (sc' := SystemConfig.mk (SystemConfig.idx sc)
                (<[i:=os]> (SystemConfig.cs sc))
                (<[i:=sid]> (SystemConfig.sids sc))
                (<[i:=c + 1]> (SystemConfig.cnt sc))).
  exists (h ++ [sc']), (length h), sc', (SystemConfig.mkData row s0 c).
  split_and!.
  - unfold SystemConfig.update, deref. rewrite Hself. simpl. rewrite Hi. simpl.
    rewrite (set_row_same_width _ _ _ _ Hrow Hlen). simpl.
    unfold list_set. rewrite !decide_True by lia. simpl. rewrite Hc. simpl.
    rewrite decide_True by lia. done.
  - by rewrite list_lookup_middle.
  - unfold SystemConfig.data. rewrite Hi. simpl. rewrite Hrow, Hs0, Hc. done.
  - unfold SystemConfig.data. simpl. rewrite Hi. simpl.
    rewrite !list_lookup_insert_eq by lia. done.
  - done.
  - intros b Hb. unfold SystemConfig.data. simpl.
    destruct (SystemConfig.idx sc !! b) as [j|] eqn:Hj; simpl; [|done].
    assert (i ≠ j) by (intros ->; apply Hb; eauto using idx_inj).
    by rewrite !list_lookup_insert_ne.
  - intros q x Hq. by apply lookup_app_l_Some.
  - by apply lookup_ge_None_2.
Qed.

Lemma SystemConfig_update_frame_witness :
  ∃ h' r sc' d,
    @SystemConfig.update Z_numeric [Sample.sc_ab] 0%nat "b" [7; 8] 3 = Ok (h', r) ∧
    h' !! r = Some sc' ∧
    SystemConfig.data Sample.sc_ab "b" = Ok d ∧
    SystemConfig.data sc' "b" =
      Ok (@SystemConfig.mkData Z_numeric [7; 8] 3 (SystemConfig.count d + 1)) ∧
    SystemConfig.idx sc' = SystemConfig.idx Sample.sc_ab ∧
    (∀ b, b ≠ "b" → SystemConfig.data sc' b = SystemConfig.data Sample.sc_ab b) ∧
    (∀ q x, [Sample.sc_ab] !! q = Some x → h' !! q = Some x) ∧
    [Sample.sc_ab] !! r = None.
Proof.
  apply (@SystemConfig_update_frame Z_numeric [Sample.sc_ab] 0%nat Sample.sc_ab
           "b" [7; 8] 3).
  - reflexivity.
  - apply (bool_decide_unpack _). vm_compute. exact I.
  - exists 1%nat. vm_compute. reflexivity.
  - reflexivity.
Defined.

(** ** Strings *)

Lemma String_compare_refl (s : string) : String.compare s s = Eq.
Proof.
  pose proof (String.compare_antisym s s) as Hs.
  destruct (String.compare s s); simpl in Hs; congruence.
Qed.

Lemma String_ltb_irrefl (s : string) : String.ltb s s = false.
Proof. unfold String.ltb. by rewrite String_compare_refl. Qed.

Lemma String_ltb_neq (a b : string) : String.ltb a b = true → a ≠ b.
Proof. intros Hlt ->. by rewrite String_ltb_irrefl in Hlt. Qed.

Lemma Ascii_compare_Lt_trans (a b c : ascii) :
  Ascii.compare a b = Lt → Ascii.compare b c = Lt → Ascii.compare a c = Lt.
Proof.
  unfold Ascii.compare. rewrite !N.compare_lt_iff. apply N.lt_trans.
Qed.

Lemma String_compare_Lt_trans (a b c : string) :
  String.compare a b = Lt → String.compare b c = Lt → String.compare a c = Lt.
Proof.
  revert b c. induction a as [|x a IH]; intros [|y b] [|z c]; simpl; try done.
  destruct (Ascii.compare x y) eqn:Hxy; try done;
    destruct (Ascii.compare y z) eqn:Hyz; try done; intros Hab Hbc.
  - apply Ascii.compare_eq_iff in Hxy, Hyz. subst.
    rewrite (proj2 (N.compare_eq_iff _ _) eq_refl : Ascii.compare z z = Eq).
    by eapply IH.
  - apply Ascii.compare_eq_iff in Hxy. subst. by rewrite Hyz.
  - apply Ascii.compare_eq_iff in Hyz. subst. by rewrite Hxy.
  - by rewrite (Ascii_compare_Lt_trans x y z).
Qed.

Lemma String_ltb_trans (a b c : string) :
  String.ltb a b = true → String.ltb b c = true → String.ltb a c = true.
Proof.
  unfold String.ltb. intros Hab Hbc.
  destruct (String.compare a b) eqn:Hab'; try done.
  destruct (String.compare b c) eqn:Hbc'; try done.
  by rewrite (String_compare_Lt_trans a b c).
Qed.

Lemma String_leb_ltb (a b : string) :
  String.leb a b = true ↔ String.ltb a b = true ∨ a = b.
Proof.
  unfold String.leb, String.ltb.
  destruct (String.compare a b) eqn:Hc; split; try done; auto.
  - intros _. right. by apply String.compare_eq_iff.
  - intros [?| ->]; [done|]. by rewrite String_compare_refl in Hc.
Qed.

Lemma String_ltb_total (a b : string) :
  String.ltb a b = true ∨ a = b ∨ String.ltb b a = true.
Proof.
  unfold String.ltb. rewrite (String.compare_antisym b a).
  destruct (String.compare a b) eqn:Hc; simpl; auto.
  right; left. by apply String.compare_eq_iff.
Qed.

Lemma String_ltb_asym (a b : string) :
  String.ltb a b = true → String.ltb b a = false.
Proof.
  unfold String.ltb. rewrite (String.compare_antisym b a).
  by destruct (String.compare a b).
Qed.

(** ** Equality of arrays and objects *)

Section equality.
Context {N : Numeric} {NL : NumericLaws N}.

Lemma row_equal_refl (r : list num) : row_equal r r = true.
Proof. induction r; simpl; [done|]. by rewrite num_eqb_refl. Qed.

Lemma array_equal_refl (a : list (list num)) : array_equal a a = true.
Proof. induction a; simpl; [done|]. by rewrite row_equal_refl. Qed.

Lemma SystemConfig_eqb_refl (x : SystemConfig.t) : SystemConfig.eqb x x = true.
Proof.
  unfold SystemConfig.eqb. rewrite !bool_decide_eq_true_2 by done.
  by rewrite array_equal_refl.
Qed.

Lemma perf_eqb_refl (p : option num) : Candidate.perf_eqb p p = true.
Proof. destruct p; simpl; [apply num_eqb_refl | done]. Qed.

Lemma Candidate_eqb_refl (x : Candidate.t) : Candidate.eqb x x = true.
Proof.
  unfold Candidate.eqb. rewrite !bool_decide_eq_true_2 by done.
  by rewrite perf_eqb_refl, array_equal_refl.
Qed.

Lemma perf_gt_not_eqb (p q : option num) :
  Candidate.perf_gt p q = Ok true → Candidate.perf_eqb p q = false.
Proof.
  destruct p as [x|], q as [y|]; simpl; try done.
  intros [= Hlt]. rewrite num_eqb_sym. by apply num_ltb_neq.
Qed.

Lemma perf_eqb_not_gt (p q : option num) :
  Candidate.perf_eqb p q = true → is_Some p →
  Candidate.perf_gt q p = Ok false.
Proof.
  destruct p as [x|], q as [y|]; simpl; try done.
  intros Heq _. f_equal. destruct (num_ltb x y) eqn:Hlt; [|done].
  apply num_ltb_neq in Hlt. congruence.
Qed.
End equality.

Lemma Candidate_eqb_true `{Numeric} (x y : Candidate.t) :
  Candidate.eqb x y = true ↔
    Candidate.agent x = Candidate.agent y ∧
    Candidate.idx x = Candidate.idx y ∧
    Candidate.sids x = Candidate.sids y ∧
    Candidate.perf_eqb (Candidate.perf x) (Candidate.perf y) = true ∧
    array_equal (Candidate.cs x) (Candidate.cs y) = true.
Proof.
  unfold Candidate.eqb. rewrite !andb_true_iff, !bool_decide_eq_true. tauto.
Qed.

Lemma SystemConfig_eqb_true `{Numeric} (x y : SystemConfig.t) :
  SystemConfig.eqb x y = true ↔
    SystemConfig.idx x = SystemConfig.idx y ∧
    SystemConfig.sids x = SystemConfig.sids y ∧
    SystemConfig.cnt x = SystemConfig.cnt y ∧
    array_equal (SystemConfig.cs x) (SystemConfig.cs y) = true.
Proof.
  unfold SystemConfig.eqb. rewrite !andb_true_iff, !bool_decide_eq_true. tauto.
Qed.

(** ** Sorted key lists *)

Lemma elem_of_sorted (l : list string) (a : string) : a ∈ sorted l ↔ a ∈ l.
Proof. unfold sorted. by rewrite merge_sort_Permutation. Qed.

Lemma NoDup_sorted (l : list string) : NoDup l → NoDup (sorted l).
Proof. unfold sorted. by rewrite merge_sort_Permutation. Qed.

Lemma elem_of_sorted_elements (S : gset string) (a : string) :
  a ∈ sorted (elements S) ↔ a ∈ S.
Proof. by rewrite elem_of_sorted, elem_of_elements. Qed.

Lemma list_to_set_sorted_elements (S : gset string) :
  list_to_set (sorted (elements S)) = S.
Proof.
  apply set_eq. intros a.
  by rewrite elem_of_list_to_set, elem_of_sorted_elements.
Qed.

Lemma NoDup_sorted_elements (S : gset string) : NoDup (sorted (elements S)).
Proof. apply NoDup_sorted, NoDup_elements. Qed.

Lemma difference_empty_union (X Y : gset string) : Y ∖ X = ∅ → X = X ∪ Y.
Proof.
  intros Hnone. apply set_eq. intros a. rewrite elem_of_union.
  split; [auto|]. intros [?|Ha]; [done|].
  destruct (decide (a ∈ X)) as [|Hn]; [done|].
  assert (a ∈ Y ∖ X) as Hd by (by apply elem_of_difference).
  rewrite Hnone in Hd. by apply elem_of_empty in Hd.
Qed.

(** ** [Candidate.merge] *)

Section candidate_merge.
Context {N : Numeric}.

Lemma Candidate_data_Ok (c : Candidate.t) (a : string) :
  Candidate.wf c → a ∈ dom (Candidate.idx c) →
  ∃ d, Candidate.data c a = Ok d.
Proof.
  intros (Hlt & Hsids & _) [i Hi]%elem_of_dom.
  pose proof (Hlt _ _ Hi) as Hi_lt. simpl in Hi_lt.
  destruct (lookup_lt_is_Some_2 (Candidate.cs c) i Hi_lt) as [row Hrow].
  destruct (lookup_lt_is_Some_2 (Candidate.sids c) i) as [s0 Hs0]; [lia|].
  exists (Candidate.mkData row s0).
  unfold Candidate.data. rewrite Hi. simpl. by rewrite Hrow, Hs0.
Qed.

Lemma Candidate_data_Err (c : Candidate.t) (a : string) (e : exn) :
  Candidate.data c a = Err e → e = KeyError ∨ e = IndexError.
Proof.
  unfold Candidate.data.
  destruct (Candidate.idx c !! a) as [i|]; simpl; [|intros [= <-]; by left].
  destruct (Candidate.cs c !! i); simpl; [|intros [= <-]; by right].
  destruct (Candidate.sids c !! i); simpl; [done|intros [= <-]; by right].
Qed.

Lemma Candidate_merge_step_Ok (ci cj : Candidate.t) (i : nat) (a : string)
    (st st' : Candidate.locals) :
  Candidate.merge_step ci cj i a st = Ok st' →
  ∃ d, st' = Candidate.mkLocals (<[a:=i]> (Candidate.idx_map st))
               (Candidate.cs_buf st ++ [Candidate.os d])
               (Candidate.sids_buf st ++ [Candidate.sid d]).
Proof.
  unfold Candidate.merge_step. intros Hst. inv_ok. eauto.
Qed.

Lemma Candidate_merge_loop_Ok (ci cj : Candidate.t) (keys : list string)
    (i : nat) (st st' : Candidate.locals) :
  Candidate.merge_loop ci cj keys i st = Ok st' →
  length (Candidate.cs_buf st) = i →
  length (Candidate.sids_buf st) = i →
  map_Forall (λ _ j, (j < i)%nat) (Candidate.idx_map st) →
  length (Candidate.cs_buf st') = (i + length keys)%nat ∧
  length (Candidate.sids_buf st') = (i + length keys)%nat ∧
  map_Forall (λ _ j, (j < i + length keys)%nat) (Candidate.idx_map st') ∧
  dom (Candidate.idx_map st') = dom (Candidate.idx_map st) ∪ list_to_set keys.
Proof.
  revert i st. induction keys as [|a keys IH]; intros i st Hloop Hcs Hsids Hidx.
  - simpl in *. inv_ok. subst st'. rewrite Nat.add_0_r.
    split_and!; [done..|set_solver].
  - simpl in Hloop. apply bind_Ok in Hloop as (st1 & Hstep & Hloop).
    apply Candidate_merge_step_Ok in Hstep as (d & ->).
    apply IH in Hloop as (Hcs' & Hsids' & Hidx' & Hdom); simpl.
    + split_and!; [simpl; lia..| |].
      * eapply map_Forall_impl; [exact Hidx'|]. simpl. intros; lia.
      * rewrite Hdom. simpl. rewrite dom_insert_L. set_solver.
    + rewrite length_app. simpl. lia.
    + rewrite length_app. simpl. lia.
    + apply map_Forall_insert_2; [lia|].
      eapply map_Forall_impl; [exact Hidx|]. simpl. intros; lia.
Qed.

Lemma Candidate_merge_loop_Err (ci cj : Candidate.t) (keys : list string)
    (i : nat) (st : Candidate.locals) (e : exn) :
  Candidate.merge_loop ci cj keys i st = Err e → e = KeyError ∨ e = IndexError.
Proof.
  revert i st. induction keys as [|a keys IH]; intros i st; simpl; [done|].
  destruct (Candidate.merge_step ci cj i a st) as [st1|e1] eqn:Hstep; simpl.
  - apply IH.
  - intros [= <-]. unfold Candidate.merge_step in Hstep.
    case_decide;
      match type of Hstep with
      | context [Candidate.data ?c a] =>
          destruct (Candidate.data c a) eqn:Hd; simpl in Hstep; [done|];
          injection Hstep as <-; by eapply Candidate_data_Err
      end.
Qed.

Lemma Candidate_merge_loop_total (ci cj : Candidate.t) (keys : list string)
    (i : nat) (st : Candidate.locals) :
  Candidate.wf ci → Candidate.wf cj →
  (∀ a, a ∈ keys → a ∈ dom (Candidate.idx ci) ∪ dom (Candidate.idx cj)) →
  ∃ st', Candidate.merge_loop ci cj keys i st = Ok st'.
Proof.
  intros Hi Hj. revert i st.
  induction keys as [|a keys IH]; intros i st Hkeys; simpl; [eauto|].
  assert (∃ st1, Candidate.merge_step ci cj i a st = Ok st1) as [st1 ->].
  { unfold Candidate.merge_step. case_decide as Ha.
    - destruct (Candidate_data_Ok ci a Hi Ha) as [d ->]. simpl. eauto.
    - assert (a ∈ dom (Candidate.idx cj)) as Ha'.
      { specialize (Hkeys a). set_solver. }
      destruct (Candidate_data_Ok cj a Hj Ha') as [d ->]. simpl. eauto. }
  simpl. apply IH. intros b Hb. apply Hkeys. set_solver.
Qed.
End candidate_merge.

Lemma Candidate_merge_cases {N : Numeric} {NL : NumericLaws N}
    (h : heap Candidate.t) (i j : ref) (me : string)
    (f : list (list num) → num) (ci cj : Candidate.t) :
  h !! i = Some ci → h !! j = Some cj →
  Candidate_merge_outcome h i j me f ci cj (Candidate.merge h i j me f).
Proof.
  intros Hi Hj. unfold Candidate_merge_outcome, Candidate.merge, Candidate.merge_with, deref.
  rewrite Hi, Hj. simpl.
  pose proof (Candidate_eqb_refl ci) as Hrefl.
  destruct (decide (dom (Candidate.idx ci) ⊂ dom (Candidate.idx cj)))
    as [Hsub|Hnsub].
  { (* candidate_j has more agents *)
    simpl. unfold deref. rewrite Hj. simpl.
    assert (Candidate.eqb cj ci = false) as ->.
    { apply not_true_is_false. intros [_ [Heq _]]%Candidate_eqb_true.
      rewrite Heq in Hsub. by destruct Hsub. }
    assert (j ≠ i) as Hne.
    { intros ->. assert (ci = cj) as -> by congruence. by destruct Hsub. }
    rewrite bool_decide_eq_false_2 by done. simpl. auto. }
  destruct (decide (dom (Candidate.idx ci) = dom (Candidate.idx cj)))
    as [Heq|Hneq].
  { (* the same agents: compare the performances, then the names *)
    destruct (Candidate.perf cj) as [q|] eqn:Hq; simpl; [|by left; auto].
    destruct (Candidate.perf ci) as [p|] eqn:Hp; simpl; [|by left; auto].
    destruct (num_ltb p q) eqn:Hlt; simpl.
    - unfold deref. rewrite Hj. simpl.
      assert (Candidate.eqb cj ci = false) as ->.
      { apply not_true_is_false. intros (_ & _ & _ & Hperf & _)%Candidate_eqb_true.
        rewrite Hq, Hp in Hperf. simpl in Hperf.
        apply num_ltb_neq in Hlt. rewrite num_eqb_sym in Hlt. congruence. }
      assert (j ≠ i) as Hne.
      { intros ->. assert (p = q) as -> by congruence.
        apply num_ltb_neq in Hlt. by rewrite num_eqb_refl in Hlt. }
      rewrite bool_decide_eq_false_2 by done. simpl.
      right; left. split_and!; [done..|]. exists p, q. split_and!; [done..|].
      by repeat (match goal with Hb : ?b = _ |- context [?b] => rewrite Hb end; simpl).
    - destruct (num_eqb q p) eqn:Heqb; simpl.
      + destruct (String.ltb (Candidate.agent cj) (Candidate.agent ci)) eqn:Hag;
          simpl; unfold deref.
        * rewrite Hj. simpl.
          assert (Candidate.eqb cj ci = false) as ->.
          { apply not_true_is_false. intros [Hag' _]%Candidate_eqb_true.
            by apply String_ltb_neq in Hag. }
          assert (j ≠ i) as Hne.
          { intros ->. assert (ci = cj) as -> by congruence.
            by rewrite String_ltb_irrefl in Hag. }
          rewrite bool_decide_eq_false_2 by done. simpl.
          right; left. split_and!; [done..|]. exists p, q. split_and!; [done..|].
      by repeat (match goal with Hb : ?b = _ |- context [?b] => rewrite Hb end; simpl).
        * rewrite Hi. simpl. rewrite Hrefl, bool_decide_eq_true_2 by done.
          simpl. right; left. split_and!; [done..|]. exists p, q. split_and!; [done..|].
      by repeat (match goal with Hb : ?b = _ |- context [?b] => rewrite Hb end; simpl).
      + unfold deref. rewrite Hi. simpl.
        rewrite Hrefl, bool_decide_eq_true_2 by done. simpl.
        right; left. split_and!; [done..|]. exists p, q. split_and!; [done..|].
      by repeat (match goal with Hb : ?b = _ |- context [?b] => rewrite Hb end; simpl). }
  destruct (decide (dom (Candidate.idx cj) ∖ dom (Candidate.idx ci) ≠ ∅))
    as [Hnew|Hnone].
  { (* candidate_j knows agents that candidate_i does not: build anew *)
    destruct (Candidate.merge_loop ci cj _ 0 Candidate.locals0)
      as [st|e] eqn:Hloop; simpl; [|by right].
    unfold deref. rewrite list_lookup_middle by done. simpl.
    pose proof Hloop as Hloop'.
    apply Candidate_merge_loop_Ok in Hloop' as (_ & _ & _ & Hdom);
      [|done..|apply map_Forall_empty].
    simpl in Hdom. rewrite dom_empty_L, (left_id_L ∅ (∪)) in Hdom.
    rewrite list_to_set_sorted_elements in Hdom.
    match goal with |- context [Candidate.eqb ?z ci] =>
      assert (Candidate.eqb z ci = false) as ->
    end.
    { apply not_true_is_false. intros [_ [Heq _]]%Candidate_eqb_true.
      simpl in Heq. rewrite Heq in Hdom. set_solver. }
    assert (length h ≠ i) as Hne.
    { apply lookup_lt_Some in Hi. lia. }
    rewrite bool_decide_eq_false_2 by done. simpl.
    right; right; left. split_and!; [done..|]. by exists st. }
  (* candidate_i stays *)
  simpl. unfold deref. rewrite Hi. simpl.
  rewrite Hrefl, bool_decide_eq_true_2 by done. simpl.
  right; right; right. split_and!; [done..| |done|done].
  by apply dec_stable.
Qed.

Section candidate_merge_results.
Context {N : Numeric} {NL : NumericLaws N}.

(** On well-formed candidates [merge] returns. *)
Lemma Candidate_merge_total (h : heap Candidate.t) (i j : ref) (me : string)
    (f : list (list num) → num) (ci cj : Candidate.t) :
  h !! i = Some ci → h !! j = Some cj →
  Candidate.wf ci → Candidate.wf cj →
  ∃ h' r, Candidate.merge h i j me f = Ok (h', r).
Proof.
  intros Hi Hj Hwi Hwj.
  pose proof (Candidate_merge_cases h i j me f ci cj Hi Hj) as Hout.
  destruct (Candidate.merge h i j me f) as [[h' r]|e]; [eauto|].
  exfalso. destruct Hout as [(_ & _ & [Hp|Hp])|[_ Hloop]].
  - destruct Hwi as (_ & _ & [? ?]). congruence.
  - destruct Hwj as (_ & _ & [? ?]). congruence.
  - destruct (Candidate_merge_loop_total ci cj
                (sorted (elements (dom (Candidate.idx ci) ∪
                                   dom (Candidate.idx cj))))
                0 Candidate.locals0 Hwi Hwj) as [st Hst]; [|congruence].
    intros a. by rewrite elem_of_sorted_elements.
Qed.

(** What [merge] returns: an object over the union of the two key sets,
    well-formed if the arguments are, which is one of the arguments or a
    new object; the heap only grows. *)
Lemma Candidate_merge_Ok (h h' : heap Candidate.t) (i j r : ref) (me : string)
    (f : list (list num) → num) (ci cj : Candidate.t) :
  h !! i = Some ci → h !! j = Some cj →
  Candidate.merge h i j me f = Ok (h', r) →
  ∃ z, h' !! r = Some z ∧
    dom (Candidate.idx z) = dom (Candidate.idx ci) ∪ dom (Candidate.idx cj) ∧
    (Candidate.wf ci → Candidate.wf cj → Candidate.wf z) ∧
    (∀ q x, h !! q = Some x → h' !! q = Some x) ∧
    (r = i ∨ r = j ∨ h !! r = None).
Proof.
  intros Hi Hj Hm.
  pose proof (Candidate_merge_cases h i j me f ci cj Hi Hj) as Hout.
  rewrite Hm in Hout.
  destruct Hout as [(Hsub & -> & ->)|[(Heq & -> & p & q & _ & _ & Hr)|
                   [(_ & _ & Hnew & st & Hloop & -> & ->)|
                    (_ & _ & Hnone & -> & ->)]]].
  - exists cj. split_and!; [done| |done|done|auto].
    destruct Hsub as [Hsub _]. set_solver.
  - assert (r = i ∨ r = j) as [-> | ->].
    { rewrite Hr. destruct (num_ltb p q); [auto|]. destruct (_ && _); auto. }
    + exists ci. split_and!; [done| |done|done|auto]. set_solver.
    + exists cj. split_and!; [done| |done|done|auto]. set_solver.
  - eexists. split_and!.
    + by rewrite list_lookup_middle.
    + simpl.
      apply Candidate_merge_loop_Ok in Hloop as (_ & _ & _ & Hdom);
        [|done..|apply map_Forall_empty].
      simpl in Hdom. rewrite dom_empty_L, (left_id_L ∅ (∪)) in Hdom.
      by rewrite list_to_set_sorted_elements in Hdom.
    + intros _ _.
      apply Candidate_merge_loop_Ok in Hloop as (Hcs & Hsids & Hidx & _);
        [|done..|apply map_Forall_empty].
      split_and!; simpl.
      * eapply map_Forall_impl; [exact Hidx|]. simpl. intros; lia.
      * lia.
      * eauto.
    + intros q x Hq. by apply lookup_app_l_Some.
    + right; right. by apply lookup_ge_None_2.
  - exists ci. split_and!; [done| |done|done|auto].
    by apply difference_empty_union.
Qed.

(** The reduction of a list of candidates by [merge]. *)
Lemma Candidate_reduce_from (me : string) (f : list (list num) → num)
    (l : list ref) (h : heap Candidate.t) (acc : ref) (c0 : Candidate.t) :
  h !! acc = Some c0 → Candidate.wf c0 →
  Forall (λ q, ∃ c, h !! q = Some c ∧ Candidate.wf c) l →
  ∃ h' r z,
    ObserverAgent.reduce_from (λ h ci cj, Candidate.merge h ci cj me f)
      h acc l = Ok (h', r) ∧
    h' !! r = Some z ∧ Candidate.wf z ∧
    (∀ q x, h !! q = Some x → h' !! q = Some x) ∧
    ∀ a, a ∈ dom (Candidate.idx z) ↔
      a ∈ dom (Candidate.idx c0) ∨
      ∃ q c, q ∈ l ∧ h !! q = Some c ∧ a ∈ dom (Candidate.idx c).
Proof.
  revert h acc c0. induction l as [|q l IH]; intros h acc c0 Hacc Hw0 Hall.
  - exists h, acc, c0. split_and!; [done..|].
    intros a. split; [auto|]. intros [?|(q & c & Hq & _)]; [done|].
    by apply elem_of_nil in Hq.
  - apply Forall_cons in Hall as [(c & Hq & Hwc) Hall].
    destruct (Candidate_merge_total h acc q me f c0 c Hacc Hq Hw0 Hwc)
      as (h1 & r1 & Hm).
    destruct (Candidate_merge_Ok h h1 acc q r1 me f c0 c Hacc Hq Hm)
      as (z1 & Hz1 & Hdom1 & Hwf1 & Hmono1 & _).
    destruct (IH h1 r1 z1 Hz1 (Hwf1 Hw0 Hwc)) as (h' & r & z & Hred & Hz & Hwz & Hmono & Hdom).
    { eapply Forall_impl; [exact Hall|]. simpl. intros q' (c' & Hq' & Hw').
      exists c'. eauto. }
    exists h', r, z. split_and!; [|done|done|eauto|].
    + simpl. rewrite Hm. simpl. exact Hred.
    + intros a. rewrite Hdom, Hdom1. split.
      * intros [[Ha|Ha]%elem_of_union|(q' & c' & Hq' & Hc' & Ha)].
        -- by left.
        -- right. exists q, c. split_and!; [by left|done..].
        -- right. exists q', c'. split_and!; [by right| |done].
           rewrite Forall_forall in Hall.
           destruct (Hall q' Hq') as (c'' & Hc'' & _).
           pose proof (Hmono1 _ _ Hc''). congruence.
      * intros [Ha|(q' & c' & Hq' & Hc' & Ha)].
        -- left. set_solver.
        -- apply elem_of_cons in Hq' as [->|Hq'].
           ++ left. assert (c' = c) as -> by congruence. set_solver.
           ++ right. exists q', c'. eauto.
Qed.
End candidate_merge_results.

(** The integers are a numeric type with the order laws. *)
Lemma Z_numeric_laws : NumericLaws Z_numeric.
Proof.
  split; simpl.
  - apply Z.eqb_refl.
  - apply Z.eqb_sym.
  - intros x y Hlt. apply Z.ltb_lt in Hlt. apply Z.eqb_neq. lia.
Qed.

(** C7. When two candidates cover the same agents and perform equally,
    [Candidate.merge] returns the one whose author name is the smaller, and
    [candidate_i] when the names are equal: the author of the result is
    [min(c_i.agent, c_j.agent)]. *)
Theorem Candidate_merge_tie_break {N : Numeric} {NL : NumericLaws N}
    (h : heap Candidate.t) (i j : ref) (me : string)
    (f : list (list num) → num) (ci cj : Candidate.t) (p q : num) :
  h !! i = Some ci → h !! j = Some cj →
  dom (Candidate.idx ci) = dom (Candidate.idx cj) →
  Candidate.perf ci = Some p → Candidate.perf cj = Some q →
  num_eqb p q = true →
  ∃ r z,
    Candidate.merge h i j me f = Ok (h, r) ∧
    h !! r = Some z ∧
    r = (if String.ltb (Candidate.agent cj) (Candidate.agent ci)
         then j else i) ∧
    Candidate.agent z = str_min (Candidate.agent ci) (Candidate.agent cj) ∧
    (Candidate.agent ci = Candidate.agent cj → r = i).
Proof.
  intros Hi Hj Hkeys Hp Hq Hpq.
  pose proof (Candidate_merge_cases h i j me f ci cj Hi Hj) as Hout.
  destruct (Candidate.merge h i j me f) as [[h' r]|e]; simpl in Hout.
  - destruct Hout as [(Hsub & _)|[(_ & -> & p' & q' & Hp' & Hq' & Hr)|
                     [(_ & Hne & _)|(_ & Hne & _)]]]; try done.
    { rewrite Hkeys in Hsub. by destruct Hsub. }
    assert (p' = p) as -> by congruence.
    assert (q' = q) as -> by congruence.
    assert (num_ltb p q = false) as Hlt.
    { destruct (num_ltb p q) eqn:Hlt; [|done].
      apply num_ltb_neq in Hlt. congruence. }
    rewrite Hlt, num_eqb_sym, Hpq in Hr. simpl in Hr.
    unfold str_min.
    destruct (String.ltb (Candidate.agent cj) (Candidate.agent ci)) eqn:Hag;
      subst r.
    + exists j, cj. split_and!; [done..|].
      intros Heq. rewrite Heq, String_ltb_irrefl in Hag. done.
    + exists i, ci. by split_and!.
  - exfalso. destruct Hout as [(_ & _ & [Hnone|Hnone])|[Hnew _]].
    + congruence.
    + congruence.
    + apply Hnew. rewrite Hkeys. set_solver.
Qed.

Lemma Candidate_merge_tie_break_witness :
  ∃ r z,
    @Candidate.merge Z_numeric [Sample.cand_a; Sample.cand_b] 1%nat 0%nat
      "b" Sample.perf_sum = Ok ([Sample.cand_a; Sample.cand_b], r) ∧
    [Sample.cand_a; Sample.cand_b] !! r = Some z ∧
    r = (if String.ltb (Candidate.agent Sample.cand_a)
              (Candidate.agent Sample.cand_b)
         then 0%nat else 1%nat) ∧
    Candidate.agent z =
      str_min (Candidate.agent Sample.cand_b) (Candidate.agent Sample.cand_a) ∧
    (Candidate.agent Sample.cand_b = Candidate.agent Sample.cand_a → r = 1%nat).
Proof.
  apply (@Candidate_merge_tie_break Z_numeric Z_numeric_laws
           [Sample.cand_a; Sample.cand_b] 1%nat 0%nat "b" Sample.perf_sum
           Sample.cand_b Sample.cand_a (-3) (-3)).
  - reflexivity.
  - reflexivity.
  - vm_compute. reflexivity.
  - reflexivity.
  - reflexivity.
  - reflexivity.
Defined.

(** C9. [Candidate.merge] of two well-formed candidates returns a candidate
    whose key set is the union of the two key sets, whichever branch is
    taken; hence the left-to-right reduction of a list of candidates by
    [merge] covers exactly the agents of the candidates of the list. *)
Theorem Candidate_merge_keys {N : Numeric} {NL : NumericLaws N}
    (h : heap Candidate.t) (me : string) (f : list (list num) → num) :
  (∀ i j ci cj,
     h !! i = Some ci → h !! j = Some cj →
     Candidate.wf ci → Candidate.wf cj →
     ∃ h' r z,
       Candidate.merge h i j me f = Ok (h', r) ∧
       h' !! r = Some z ∧
       dom (Candidate.idx z) =
         dom (Candidate.idx ci) ∪ dom (Candidate.idx cj)) ∧
  (∀ l,
     l ≠ [] →
     Forall (λ q, ∃ c, h !! q = Some c ∧ Candidate.wf c) l →
     ∃ h' r z,
       ObserverAgent.reduce (λ h ci cj, Candidate.merge h ci cj me f) h l
         = Ok (h', r) ∧
       h' !! r = Some z ∧
       ∀ a, a ∈ dom (Candidate.idx z) ↔
         ∃ q c, q ∈ l ∧ h !! q = Some c ∧ a ∈ dom (Candidate.idx c)).
Proof.
  split.
  - intros i j ci cj Hi Hj Hwi Hwj.
    destruct (Candidate_merge_total h i j me f ci cj Hi Hj Hwi Hwj)
      as (h' & r & Hm).
    destruct (Candidate_merge_Ok h h' i j r me f ci cj Hi Hj Hm)
      as (z & Hz & Hdom & _).
    by exists h', r, z.
  - intros [|q0 l] Hne Hall; [done|].
    apply Forall_cons in Hall as [(c0 & Hq0 & Hw0) Hall].
    destruct (Candidate_reduce_from me f l h q0 c0 Hq0 Hw0 Hall)
      as (h' & r & z & Hred & Hz & _ & _ & Hdom).
    exists h', r, z. split_and!; [done..|].
    intros a. rewrite Hdom. split.
    + intros [Ha|(q & c & Hq & Hc & Ha)].
      * exists q0, c0. split_and!; [by left|done..].
      * exists q, c. split_and!; [by right|done..].
    + intros (q & c & [->|Hq]%elem_of_cons & Hc & Ha).
      * left. congruence.
      * right. by exists q, c.
Qed.

Lemma Candidate_merge_keys_witness :
  let h := [Sample.cand_a; Sample.cand_c] in
  (∃ h' r z,
     @Candidate.merge Z_numeric h 0%nat 1%nat "b" Sample.perf_sum
       = Ok (h', r) ∧
     h' !! r = Some z ∧
     dom (Candidate.idx z) =
       dom (Candidate.idx Sample.cand_a) ∪ dom (Candidate.idx Sample.cand_c)) ∧
  (∃ h' r z,
     @ObserverAgent.reduce Z_numeric
       (λ h ci cj, Candidate.merge h ci cj "b" Sample.perf_sum) h
       [0%nat; 1%nat] = Ok (h', r) ∧
     h' !! r = Some z ∧
     ∀ a, a ∈ dom (Candidate.idx z) ↔
       ∃ q c, q ∈ [0%nat; 1%nat] ∧ h !! q = Some c ∧
              a ∈ dom (Candidate.idx c)).
Proof.
  intros h.
  pose proof (@Candidate_merge_keys Z_numeric Z_numeric_laws h "b"
                Sample.perf_sum) as [Hmerge Hreduce].
  split.
  - apply Hmerge.
    + reflexivity.
    + reflexivity.
    + apply (bool_decide_unpack _). vm_compute. exact I.
    + apply (bool_decide_unpack _). vm_compute. exact I.
  - apply Hreduce.
    + discriminate.
    + repeat constructor.
      * exists Sample.cand_a. split; [reflexivity|].
        apply (bool_decide_unpack _). vm_compute. exact I.
      * exists Sample.cand_c. split; [reflexivity|].
        apply (bool_decide_unpack _). vm_compute. exact I.
Defined.

(** ** [Candidate.update] *)

(** C10. For a candidate [c] that holds a row for the agent [a],
    [c.update(a, os, sid, f)] (with [os] of the row's length) returns a new
    candidate whose author is [a], whoever the author of [c] was, whose
    matrix is that of [c] with the row of [a] replaced by [os], and whose
    performance is [f] of that matrix. *)
Theorem Candidate_update_author `{Numeric} (h : heap Candidate.t) (self : ref)
    (c : Candidate.t) (a : string) (os : list num) (sid : Z)
    (f : list (list num) → num) (d : Candidate.Data) :
  h !! self = Some c →
  Candidate.data c a = Ok d →
  length os = length (Candidate.os d) →
  ∃ h' r c' i,
    Candidate.update h self a os sid f = Ok (h', r) ∧
    h' !! r = Some c' ∧
    Candidate.agent c' = a ∧
    Candidate.idx c !! a = Some i ∧
    Candidate.idx c' = Candidate.idx c ∧
    Candidate.cs c' = <[i:=os]> (Candidate.cs c) ∧
    Candidate.perf c' = Some (f (Candidate.cs c')) ∧
    Candidate.data c' a = Ok (Candidate.mkData os sid) ∧
    (∀ q x, h !! q = Some x → h' !! q = Some x) ∧
    h !! r = None.
Proof.
  intros Hself Hd Hlen. unfold Candidate.data in Hd.
  apply bind_Ok in Hd as (i & Hi%or_raise_Ok & Hd).
  apply bind_Ok in Hd as (row & Hrow%or_raise_Ok & Hd).
  apply bind_Ok in Hd as (s0 & Hs0%or_raise_Ok & Hd).
  injection Hd as <-. simpl in Hlen.
  pose proof (lookup_lt_Some _ _ _ Hrow) as Hi_cs.
  pose proof (lookup_lt_Some _ _ _ Hs0) as Hi_sids.
  set (cs' := <[i:=os]> (Candidate.cs c)).
  set (c' := Candidate.mk a (Candidate.idx c) cs'
               (<[i:=sid]> (Candidate.sids c)) (Some (f cs'))).
  exists (h ++ [c']), (length h), c', i.
  split_and!; try done.
  - unfold Candidate.update, deref. rewrite Hself. simpl. rewrite Hi. simpl.
    rewrite (set_row_same_width _ _ _ _ Hrow Hlen). simpl.
    unfold list_set. rewrite decide_True by lia. done.
  - by rewrite list_lookup_middle.
  - unfold Candidate.data. simpl. rewrite Hi. simpl. unfold cs'.
    rewrite !list_lookup_insert_eq by lia. done.
  - intros q x Hq. by apply lookup_app_l_Some.
  - by apply lookup_ge_None_2.
Qed.

Lemma Candidate_update_author_witness :
  ∃ h' r c' i,
    @Candidate.update Z_numeric [Sample.cand_a] 0%nat "b" [7; 8] 5
      Sample.perf_sum = Ok (h', r) ∧
    h' !! r = Some c' ∧
    Candidate.agent c' = "b" ∧
    Candidate.idx Sample.cand_a !! "b" = Some i ∧
    Candidate.idx c' = Candidate.idx Sample.cand_a ∧
    Candidate.cs c' = <[i:=[7; 8]]> (Candidate.cs Sample.cand_a) ∧
    Candidate.perf c' = Some (Sample.perf_sum (Candidate.cs c')) ∧
    Candidate.data c' "b" = Ok (@Candidate.mkData Z_numeric [7; 8] 5) ∧
    (∀ q x, [Sample.cand_a] !! q = Some x → h' !! q = Some x) ∧
    [Sample.cand_a] !! r = None.
Proof.
  apply (@Candidate_update_author Z_numeric [Sample.cand_a] 0%nat
           Sample.cand_a "b" [7; 8] 5 Sample.perf_sum
           (@Candidate.mkData Z_numeric [3; 4] 1)).
  - reflexivity.
  - vm_compute. reflexivity.
  - reflexivity.
Defined.

(** ** [SystemConfig.merge] *)

Section sysconf_merge.
Context {N : Numeric}.
Implicit Types (x y : SystemConfig.t) (st : SystemConfig.locals).

Lemma SystemConfig_data_dom x (a : string) (d : SystemConfig.Data) :
  SystemConfig.data x a = Ok d → a ∈ dom (SystemConfig.idx x).
Proof.
  unfold SystemConfig.data. intros Hd.
  apply bind_Ok in Hd as (i & Hi%or_raise_Ok & _).
  apply elem_of_dom. eauto.
Qed.

Lemma SystemConfig_data_cnt x (a : string) (d : SystemConfig.Data) (i : nat) :
  SystemConfig.data x a = Ok d → SystemConfig.idx x !! a = Some i →
  SystemConfig.cnt x !! i = Some (SystemConfig.count d).
Proof.
  unfold SystemConfig.data. intros Hd Hi. rewrite Hi in Hd. simpl in Hd.
  inv_ok. by subst d.
Qed.

Lemma SystemConfig_data_Ok x (a : string) :
  SystemConfig.wf x → a ∈ dom (SystemConfig.idx x) →
  ∃ d, SystemConfig.data x a = Ok d ∧ 0 ≤ SystemConfig.count d.
Proof.
  intros (Hlt & _ & _ & Hsids & Hcnt & _ & Hnn) [i Hi]%elem_of_dom.
  pose proof (Hlt _ _ Hi) as Hi_lt. simpl in Hi_lt.
  destruct (lookup_lt_is_Some_2 (SystemConfig.cs x) i Hi_lt) as [row Hrow].
  destruct (lookup_lt_is_Some_2 (SystemConfig.sids x) i) as [s0 Hs0]; [lia|].
  destruct (lookup_lt_is_Some_2 (SystemConfig.cnt x) i) as [c Hc]; [lia|].
  exists (SystemConfig.mkData row s0 c). split.
  - unfold SystemConfig.data. rewrite Hi. simpl. by rewrite Hrow, Hs0, Hc.
  - simpl. by eapply (Forall_lookup_1 _ _ _ _ Hnn Hc).
Qed.

Lemma SystemConfig_data_Err x (a : string) (e : exn) :
  SystemConfig.data x a = Err e → e = KeyError ∨ e = IndexError.
Proof.
  unfold SystemConfig.data.
  destruct (SystemConfig.idx x !! a) as [i|]; simpl; [|intros [= <-]; by left].
  destruct (SystemConfig.cs x !! i); simpl; [|intros [= <-]; by right].
  destruct (SystemConfig.sids x !! i); simpl; [|intros [= <-]; by right].
  destruct (SystemConfig.cnt x !! i); simpl; [done|intros [= <-]; by right].
Qed.

Lemma SystemConfig_merge_entry_Ok x y (a : string) st (m : bool)
    (os2 : option (list num)) (sid2 : option Z) (c2 : Z) :
  SystemConfig.merge_entry x y a st = Ok (m, os2, sid2, c2) →
  bounds x y a c2 ∧
  (SystemConfig.modified st = true → m = true) ∧
  (m = true → SystemConfig.modified st = true ∨ took_j x y a c2) ∧
  (m = false → kept_i x y a) ∧
  (a ∈ dom (SystemConfig.idx x) ∨
     (∃ dj, SystemConfig.data y a = Ok dj ∧ 0 ≤ SystemConfig.count dj) →
   is_Some os2 ∧ is_Some sid2).
Proof.
  unfold SystemConfig.merge_entry, bounds, took_j, kept_i.
  assert (∀ z d, a ∉ dom (SystemConfig.idx z) →
                 SystemConfig.data z a = Ok d → False) as Hno.
  { intros z d Hz Hd%SystemConfig_data_dom. done. }
  destruct (decide (a ∈ dom (SystemConfig.idx x))) as [Hi|Hi];
    [destruct (SystemConfig.data x a) as [di|e] eqn:Hdi; simpl; [|done]
    |simpl];
    (destruct (decide (a ∈ dom (SystemConfig.idx y))) as [Hj|Hj];
     [destruct (SystemConfig.data y a) as [dj|e'] eqn:Hdj; simpl; [|done];
      case_bool_decide as Hgt|]);
    intros [= <- <- <- <-]; split_and!.
  all: try solve [intros; simplify_eq; eauto; lia].
  all: try solve [intros ->; by left].
  all: try solve [intros d Hd; by destruct (Hno _ d ltac:(eassumption))].
  all: try solve [intros _; right; eexists; split_and!; [done..|];
                  intros _; eexists; split; [done|lia]].
  all: try solve [intros _; right; eexists; split_and!; done].
  all: try solve [intros _ _; eexists; split; [done|];
                  eexists; split; [done|lia]].
  all: try solve [intros _ _; eexists; split; [done|lia]].
  all: try solve [intros [?|(d & Hd & Hnn)]; [done|]; simplify_eq; lia].
  all: try solve [intros [?|(d & Hd%SystemConfig_data_dom & _)]; done].
  all: try solve [intros _ ?; done].
  all: try solve [intros d Hd; by destruct (Hno x d)].
Qed.

Lemma SystemConfig_merge_step_Ok x y (i : nat) (a : string) st st' :
  SystemConfig.merge_step x y i a st = Ok st' →
  ∃ os2 sid c2,
    SystemConfig.merge_entry x y a st
      = Ok (SystemConfig.modified st', os2, Some sid, c2) ∧
    st' = SystemConfig.mkLocals (SystemConfig.modified st') (Some sid)
            (<[a:=i]> (SystemConfig.idx_map st))
            (SystemConfig.cs_buf st ++ [os2])
            (SystemConfig.sids_buf st ++ [sid])
            (SystemConfig.cnt_buf st ++ [c2]).
Proof.
  unfold SystemConfig.merge_step. intros Hst.
  apply bind_Ok in Hst as ([[[m os2] sid2] c2] & Hentry & Hst).
  apply bind_Ok in Hst as (sid & ->%or_raise_Ok & [= <-]).
  exists os2, sid, c2. simpl. done.
Qed.

Lemma SystemConfig_merge_loop_Ok x y (keys : list string) (i : nat) st st' :
  SystemConfig.merge_loop x y keys i st = Ok st' →
  NoDup keys →
  length (SystemConfig.cs_buf st) = i →
  length (SystemConfig.sids_buf st) = i →
  length (SystemConfig.cnt_buf st) = i →
  length (SystemConfig.cs_buf st') = (i + length keys)%nat ∧
  length (SystemConfig.sids_buf st') = (i + length keys)%nat ∧
  length (SystemConfig.cnt_buf st') = (i + length keys)%nat ∧
  (∀ p, (p < i)%nat →
     SystemConfig.cnt_buf st' !! p = SystemConfig.cnt_buf st !! p ∧
     SystemConfig.cs_buf st' !! p = SystemConfig.cs_buf st !! p) ∧
  (∀ b, b ∉ keys →
     SystemConfig.idx_map st' !! b = SystemConfig.idx_map st !! b) ∧
  dom (SystemConfig.idx_map st')
    = dom (SystemConfig.idx_map st) ∪ list_to_set keys ∧
  (SystemConfig.modified st = true → SystemConfig.modified st' = true) ∧
  (∀ a, a ∈ keys →
     ∃ p c2, (i ≤ p < i + length keys)%nat ∧
       SystemConfig.idx_map st' !! a = Some p ∧
       SystemConfig.cnt_buf st' !! p = Some c2 ∧
       bounds x y a c2 ∧
       (a ∈ dom (SystemConfig.idx x) ∨
          (∃ dj, SystemConfig.data y a = Ok dj ∧ 0 ≤ SystemConfig.count dj) →
        ∃ row, SystemConfig.cs_buf st' !! p = Some (Some row))) ∧
  (SystemConfig.modified st' = true →
     SystemConfig.modified st = true ∨
     ∃ a p c2, a ∈ keys ∧ SystemConfig.idx_map st' !! a = Some p ∧
       SystemConfig.cnt_buf st' !! p = Some c2 ∧ took_j x y a c2) ∧
  (SystemConfig.modified st' = false → ∀ a, a ∈ keys → kept_i x y a).
Proof.
  revert i st.
  induction keys as [|a keys IH]; intros i st Hloop Hnd Hcs Hsids Hcnt.
  { simpl in Hloop. injection Hloop as <-. simpl. rewrite Nat.add_0_r.
    split_and!; try done.
    - set_solver.
    - intros a Ha. by apply elem_of_nil in Ha.
    - auto.
    - intros _ a Ha. by apply elem_of_nil in Ha. }
  simpl in Hloop. apply bind_Ok in Hloop as (st1 & Hstep & Hloop).
  apply SystemConfig_merge_step_Ok in Hstep as (os2 & sid & c2 & Hentry & Hst1).
  apply SystemConfig_merge_entry_Ok in Hentry
    as (Hbounds & Hmono & Htook & Hkept & Hsome).
  apply NoDup_cons in Hnd as [Ha Hnd].
  assert (length (SystemConfig.cs_buf st1) = S i) as Hcs1
    by (rewrite Hst1; simpl; rewrite length_app; simpl; lia).
  assert (length (SystemConfig.sids_buf st1) = S i) as Hsids1
    by (rewrite Hst1; simpl; rewrite length_app; simpl; lia).
  assert (length (SystemConfig.cnt_buf st1) = S i) as Hcnt1
    by (rewrite Hst1; simpl; rewrite length_app; simpl; lia).
  destruct (IH (S i) st1 Hloop Hnd Hcs1 Hsids1 Hcnt1)
    as (Lcs & Lsids & Lcnt & Lpre & Lidx & Ldom & Lmono & Lkeys & Ltook & Lkept).
  assert (SystemConfig.idx_map st' !! a = Some i) as Hidx_a.
  { rewrite (Lidx a Ha), Hst1. simpl. by rewrite lookup_insert_eq. }
  assert (SystemConfig.cnt_buf st' !! i = Some c2) as Hcnt_a.
  { destruct (Lpre i) as [-> _]; [lia|]. rewrite Hst1. simpl.
    by rewrite <- Hcnt, list_lookup_middle. }
  assert (SystemConfig.cs_buf st' !! i = Some os2) as Hcs_a.
  { destruct (Lpre i) as [_ ->]; [lia|]. rewrite Hst1. simpl.
    by rewrite <- Hcs, list_lookup_middle. }
  simpl. split_and!; try lia.
  - intros p Hp. destruct (Lpre p) as [-> ->]; [lia|]. rewrite Hst1. simpl.
    rewrite !lookup_app_l by lia. done.
  - intros b Hb. apply not_elem_of_cons in Hb as [Hba Hb].
    rewrite (Lidx b Hb), Hst1. simpl. by rewrite lookup_insert_ne.
  - rewrite Ldom, Hst1. simpl. rewrite dom_insert_L. set_solver.
  - auto.
  - intros b [->|Hb]%elem_of_cons.
    + exists i, c2. split_and!; [lia|lia|done..|].
      intros Hcond. destruct (Hsome Hcond) as [[row ->] _]. eauto.
    + destruct (Lkeys b Hb) as (p & c & Hp & Hrest).
      exists p, c. split; [lia|done].
  - intros Hm. destruct (Ltook Hm) as [Hm1|(b & p & c & Hb & Hrest)].
    + destruct (Htook Hm1) as [?|Hta]; [by left|].
      right. exists a, i, c2. split_and!; [by left|done..].
    + right. exists b, p, c. split; [by right|done].
  - intros Hm b [->|Hb]%elem_of_cons.
    + apply Hkept. destruct (SystemConfig.modified st1) eqn:Hm1; [|done].
      rewrite Lmono in Hm; done.
    + by apply Lkept.
Qed.

Lemma SystemConfig_merge_loop_Err x y (keys : list string) (i : nat) st
    (e : exn) :
  SystemConfig.merge_loop x y keys i st = Err e → e ≠ AssertionError.
Proof.
  revert i st. induction keys as [|a keys IH]; intros i st; simpl; [done|].
  destruct (SystemConfig.merge_step x y i a st) as [st1|e1] eqn:Hstep; simpl.
  { apply IH. }
  intros [= <-]. unfold SystemConfig.merge_step in Hstep.
  destruct (SystemConfig.merge_entry x y a st) as [[[[m os2] sid2] c2]|e2]
    eqn:Hentry; simpl in Hstep.
  { destruct sid2; simpl in Hstep; [done|]. by injection Hstep as <-. }
  injection Hstep as <-. unfold SystemConfig.merge_entry in Hentry.
  destruct (decide (a ∈ dom (SystemConfig.idx x)));
    [destruct (SystemConfig.data x a) eqn:Hdx; simpl in Hentry|simpl in Hentry];
    (try (injection Hentry as <-;
          apply SystemConfig_data_Err in Hdx as [-> | ->]; done));
    (destruct (decide (a ∈ dom (SystemConfig.idx y)));
     [destruct (SystemConfig.data y a) eqn:Hdy; simpl in Hentry|]);
    try (case_bool_decide; done); try done;
    injection Hentry as <-;
    apply SystemConfig_data_Err in Hdy as [-> | ->]; done.
Qed.
End sysconf_merge.

Section sysconf_merge_results.
Context {N : Numeric}.
Implicit Types (x y : SystemConfig.t) (st : SystemConfig.locals).

(** A configuration built after a modification differs from [sysconf_i]:
    in its index map, or in the counter of the agent that was modified. *)
Lemma SystemConfig_merge_modified_neq x y st (rows : list (list num)) :
  SystemConfig.merge_loop x y
    (sorted (elements (dom (SystemConfig.idx x) ∪ dom (SystemConfig.idx y))))
    0 SystemConfig.locals0 = Ok st →
  SystemConfig.modified st = true →
  SystemConfig.eqb
    (SystemConfig.mk (SystemConfig.idx_map st) rows (SystemConfig.sids_buf st)
       (SystemConfig.cnt_buf st)) x = false.
Proof.
  intros Hloop Hmod.
  apply SystemConfig_merge_loop_Ok in Hloop
    as (_ & _ & _ & _ & _ & _ & _ & _ & Htook & _);
    [|apply NoDup_sorted_elements|done..].
  destruct (Htook Hmod) as [?|(a & p & c2 & _ & Hp & Hc2 & dj & Hdj & -> & Hlt)];
    [done|].
  apply not_true_is_false.
  intros (Hidx & _ & Hcnt & _)%SystemConfig_eqb_true. simpl in Hidx, Hcnt.
  rewrite Hidx in Hp. rewrite Hcnt in Hc2.
  destruct Hlt as (di & Hdi & Hlt); [apply elem_of_dom; eauto|].
  pose proof (SystemConfig_data_cnt x a di p Hdi Hp) as Hc.
  rewrite Hc in Hc2. injection Hc2 as Hc2. lia.
Qed.

Lemma SystemConfig_merge_cases {NL : NumericLaws N} (h : heap SystemConfig.t)
    (i j : ref) x y :
  h !! i = Some x → h !! j = Some y →
  SystemConfig_merge_outcome h i x y (SystemConfig.merge h i j).
Proof.
  intros Hi Hj. unfold SystemConfig_merge_outcome, SystemConfig.merge, deref.
  rewrite Hi, Hj. simpl.
  destruct (SystemConfig.merge_loop x y _ 0 SystemConfig.locals0)
    as [st|e] eqn:Hloop; simpl.
  2:{ split; [|by left]. by eapply SystemConfig_merge_loop_Err. }
  destruct (SystemConfig.modified st) eqn:Hmod; simpl.
  - destruct (SystemConfig.np_array (SystemConfig.cs_buf st))
      as [rows|e] eqn:Hrows; simpl.
    2:{ split; [|right; eauto]. unfold SystemConfig.np_array in Hrows.
        destruct (mapM id (SystemConfig.cs_buf st)); simpl in Hrows; [done|].
        by injection Hrows as <-. }
    unfold deref. rewrite list_lookup_middle by done. simpl.
    rewrite (SystemConfig_merge_modified_neq x y st rows Hloop Hmod).
    assert (length h ≠ i) as Hne by (apply lookup_lt_Some in Hi; lia).
    rewrite bool_decide_eq_false_2 by done. simpl.
    exists st. split; [done|]. right. split; [done|]. by exists rows.
  - unfold deref. rewrite Hi. simpl.
    rewrite SystemConfig_eqb_refl, bool_decide_eq_true_2 by done. simpl.
    exists st. split; [done|]. by left.
Qed.

Lemma SystemConfig_merge_loop_total x y (keys : list string) (i : nat) st :
  SystemConfig.wf x → SystemConfig.wf y →
  (∀ a, a ∈ keys →
     a ∈ dom (SystemConfig.idx x) ∪ dom (SystemConfig.idx y)) →
  Forall is_Some (SystemConfig.cs_buf st) →
  ∃ st', SystemConfig.merge_loop x y keys i st = Ok st' ∧
         Forall is_Some (SystemConfig.cs_buf st').
Proof.
  intros Hwx Hwy. revert i st.
  induction keys as [|a keys IH]; intros i st Hkeys Hrows; simpl; [eauto|].
  assert (a ∈ dom (SystemConfig.idx x) ∨
          ∃ dj, SystemConfig.data y a = Ok dj ∧ 0 ≤ SystemConfig.count dj)
    as Hcond.
  { destruct (decide (a ∈ dom (SystemConfig.idx x))) as [|Hn]; [by left|].
    right. apply SystemConfig_data_Ok; [done|].
    specialize (Hkeys a). set_solver. }
  assert (∃ m os2 sid2 c2,
            SystemConfig.merge_entry x y a st = Ok (m, os2, sid2, c2))
    as (m & os2 & sid2 & c2 & Hentry).
  { unfold SystemConfig.merge_entry.
    destruct (decide (a ∈ dom (SystemConfig.idx x))) as [Hi|Hi];
      [destruct (SystemConfig_data_Ok x a Hwx Hi) as (di & -> & _)|]; simpl;
      (destruct (decide (a ∈ dom (SystemConfig.idx y))) as [Hj|Hj];
       [destruct (SystemConfig_data_Ok y a Hwy Hj) as (dj & -> & _); simpl;
        case_bool_decide|]); eauto. }
  pose proof (SystemConfig_merge_entry_Ok _ _ _ _ _ _ _ _ Hentry)
    as (_ & _ & _ & _ & Hsome).
  destruct (Hsome Hcond) as [[row ->] [sid ->]].
  unfold SystemConfig.merge_step. rewrite Hentry. simpl.
  apply IH.
  - intros b Hb. apply Hkeys. by right.
  - simpl. apply Forall_app. split; [done|]. by repeat constructor.
Qed.

(** On well-formed configurations [merge] returns. *)
Lemma SystemConfig_merge_total {NL : NumericLaws N} (h : heap SystemConfig.t)
    (i j : ref) x y :
  h !! i = Some x → h !! j = Some y →
  SystemConfig.wf x → SystemConfig.wf y →
  ∃ h' r, SystemConfig.merge h i j = Ok (h', r).
Proof.
  intros Hi Hj Hwx Hwy.
  pose proof (SystemConfig_merge_cases h i j x y Hi Hj) as Hout.
  destruct (SystemConfig.merge h i j) as [[h' r]|e]; [eauto|].
  exfalso. simpl in Hout.
  destruct (SystemConfig_merge_loop_total x y
              (sorted (elements (dom (SystemConfig.idx x) ∪
                                 dom (SystemConfig.idx y))))
              0 SystemConfig.locals0 Hwx Hwy) as (st & Hst & Hrows).
  { intros a. by rewrite elem_of_sorted_elements. }
  { constructor. }
  destruct Hout as [_ [Herr|(st' & Hst' & Herr)]]; [congruence|].
  assert (st' = st) as -> by congruence.
  unfold SystemConfig.np_array in Herr.
  assert (is_Some (mapM id (SystemConfig.cs_buf st))) as [rows Hm].
  { apply mapM_is_Some. eapply Forall_impl; [exact Hrows|]. done. }
  rewrite Hm in Herr. done.
Qed.
End sysconf_merge_results.

(** C5. For well-formed configurations [x] and [y] and every agent [a] of
    [x] or [y], the counter of [a] in [merge(x, y)] is at least its counter
    in [x] (if [a] is in [x]) and at least its counter in [y] (if [a] is in
    [y]), hence at least their maximum when [a] is in both. *)
Theorem SystemConfig_merge_counters {N : Numeric} {NL : NumericLaws N}
    (h : heap SystemConfig.t) (i j : ref) (x y : SystemConfig.t) :
  h !! i = Some x → h !! j = Some y →
  SystemConfig.wf x → SystemConfig.wf y →
  ∃ h' r z,
    SystemConfig.merge h i j = Ok (h', r) ∧
    h' !! r = Some z ∧
    ∀ a, a ∈ dom (SystemConfig.idx x) ∪ dom (SystemConfig.idx y) →
      ∃ d, SystemConfig.data z a = Ok d ∧
        (∀ di, SystemConfig.data x a = Ok di →
           SystemConfig.count di ≤ SystemConfig.count d) ∧
        (∀ dj, SystemConfig.data y a = Ok dj →
           SystemConfig.count dj ≤ SystemConfig.count d) ∧
        (∀ di dj, SystemConfig.data x a = Ok di →
           SystemConfig.data y a = Ok dj →
           Z.max (SystemConfig.count di) (SystemConfig.count dj)
             ≤ SystemConfig.count d).
Proof.
  intros Hi Hj Hwx Hwy.
  destruct (SystemConfig_merge_total h i j x y Hi Hj Hwx Hwy) as (h' & r & Hm).
  pose proof (SystemConfig_merge_cases h i j x y Hi Hj) as Hout.
  rewrite Hm in Hout. simpl in Hout.
  destruct Hout as (st & Hloop & Hcase).
  pose proof Hloop as Hpost.
  apply SystemConfig_merge_loop_Ok in Hpost
    as (Lcs & Lsids & Lcnt & _ & _ & _ & _ & Lkeys & _ & Lkept);
    [|apply NoDup_sorted_elements|done..].
  simpl in Lcs, Lsids, Lcnt.
  enough (∃ z, h' !! r = Some z ∧
            ∀ a, a ∈ dom (SystemConfig.idx x) ∪ dom (SystemConfig.idx y) →
              ∃ d, SystemConfig.data z a = Ok d ∧
                (∀ di, SystemConfig.data x a = Ok di →
                   SystemConfig.count di ≤ SystemConfig.count d) ∧
                (∀ dj, SystemConfig.data y a = Ok dj →
                   SystemConfig.count dj ≤ SystemConfig.count d))
    as (z & Hz & Hall).
  { exists h', r, z. split_and!; [done..|]. intros a Ha.
    destruct (Hall a Ha) as (d & Hd & Hx & Hy).
    exists d. split_and!; [done..|]. intros di dj Hdi Hdj.
    specialize (Hx di Hdi). specialize (Hy dj Hdj). lia. }
  destruct Hcase as [(Hmod & -> & ->)|(Hmod & rows & Hrows & -> & ->)].
  - (* nothing was newer: the result is [x] *)
    exists x. split; [done|]. intros a Ha.
    pose proof (Lkept Hmod a) as Hkept. unfold kept_i in Hkept.
    rewrite elem_of_sorted_elements in Hkept. specialize (Hkept Ha).
    destruct (decide (a ∈ dom (SystemConfig.idx x))) as [Hax|Hax].
    + destruct (SystemConfig_data_Ok x a Hwx Hax) as (di & Hdi & _).
      exists di. split_and!; [done| |].
      * intros di' Hdi'. assert (di' = di) as -> by congruence. lia.
      * intros dj Hdj.
        destruct Hkept as (dj' & Hdj' & di' & Hdi' & Hle);
          [by eapply SystemConfig_data_dom|].
        assert (dj' = dj) as -> by congruence.
        assert (di' = di) as -> by congruence. done.
    + assert (a ∈ dom (SystemConfig.idx y)) as Hay by set_solver.
      destruct (Hkept Hay) as (dj & Hdj & Hle).
      destruct (SystemConfig_data_Ok y a Hwy Hay) as (dj' & Hdj' & Hnn).
      assert (dj' = dj) as -> by congruence. lia.
  - (* a new configuration was built from the buffers *)
    eexists. split; [by rewrite list_lookup_middle|]. intros a Ha.
    destruct (Lkeys a) as (p & c2 & Hp & Hidx & Hcnt & [Hbx Hby] & _).
    { by rewrite elem_of_sorted_elements. }
    unfold SystemConfig.np_array in Hrows.
    apply or_raise_Ok in Hrows. pose proof (length_mapM _ _ _ Hrows) as Hlen.
    destruct (lookup_lt_is_Some_2 rows p) as [row Hrow]; [lia|].
    destruct (lookup_lt_is_Some_2 (SystemConfig.sids_buf st) p)
      as [sid Hsid]; [lia|].
    exists (SystemConfig.mkData row sid c2). split_and!; [|done..].
    unfold SystemConfig.data. simpl. rewrite Hidx. simpl.
    by rewrite Hrow, Hsid, Hcnt.
Qed.

Lemma SystemConfig_merge_counters_witness :
  let h := [Sample.sc_ab; Sample.sc_bc] in
  ∃ h' r z,
    @SystemConfig.merge Z_numeric h 0%nat 1%nat = Ok (h', r) ∧
    h' !! r = Some z ∧
    ∀ a, a ∈ dom (SystemConfig.idx Sample.sc_ab) ∪
             dom (SystemConfig.idx Sample.sc_bc) →
      ∃ d, SystemConfig.data z a = Ok d ∧
        (∀ di, SystemConfig.data Sample.sc_ab a = Ok di →
           SystemConfig.count di ≤ SystemConfig.count d) ∧
        (∀ dj, SystemConfig.data Sample.sc_bc a = Ok dj →
           SystemConfig.count dj ≤ SystemConfig.count d) ∧
        (∀ di dj, SystemConfig.data Sample.sc_ab a = Ok di →
           SystemConfig.data Sample.sc_bc a = Ok dj →
           Z.max (SystemConfig.count di) (SystemConfig.count dj)
             ≤ SystemConfig.count d).
Proof.
  intros h.
  apply (@SystemConfig_merge_counters Z_numeric Z_numeric_laws h 0%nat 1%nat
           Sample.sc_ab Sample.sc_bc).
  - reflexivity.
  - reflexivity.
  - apply (bool_decide_unpack _). vm_compute. exact I.
  - apply (bool_decide_unpack _). vm_compute. exact I.
Defined.

(** ** Equality and identity of a merge result *)



(** C2. The equivalence fails on an object that holds a NaN.  Merging the
    well-formed configuration [sc_nan], whose schedule has a NaN entry, with
    itself changes nothing, so that the merge is about to return the
    instance it was given; but this instance is not [==] to itself, and the
    closing assertion of [SystemConfig.merge] raises an [AssertionError]
    instead of returning the original instance.  The same happens in
    [Candidate.merge] on the candidate [cand_nan], whatever the author and
    the performance function are. *)
Theorem merge_assertion_fails_on_nan :
  SystemConfig.wf Sample.sc_nan ∧
  SystemConfig.eqb Sample.sc_nan Sample.sc_nan = false ∧
  SystemConfig.merge [Sample.sc_nan] 0%nat 0%nat = Err AssertionError ∧
  Candidate.wf Sample.cand_nan ∧
  Candidate.eqb Sample.cand_nan Sample.cand_nan = false ∧
  ∀ (me : string) (f : list (list (@num Znan_numeric)) → @num Znan_numeric),
    Candidate.merge [Sample.cand_nan] 0%nat 0%nat me f = Err AssertionError.
Proof.
  split_and!.
  - apply (bool_decide_unpack _). vm_compute. exact I.
  - vm_compute. reflexivity.
  - vm_compute. reflexivity.
  - apply (bool_decide_unpack _). vm_compute. exact I.
  - vm_compute. reflexivity.
  - intros me f. vm_compute. reflexivity.
Qed.

(** ** [Planner._decide] *)

Section decide.
Context {N : Numeric}.

(** [update] on an agent with data: the new object and its reference. *)
Lemma SystemConfig_update_Ok (h : heap SystemConfig.t) (self : ref)
    (x : SystemConfig.t) (a : string) (os : list num) (sid : Z)
    (dx : SystemConfig.Data) :
  h !! self = Some x →
  SystemConfig.data x a = Ok dx →
  length os = length (SystemConfig.os dx) →
  ∃ i, SystemConfig.idx x !! a = Some i ∧
    (i < length (SystemConfig.cs x))%nat ∧
    (i < length (SystemConfig.sids x))%nat ∧
    (i < length (SystemConfig.cnt x))%nat ∧
    SystemConfig.update h self a os sid =
      Ok (h ++ [SystemConfig.mk (SystemConfig.idx x)
                  (<[i:=os]> (SystemConfig.cs x))
                  (<[i:=sid]> (SystemConfig.sids x))
                  (<[i:=SystemConfig.count dx + 1]> (SystemConfig.cnt x))],
          length h).
Proof.
  intros Hself Hd Hlen. unfold SystemConfig.data in Hd.
  apply bind_Ok in Hd as (i & Hi%or_raise_Ok & Hd).
  apply bind_Ok in Hd as (row & Hrow%or_raise_Ok & Hd).
  apply bind_Ok in Hd as (s0 & Hs0%or_raise_Ok & Hd).
  apply bind_Ok in Hd as (c0 & Hc0%or_raise_Ok & Hd).
  injection Hd as <-. simpl in *.
  pose proof (lookup_lt_Some _ _ _ Hrow).
  pose proof (lookup_lt_Some _ _ _ Hs0).
  pose proof (lookup_lt_Some _ _ _ Hc0).
  exists i. split_and!; [done..|].
  unfold SystemConfig.update, deref. rewrite Hself. simpl. rewrite Hi. simpl.
  rewrite (set_row_same_width _ _ _ _ Hrow Hlen). simpl.
  unfold list_set. rewrite !decide_True by lia. simpl. rewrite Hc0. simpl.
  rewrite decide_True by lia. done.
Qed.

(** The scan of [_get_new_os] only allocates, and what it finds is one of
    the possible schedules. *)
Lemma get_new_os_loop_Ok (self : Planner.t) (sysconf : ref)
    (x : SystemConfig.t) (name : string) (dx : SystemConfig.Data)
    (ps : list (Z * num * list num)) :
  SystemConfig.data x name = Ok dx →
  Forall (λ p, length p.2 = length (SystemConfig.os dx)) ps →
  ∀ (hs : heap SystemConfig.t) (best_perf : option num)
    (found : option (list num * Z)),
    hs !! sysconf = Some x →
    is_Some best_perf →
    (∀ os sid, found = Some (os, sid) →
       length os = length (SystemConfig.os dx)) →
    ∃ ext found',
      Planner._get_new_os_loop self hs sysconf name ps best_perf found
        = Ok (hs ++ ext, found') ∧
      (∀ os sid, found' = Some (os, sid) →
         length os = length (SystemConfig.os dx)).
Proof.
  intros Hdx Hps. induction Hps as [|[[sid u] os] ps Hlen _ IH];
    intros hs best_perf found Hx [b ->] Hfound.
  - exists [], found. simpl. by rewrite app_nil_r.
  - simpl in Hlen.
    destruct (SystemConfig_update_Ok hs sysconf x name os sid dx Hx Hdx Hlen)
      as (i & _ & _ & _ & _ & Hupd).
    match type of Hupd with _ = Ok (_ ++ [?z0], _) => set (z := z0) in * end.
    simpl. rewrite Hupd. simpl. unfold deref.
    rewrite list_lookup_middle by done. simpl.
    match goal with |- context [if ?c then _ else _] => destruct c end.
    all: match goal with
         | |- context [Planner._get_new_os_loop _ ?h1 _ _ _ ?bp ?fd] =>
             destruct (IH h1 bp fd) as (ext & found1 & -> & Hf1);
               [by apply lookup_app_l_Some|by eexists| |]
         end.
    all: try (intros os' sid' [= <- <-]; done); try exact Hfound.
    all: exists (z :: ext), found1; by rewrite <- app_assoc.
Qed.
End decide.

(** The last step of [_decide]: the configuration is updated exactly when
    the schedule id of the chosen candidate differs from the stored one. *)
Lemma decide_final {N : Numeric} (name : string)
    (hs hs2 : heap SystemConfig.t) (hc2 : heap Candidate.t)
    (sysconf cand : ref) (x : SystemConfig.t) (dx : SystemConfig.Data)
    (best_os : list num) (best_sid : Z) :
  hs2 !! sysconf = Some x →
  (∀ q v, hs !! q = Some v → hs2 !! q = Some v) →
  SystemConfig.data x name = Ok dx →
  length best_os = length (SystemConfig.os dx) →
  ∃ hs' sc',
    (if bool_decide (SystemConfig.sid dx ≠ best_sid)
     then '(hs, sysconf) ←
            SystemConfig.update hs2 sysconf name best_os best_sid;
          Ok (hs, hc2, sysconf, cand)
     else Ok (hs2, hc2, sysconf, cand)) = Ok (hs', hc2, sc', cand) ∧
    hs' !! sysconf = Some x ∧
    (best_sid = SystemConfig.sid dx → sc' = sysconf) ∧
    (best_sid ≠ SystemConfig.sid dx →
       hs !! sc' = None ∧
       (∃ hs0, (∀ q v, hs !! q = Some v → hs0 !! q = Some v) ∧
          SystemConfig.update hs0 sysconf name best_os best_sid
            = Ok (hs', sc')) ∧
       ∃ x', hs' !! sc' = Some x' ∧
         SystemConfig.idx x' = SystemConfig.idx x ∧
         SystemConfig.data x' name =
           Ok (SystemConfig.mkData best_os best_sid
                 (SystemConfig.count dx + 1))).
Proof.
  intros Hx Hpre Hdx Hlen.
  case_bool_decide as Hsid.
  - destruct (SystemConfig_update_Ok hs2 sysconf x name best_os best_sid dx
                Hx Hdx Hlen) as (i & Hi & Hcs & Hsids & Hcnt & Hupd).
    rewrite Hupd. simpl. eexists _, _. split_and!; [done| | |].
    + by apply lookup_app_l_Some.
    + intros ->. done.
    + intros _. split_and!.
      * destruct (hs !! length hs2) as [v|] eqn:Hv; [|done].
        apply Hpre in Hv. apply lookup_lt_Some in Hv. lia.
      * exists hs2. done.
      * eexists. split; [by rewrite list_lookup_middle|]. split; [done|].
        unfold SystemConfig.data. simpl. rewrite Hi. simpl.
        rewrite !list_lookup_insert_eq by lia. done.
  - eexists _, _. split_and!; [done..|].
    intros Hne. by destruct Hne.
Qed.

(** C4. On schedules of one length, that is when the rows of [sc], the
    agent's row in [c], the possible schedules, the target schedule and the
    weights all have the same number of intervals, and when [c] has a
    performance, [_decide(sc, c)] returns a candidate [c'] and a
    configuration; with [(os_best, sid_best)] the schedule that [c'] holds
    for the agent itself, the configuration is a new instance
    [sc.update(self, os_best, sid_best)], whose counter for the agent is
    that of [sc] plus one, when [sid_best] differs from the schedule id that
    [sc] holds for the agent, and it is the instance [sc] itself when the
    two ids are equal. *)
Theorem decide_updates_sysconf_iff {N : Numeric} (self : Planner.t)
    (hs : heap SystemConfig.t) (hc : heap Candidate.t)
    (sysconf candidate : ref) (x : SystemConfig.t) (c : Candidate.t)
    (dx : SystemConfig.Data) (dc : Candidate.Data) :
  hs !! sysconf = Some x →
  hc !! candidate = Some c →
  SystemConfig.data x (Planner.name self) = Ok dx →
  Candidate.data c (Planner.name self) = Ok dc →
  is_Some (Candidate.perf c) →
  Forall (λ p, length p.2 = length (SystemConfig.os dx))
    (WorkingMemory.ps (Planner.wm self)) →
  length (Candidate.os dc) = length (SystemConfig.os dx) →
  Forall (λ r, length r = length (SystemConfig.os dx)) (SystemConfig.cs x) →
  length (WorkingMemory.ts (Planner.wm self))
    = length (SystemConfig.os dx) →
  length (WorkingMemory.weights (Planner.wm self))
    = length (SystemConfig.os dx) →
  ∃ hs' hc' sc' c' z d',
    Planner._decide self hs hc sysconf candidate = Ok (hs', hc', sc', c') ∧
    hc' !! c' = Some z ∧
    Candidate.data z (Planner.name self) = Ok d' ∧
    hs' !! sysconf = Some x ∧
    (Candidate.sid d' = SystemConfig.sid dx → sc' = sysconf) ∧
    (Candidate.sid d' ≠ SystemConfig.sid dx →
       hs !! sc' = None ∧
       (∃ hs0, (∀ q v, hs !! q = Some v → hs0 !! q = Some v) ∧
          SystemConfig.update hs0 sysconf (Planner.name self)
            (Candidate.os d') (Candidate.sid d') = Ok (hs', sc')) ∧
       ∃ x', hs' !! sc' = Some x' ∧
         SystemConfig.idx x' = SystemConfig.idx x ∧
         SystemConfig.data x' (Planner.name self) =
           Ok (SystemConfig.mkData (Candidate.os d') (Candidate.sid d')
                 (SystemConfig.count dx + 1))).
Proof.
  intros Hx Hc Hdx Hdc [p Hp] Hps Hlen_dc _ _ _.
  destruct (get_new_os_loop_Ok self sysconf x (Planner.name self) dx
              (WorkingMemory.ps (Planner.wm self)) Hdx Hps hs
              (Candidate.perf c) None Hx) as (ext & found & Hscan & Hfound);
    [by rewrite Hp|done|].
  assert (∀ q v, hs !! q = Some v → (hs ++ ext) !! q = Some v) as Hpre1.
  { intros q v Hq. by apply lookup_app_l_Some. }
  pose proof (Hpre1 _ _ Hx) as Hx1.
  enough (∃ hs2 hc2 cand' z d',
    Planner._decide self hs hc sysconf candidate =
      (if bool_decide (SystemConfig.sid dx ≠ Candidate.sid d')
       then '(hs, sysconf) ←
              SystemConfig.update hs2 sysconf (Planner.name self)
                (Candidate.os d') (Candidate.sid d');
            Ok (hs, hc2, sysconf, cand')
       else Ok (hs2, hc2, sysconf, cand')) ∧
    hs2 !! sysconf = Some x ∧
    (∀ q v, hs !! q = Some v → hs2 !! q = Some v) ∧
    hc2 !! cand' = Some z ∧
    Candidate.data z (Planner.name self) = Ok d' ∧
    length (Candidate.os d') = length (SystemConfig.os dx))
    as (hs2 & hc2 & cand' & z & d' & Hrun & Hx2 & Hpre2 & Hz & Hd' & Hlen').
  { destruct (decide_final (Planner.name self) hs hs2 hc2 sysconf cand' x dx
                (Candidate.os d') (Candidate.sid d') Hx2 Hpre2 Hdx Hlen')
      as (hs' & sc' & Hfin & Hkeep & Hsame & Hnew).
    exists hs', hc2, sc', cand', z, d'. rewrite Hrun, Hfin.
    split_and!; done. }
  unfold Planner._decide, Planner._get_new_os, deref.
  rewrite Hx. simpl. rewrite Hdx. simpl. rewrite Hc. simpl.
  rewrite Hdc. simpl. rewrite Hscan. simpl.
  destruct found as [[new_os new_sid]|]; simpl.
  - (* a schedule that is locally better was found *)
    pose proof (Hfound new_os new_sid eq_refl) as Hlen_new.
    destruct (SystemConfig_update_Ok (hs ++ ext) sysconf x
                (Planner.name self) new_os new_sid dx Hx1 Hdx Hlen_new)
      as (i & Hi & Hcs & Hsids & Hcnt & Hupd).
    rewrite Hupd. simpl. unfold deref.
    rewrite list_lookup_middle by done. simpl.
    unfold Candidate.update, deref.
    rewrite list_lookup_middle by done. simpl. rewrite Hi. simpl.
    rewrite (set_row_same_width _ i new_os new_os)
      by (by rewrite ?list_lookup_insert_eq by lia).
    simpl. unfold list_set. rewrite length_insert.
    rewrite decide_True by lia. simpl.
    rewrite lookup_app_r by (rewrite length_app; simpl; lia).
    rewrite length_app. simpl.
    replace (length hc + 1 - (length hc + 1))%nat with 0%nat by lia. simpl.
    rewrite Hp. simpl.
    match goal with |- context [if ?b then _ else _] => destruct b end; simpl.
    + eexists _, _, _, _, (Candidate.mkData new_os new_sid).
      split_and!; [simpl; reflexivity| | | | |done].
      * by apply lookup_app_l_Some.
      * intros q v Hq. by apply lookup_app_l_Some, Hpre1.
      * rewrite lookup_app_r by (rewrite length_app; simpl; lia).
        rewrite length_app. simpl.
        replace (length hc + 1 - (length hc + 1))%nat with 0%nat by lia.
        simpl. reflexivity.
      * unfold Candidate.data. simpl. rewrite Hi. simpl.
        rewrite !list_lookup_insert_eq by (rewrite ?length_insert; lia).
        done.
    + eexists _, _, candidate, c, dc.
      split_and!; [reflexivity| | | |done|done].
      * by apply lookup_app_l_Some.
      * intros q v Hq. by apply lookup_app_l_Some, Hpre1.
      * by apply lookup_app_l_Some, lookup_app_l_Some.
  - (* no better schedule *)
    exists (hs ++ ext), hc, candidate, c, dc. by split_and!.
Qed.

Lemma decide_updates_sysconf_iff_witness :
  let dx := @SystemConfig.mkData Z_numeric [0; 0] 0 0 in
  ∃ hs' hc' sc' c' z d',
    Planner._decide Sample.planner_A [Sample.sc_A] [Sample.cand_A] 0%nat 0%nat
      = Ok (hs', hc', sc', c') ∧
    hc' !! c' = Some z ∧
    Candidate.data z "A" = Ok d' ∧
    hs' !! 0%nat = Some Sample.sc_A ∧
    (Candidate.sid d' = SystemConfig.sid dx → sc' = 0%nat) ∧
    (Candidate.sid d' ≠ SystemConfig.sid dx →
       [Sample.sc_A] !! sc' = None ∧
       (∃ hs0, (∀ q v, [Sample.sc_A] !! q = Some v → hs0 !! q = Some v) ∧
          SystemConfig.update hs0 0%nat "A"
            (Candidate.os d') (Candidate.sid d') = Ok (hs', sc')) ∧
       ∃ x', hs' !! sc' = Some x' ∧
         SystemConfig.idx x' = SystemConfig.idx Sample.sc_A ∧
         SystemConfig.data x' "A" =
           Ok (SystemConfig.mkData (Candidate.os d') (Candidate.sid d')
                 (SystemConfig.count dx + 1))).
Proof.
  intros dx.
  apply (@decide_updates_sysconf_iff Z_numeric Sample.planner_A
           [Sample.sc_A] [Sample.cand_A] 0%nat 0%nat Sample.sc_A Sample.cand_A
           dx (@Candidate.mkData Z_numeric [0; 0] 0)).
  - reflexivity.
  - reflexivity.
  - vm_compute. reflexivity.
  - vm_compute. reflexivity.
  - eexists. reflexivity.
  - repeat constructor.
  - reflexivity.
  - repeat constructor.
  - reflexivity.
  - reflexivity.
Defined.

(** ** The observer's solution *)

Section observer.
Context {N : Numeric}.

(** No method of the observer sets [_terminated], and the target schedule
    and weights are those of the last [start_observation]. *)
Lemma ObserverAgent_step_inv (self self' : ObserverAgent.t)
    (h h' : heap Candidate.t) (e : ObserverAgent.event) :
  ObserverAgent.step self h e = Ok (self', h') →
  ObserverAgent._terminated self' = ObserverAgent._terminated self ∧
  (ObserverAgent._ts self', ObserverAgent._weights self') =
    match e with
    | ObserverAgent.StartObservation ts weights => (Some ts, Some weights)
    | _ => (ObserverAgent._ts self, ObserverAgent._weights self)
    end.
Proof.
  destruct e; simpl; intros Hstep.
  - apply bind_Ok in Hstep as (s1 & Hreg & [= <- <-]).
    unfold ObserverAgent.register_unitAgent in Hreg.
    apply bind_Ok in Hreg as (b & _ & [= <-]). done.
  - apply bind_Ok in Hstep as (s1 & Hstart & [= <- <-]).
    unfold ObserverAgent.start_observation in Hstart.
    apply bind_Ok in Hstart as (? & _ & [= <-]). done.
  - by injection Hstep as <- <-.
  - by injection Hstep as <- <-.
  - unfold ObserverAgent.update_final_cand in Hstep.
    case_bool_decide; [|by injection Hstep as <- <-].
    apply bind_Ok in Hstep as ([[s1 h1] r1] & Hsol & [= <- <-]).
    unfold ObserverAgent._get_solution in Hsol.
    apply bind_Ok in Hsol as ([h2 r2] & _ & Hsol).
    apply bind_Ok in Hsol as (b & _ & [= <- <- <-]). done.
  - by injection Hstep as <- <-.
Qed.

Lemma ObserverAgent_run_inv (evs : list ObserverAgent.event)
    (self self' : ObserverAgent.t) (h h' : heap Candidate.t) :
  ObserverAgent.run self h evs = Ok (self', h') →
  ObserverAgent._terminated self' = ObserverAgent._terminated self ∧
  (ObserverAgent._ts self', ObserverAgent._weights self') =
    foldl (λ acc e,
             match e with
             | ObserverAgent.StartObservation ts weights =>
                 (Some ts, Some weights)
             | _ => acc
             end) (ObserverAgent._ts self, ObserverAgent._weights self) evs.
Proof.
  revert self h. induction evs as [|e evs IH]; intros self h Hrun; simpl in *.
  - by injection Hrun as <- <-.
  - apply bind_Ok in Hrun as ([s1 h1] & Hstep & Hrun).
    apply ObserverAgent_step_inv in Hstep as [Hterm Hts].
    apply IH in Hrun as [Hterm' Hts'].
    split; [congruence|]. rewrite Hts', Hts. by destruct e.
Qed.
End observer.

(** Reducing candidates that are all equal to the first one returns the
    first one, and allocates nothing. *)
Lemma Candidate_reduce_from_equal {N : Numeric} {NL : NumericLaws N}
    (me : string) (f : list (list num) → num) (h : heap Candidate.t)
    (q0 : ref) (v0 : Candidate.t) (l : list ref) :
  h !! q0 = Some v0 → is_Some (Candidate.perf v0) →
  Forall (λ q, ∃ v, h !! q = Some v ∧ Candidate.eqb v v0 = true) l →
  ObserverAgent.reduce_from (λ h ci cj, Candidate.merge h ci cj me f) h q0 l
    = Ok (h, q0).
Proof.
  intros Hq0 [p Hp] Hall. induction Hall as [|q l (v & Hq & Heq) _ IH]; [done|].
  simpl.
  pose proof (Candidate_merge_cases h q0 q me f v0 v Hq0 Hq) as Hout.
  apply Candidate_eqb_true in Heq as (Hag & Hidx & _ & Hperf & _).
  rewrite Hp in Hperf.
  destruct (Candidate.perf v) as [pv|] eqn:Hpv; [|done]. simpl in Hperf.
  assert (num_ltb p pv = false) as Hlt.
  { destruct (num_ltb p pv) eqn:Hlt; [|done].
    apply num_ltb_neq in Hlt. rewrite num_eqb_sym in Hlt. congruence. }
  destruct (Candidate.merge h q0 q me f) as [[h' r]|e]; simpl in Hout.
  - destruct Hout as [(Hsub & _)|[(_ & -> & p' & q' & Hp' & Hq' & ->)|
                     [(_ & Hne & _)|(_ & Hne & _)]]].
    + rewrite Hidx in Hsub. by destruct Hsub.
    + assert (p' = p) as -> by congruence.
      assert (q' = pv) as -> by congruence.
      rewrite Hlt, Hag, String_ltb_irrefl, andb_false_r. simpl. exact IH.
    + by rewrite Hidx in Hne.
    + by rewrite Hidx in Hne.
  - exfalso. destruct Hout as [(_ & _ & [?|?])|[Hnew _]]; try congruence.
    apply Hnew. rewrite Hidx. set_solver.
Qed.

(** C1. The observer does not tell a negotiation that the termination
    detector has ended from one that the controller has stopped: no method
    sets [_terminated], the branch that checks that all buffered candidates
    are equal is never taken, and the solution is always computed by the
    reduction.  In the negotiation [obs_events_differ] the termination
    detector fires and the two agents then hand in the candidates [cand_a]
    and [cand_c], which differ: every call returns, [_terminated] is still
    [False], and the solution is neither of the two buffered candidates but
    a new candidate that the reduction has built, with the author
    ["controller"] and the agents of both; the check of the other branch,
    [assert c == solution], would have failed. *)
Theorem observer_ignores_termination_detector :
  let h := [Sample.cand_a; Sample.cand_c] in
  ∃ self h' r z,
    ObserverAgent.run (ObserverAgent.__init__ None) h
      Sample.obs_events_differ = Ok (self, h') ∧
    ObserverAgent._terminated self = false ∧
    ObserverAgent._candidates self = [0%nat; 1%nat] ∧
    Candidate.eqb Sample.cand_c Sample.cand_a = false ∧
    ObserverAgent._solution_determined self = true ∧
    ObserverAgent._solution self = Some r ∧
    (r ∉ ObserverAgent._candidates self) ∧
    ObserverAgent.assert_all_equal h Sample.cand_a [1%nat]
      = Err AssertionError ∧
    h' !! r = Some z ∧
    Candidate.agent z = "controller" ∧
    dom (Candidate.idx z) = {[ "a"; "b"; "c" ]}.
Proof.
  intros h. eexists _, _, _, _. split_and!.
  - vm_compute. reflexivity.
  - reflexivity.
  - reflexivity.
  - vm_compute. reflexivity.
  - reflexivity.
  - reflexivity.
  - apply (bool_decide_unpack _). vm_compute. exact I.
  - vm_compute. reflexivity.
  - reflexivity.
  - reflexivity.
  - apply (bool_decide_unpack _). vm_compute. exact I.
Qed.

(** ** The topology *)

Lemma insert_by_addr_Permutation (x : nat * string) (l : list (nat * string)) :
  TopologyManager.insert_by_addr x l ≡ₚ x :: l.
Proof.
  induction l as [|y l IH]; simpl; [done|].
  destruct (String.ltb x.2 y.2); [done|].
  rewrite IH. apply Permutation_swap.
Qed.

Lemma sorted_by_addr_Permutation (items : list (nat * string)) :
  TopologyManager.sorted_by_addr items ≡ₚ items.
Proof.
  unfold TopologyManager.sorted_by_addr.
  enough (∀ acc, foldl (λ acc x, TopologyManager.insert_by_addr x acc) acc items
                 ≡ₚ acc ++ items) as Hgen by (by rewrite Hgen).
  induction items as [|x items IH]; intros acc; simpl.
  - by rewrite app_nil_r.
  - rewrite IH, insert_by_addr_Permutation. simpl. apply Permutation_middle.
Qed.

Lemma dict_get_Ok (d : list (nat * string)) (k : nat) (v : string) :
  NoDup (fst <$> d) → (k, v) ∈ d → TopologyManager.dict_get d k = Ok v.
Proof.
  unfold TopologyManager.dict_get.
  induction d as [|[k' v'] d IH]; intros Hnd Hin.
  - by apply elem_of_nil in Hin.
  - simpl in Hnd. apply NoDup_cons in Hnd as [Hk' Hnd]. simpl.
    destruct (decide (k' = k)) as [->|Hne].
    + simpl. apply elem_of_cons in Hin as [[= ->]|Hin]; [done|].
      exfalso. apply Hk'. apply list_elem_of_fmap. by exists (k, v).
    + apply elem_of_cons in Hin as [[= -> ->]|Hin]; [done|].
      specialize (IH Hnd Hin).
      destruct (list_find (λ kv, kv.1 = k) d) as [[i [k2 v2]]|]; simpl in *;
        [done|discriminate].
Qed.

Lemma dict_get_elem_of (d : list (nat * string)) (k : nat) (v : string) :
  TopologyManager.dict_get d k = Ok v → (k, v) ∈ d.
Proof.
  unfold TopologyManager.dict_get. intros Hget.
  destruct (list_find (λ kv, kv.1 = k) d) as [[i [k2 v2]]|] eqn:Hfind;
    simpl in Hget; [|done].
  injection Hget as ->. apply list_find_Some in Hfind as (Hi & Hk & _).
  simpl in Hk. subst k2. by eapply list_elem_of_lookup_2.
Qed.

Lemma add_neighbor_Ok (T : gmap nat (gset string)) (a : nat)
    (addr : string) (N : gset string) :
  T !! a = Some N →
  TopologyManager.add_neighbor T a addr = Ok (<[a:={[addr]} ∪ N]> T).
Proof. intros HN. unfold TopologyManager.add_neighbor. by rewrite HN. Qed.

Section ring.
Variable agents : list (nat * string).
Variable L : list nat.
Hypothesis Hkeys : NoDup (fst <$> agents).
Hypothesis HL : L ≡ₚ fst <$> agents.

Lemma agent_list_NoDup : NoDup L.
Proof. by rewrite HL. Qed.

Lemma agent_list_addr (a : nat) :
  a ∈ L → ∃ addr, (a, addr) ∈ agents ∧
                  TopologyManager.dict_get agents a = Ok addr.
Proof.
  rewrite HL. intros ([a' addr] & -> & Hin)%list_elem_of_fmap. simpl.
  exists addr. split; [done|]. by apply dict_get_Ok.
Qed.

Lemma list_get_mod_Ok (k : Z) :
  L ≠ [] →
  ∃ a, TopologyManager.list_get_mod L k (Z.of_nat (length L)) = Ok a ∧
       L !! Z.to_nat (k mod Z.of_nat (length L)) = Some a.
Proof.
  intros Hne. assert (length L ≠ 0%nat) by (by destruct L).
  unfold TopologyManager.list_get_mod. rewrite decide_False by lia.
  destruct (lookup_lt_is_Some_2 L
              (Z.to_nat (k mod Z.of_nat (length L)))) as [a Ha].
  { pose proof (Z.mod_pos_bound k (Z.of_nat (length L))). lia. }
  exists a. by rewrite Ha.
Qed.

(** The ring loop: every agent it visits gets the addresses of its left and
    right neighbours in the list, and nothing else changes. *)
Lemma build_ring_loop_spec (rest pre : list nat)
    (T : gmap nat (gset string)) :
  L = pre ++ rest →
  (∀ a, a ∈ rest → is_Some (T !! a)) →
  ∃ T',
    TopologyManager._build_ring_loop agents L (Z.of_nat (length L))
      (Z.of_nat (length pre)) rest T = Ok T' ∧
    dom T' = dom T ∧
    (∀ a, a ∉ rest → T' !! a = T !! a) ∧
    ∀ (k : nat) a, rest !! k = Some a →
      ∃ N l r al ar,
        T !! a = Some N ∧
        L !! Z.to_nat ((Z.of_nat (length pre + k) - 1)
                         mod Z.of_nat (length L)) = Some l ∧
        L !! Z.to_nat ((Z.of_nat (length pre + k) + 1)
                         mod Z.of_nat (length L)) = Some r ∧
        (l, al) ∈ agents ∧ (r, ar) ∈ agents ∧
        T' !! a = Some ({[ar]} ∪ ({[al]} ∪ N)).
Proof.
  revert pre T. induction rest as [|agent rest IH]; intros pre T HLeq HT.
  { exists T. simpl. split_and!; [done..|]. intros k a Hk. done. }
  assert (L ≠ []) as Hne by (rewrite HLeq; by destruct pre).
  pose proof agent_list_NoDup as Hnd. rewrite HLeq in Hnd.
  apply NoDup_app in Hnd as (_ & _ & Hnd_rest).
  apply NoDup_cons in Hnd_rest as [Hagent _].
  destruct (list_get_mod_Ok (Z.of_nat (length pre) - 1) Hne) as (l & Hl & Hl').
  destruct (list_get_mod_Ok (Z.of_nat (length pre) + 1) Hne) as (r & Hr & Hr').
  destruct (agent_list_addr l) as (al & Hal & Hgl);
    [by eapply list_elem_of_lookup_2|].
  destruct (agent_list_addr r) as (ar & Har & Hgr);
    [by eapply list_elem_of_lookup_2|].
  destruct (HT agent) as [N0 HN0]; [by left|].
  set (T2 := <[agent:={[ar]} ∪ ({[al]} ∪ N0)]> T).
  destruct (IH (pre ++ [agent]) T2) as (T' & Hloop & Hdom & Hframe & Hspec).
  { by rewrite <- app_assoc. }
  { intros a Ha. unfold T2. destruct (decide (a = agent)) as [->|Hne'].
    - rewrite lookup_insert_eq. eauto.
    - rewrite lookup_insert_ne by done. apply HT. by right. }
  exists T'. split_and!.
  - simpl. rewrite Hl, Hr. simpl. rewrite Hgl. simpl.
    rewrite (add_neighbor_Ok T agent al N0 HN0). simpl.
    rewrite Hgr. simpl.
    rewrite (add_neighbor_Ok _ agent ar ({[al]} ∪ N0))
      by (by rewrite lookup_insert_eq).
    simpl. rewrite insert_insert_eq. fold T2.
    replace (Z.of_nat (length pre) + 1) with (Z.of_nat (length (pre ++ [agent])))
      by (rewrite length_app; simpl; lia).
    exact Hloop.
  - rewrite Hdom. unfold T2. rewrite dom_insert_L.
    assert (agent ∈ dom T) by (apply elem_of_dom; eauto). set_solver.
  - intros a Ha. apply not_elem_of_cons in Ha as [Hne' Ha].
    rewrite (Hframe a Ha). unfold T2. by rewrite lookup_insert_ne.
  - intros k a Hk. destruct k as [|k]; simpl in Hk.
    + injection Hk as <-. exists N0, l, r, al, ar.
      rewrite Nat.add_0_r. split_and!; [done..|].
      rewrite (Hframe agent Hagent). unfold T2. by rewrite lookup_insert_eq.
    + destruct (Hspec k a Hk) as (N1 & l1 & r1 & al1 & ar1 & HN1 & Hl1 & Hr1
                                  & Hal1 & Har1 & HT').
      assert (a ≠ agent) as Hane.
      { intros ->. apply Hagent. by eapply list_elem_of_lookup_2. }
      unfold T2 in HN1. rewrite lookup_insert_ne in HN1 by done.
      rewrite length_app in Hl1, Hr1. simpl in Hl1, Hr1.
      replace (length pre + 1 + k)%nat with (length pre + S k)%nat
        in Hl1, Hr1 by lia.
      exists N1, l1, r1, al1, ar1. by split_and!.
Qed.
End ring.

(** Arithmetic of the ring indices. *)
Lemma ring_succ (k n : Z) :
  0 ≤ k < n → (k + 1) mod n = if decide (k + 1 = n) then 0 else k + 1.
Proof.
  intros Hk. case_decide as Hn.
  - rewrite Hn. apply Z.mod_same. lia.
  - apply Z.mod_small. lia.
Qed.

Lemma ring_pred (k n : Z) :
  0 ≤ k < n → (k - 1) mod n = if decide (k = 0) then n - 1 else k - 1.
Proof.
  intros Hk. case_decide as Hn.
  - subst k. symmetry. apply (Z.mod_unique _ _ (-1)); lia.
  - apply Z.mod_small. lia.
Qed.

Lemma ring_succ_pred (k n : Z) :
  0 ≤ k < n → ((k + 1) mod n - 1) mod n = k.
Proof.
  intros Hk. rewrite Zminus_mod_idemp_l.
  replace (k + 1 - 1) with k by lia. apply Z.mod_small. lia.
Qed.

Lemma ring_pred_succ (k n : Z) :
  0 ≤ k < n → ((k - 1) mod n + 1) mod n = k.
Proof.
  intros Hk. rewrite Zplus_mod_idemp_l.
  replace (k - 1 + 1) with k by lia. apply Z.mod_small. lia.
Qed.

Lemma ring_succ_ne (k n : Z) : 0 ≤ k < n → 2 ≤ n → (k + 1) mod n ≠ k.
Proof. intros Hk Hn. rewrite ring_succ by done. case_decide; lia. Qed.

Lemma ring_pred_ne (k n : Z) : 0 ≤ k < n → 2 ≤ n → (k - 1) mod n ≠ k.
Proof. intros Hk Hn. rewrite ring_pred by done. case_decide; lia. Qed.

(** The empty topology over the agents. *)
Lemma empty_topology_lookup (agents : list (nat * string)) (a : nat) :
  (list_to_map ((λ kv, (kv.1, ∅)) <$> agents) : gmap nat (gset string)) !! a
  = if decide (a ∈ fst <$> agents) then Some ∅ else None.
Proof.
  induction agents as [|[k v] agents IH].
  - simpl. apply lookup_empty.
  - rewrite !fmap_cons. cbn [list_to_map foldr fst snd].
    destruct (decide (k = a)) as [->|Hne].
    + rewrite lookup_insert_eq.
      destruct (decide (a ∈ a :: agents.*1)) as [_|Hin]; [done|].
      destruct Hin. by left.
    + rewrite lookup_insert_ne by done. rewrite IH.
      destruct (decide (a ∈ fst <$> agents)) as [Hin|Hin];
        destruct (decide (a ∈ k :: agents.*1)) as [Hin'|Hin']; try done.
      * destruct Hin'. by right.
      * apply elem_of_cons in Hin' as [->|?]; done.
Qed.

(** Adding an edge in both directions keeps a topology mutual and only
    adds neighbours. *)
Lemma add_edge_mono (T : gmap nat (gset string)) (a b : nat)
    (addr_a addr_b : string) (Na Nb : gset string) :
  a ≠ b → T !! a = Some Na → T !! b = Some Nb →
  ∀ y Ny, T !! y = Some Ny →
    ∃ Ny', <[b:={[addr_a]} ∪ Nb]> (<[a:={[addr_b]} ∪ Na]> T) !! y = Some Ny' ∧
           Ny ⊆ Ny'.
Proof.
  intros Hab Ha Hb y Ny Hy.
  destruct (decide (y = b)) as [->|Hyb].
  - rewrite lookup_insert_eq. eexists. split; [done|].
    assert (Ny = Nb) as -> by congruence. set_solver.
  - rewrite lookup_insert_ne by done.
    destruct (decide (y = a)) as [->|Hya].
    + rewrite lookup_insert_eq. eexists. split; [done|].
      assert (Ny = Na) as -> by congruence. set_solver.
    + rewrite lookup_insert_ne by done. eauto.
Qed.

Lemma add_edge_mutual (agents : list (nat * string))
    (T : gmap nat (gset string)) (a b : nat) (addr_a addr_b : string)
    (Na Nb : gset string) :
  mutual agents T → a ≠ b →
  (a, addr_a) ∈ agents → (b, addr_b) ∈ agents →
  T !! a = Some Na → T !! b = Some Nb →
  mutual agents (<[b:={[addr_a]} ∪ Nb]> (<[a:={[addr_b]} ∪ Na]> T)).
Proof.
  intros Hmut Hab Hina Hinb Ha Hb.
  pose proof (add_edge_mono T a b addr_a addr_b Na Nb Hab Ha Hb) as Hmono.
  assert (∀ x N addr, T !! x = Some N → addr ∈ N →
            ∃ y Ny addr_x, (y, addr) ∈ agents ∧ y ≠ x ∧ (x, addr_x) ∈ agents ∧
              <[b:={[addr_a]} ∪ Nb]> (<[a:={[addr_b]} ∪ Na]> T) !! y = Some Ny ∧
              addr_x ∈ Ny) as Hold.
  { intros x N addr Hx Haddr.
    destruct (Hmut x N addr Hx Haddr) as (y & Ny & addr_x & ? & ? & ? & Hy & ?).
    destruct (Hmono y Ny Hy) as (Ny' & Hy' & Hsub).
    exists y, Ny', addr_x. split_and!; [done..|]. set_solver. }
  intros x N addr Hx Haddr.
  destruct (decide (x = b)) as [->|Hxb].
  - rewrite lookup_insert_eq in Hx. injection Hx as <-.
    apply elem_of_union in Haddr as [->%elem_of_singleton|Haddr].
    + exists a, ({[addr_b]} ∪ Na), addr_b. split_and!; [done..| |set_solver].
      rewrite lookup_insert_ne by done. by rewrite lookup_insert_eq.
    + by eapply Hold.
  - rewrite lookup_insert_ne in Hx by done.
    destruct (decide (x = a)) as [->|Hxa].
    + rewrite lookup_insert_eq in Hx. injection Hx as <-.
      apply elem_of_union in Haddr as [->%elem_of_singleton|Haddr].
      * exists b, ({[addr_a]} ∪ Nb), addr_a.
        split_and!; [done|done|done| |set_solver].
        by rewrite lookup_insert_eq.
      * by eapply Hold.
    + rewrite lookup_insert_ne in Hx by done. by eapply Hold.
Qed.

Section random_edges.
Context {rng : Type}.
Variable randbelow : rng → nat → nat * rng.
Hypothesis randbelow_lt : ∀ s n, (0 < n)%nat → ((randbelow s n).1 < n)%nat.
Variable agents : list (nat * string).
Variable L : list nat.
Hypothesis Hkeys : NoDup (fst <$> agents).
Hypothesis HL : L ≡ₚ fst <$> agents.
Hypothesis Hne : L ≠ [].

Lemma choice_Ok (rnd : rng) :
  ∃ a rnd', TopologyManager.choice randbelow rnd L = Ok (a, rnd') ∧ a ∈ L.
Proof.
  unfold TopologyManager.choice. rewrite decide_False by done.
  pose proof (randbelow_lt rnd (length L)) as Hlt.
  destruct (randbelow rnd (length L)) as [k rnd'] eqn:Hk. simpl in Hlt.
  destruct (lookup_lt_is_Some_2 L k) as [a Ha].
  { apply Hlt. destruct L; [done|simpl; lia]. }
  exists a, rnd'. rewrite Ha. simpl. split; [done|].
  by eapply list_elem_of_lookup_2.
Qed.

(** The random edges keep the topology mutual and only add neighbours. *)
Lemma add_random_loop_spec (count : nat) :
  ∀ (rnd : rng) (T : gmap nat (gset string)),
    (∀ a, a ∈ L → is_Some (T !! a)) →
    mutual agents T →
    ∃ T',
      TopologyManager._add_random_loop randbelow agents L count rnd T = Ok T' ∧
      dom T' = dom T ∧
      mutual agents T' ∧
      ∀ y Ny, T !! y = Some Ny → ∃ Ny', T' !! y = Some Ny' ∧ Ny ⊆ Ny'.
Proof.
  induction count as [|count IH]; intros rnd T HT Hmut.
  { exists T. simpl. split_and!; [done..|]. intros y Ny Hy. eauto. }
  simpl.
  destruct (choice_Ok rnd) as (a & rnd1 & -> & Ha). simpl.
  destruct (choice_Ok rnd1) as (b & rnd2 & -> & Hb). simpl.
  destruct (decide (a = b)) as [->|Hab]; [by apply IH|].
  destruct (agent_list_addr agents L Hkeys HL a Ha) as (addr_a & Hina & ->).
  destruct (agent_list_addr agents L Hkeys HL b Hb) as (addr_b & Hinb & ->).
  destruct (HT a Ha) as [Na HNa]. destruct (HT b Hb) as [Nb HNb].
  simpl. rewrite (add_neighbor_Ok T a addr_b Na HNa). simpl.
  rewrite (add_neighbor_Ok _ b addr_a Nb)
    by (by rewrite lookup_insert_ne).
  simpl.
  pose proof (add_edge_mono T a b addr_a addr_b Na Nb Hab HNa HNb) as Hmono.
  destruct (IH rnd2 (<[b:={[addr_a]} ∪ Nb]> (<[a:={[addr_b]} ∪ Na]> T)))
    as (T' & -> & Hdom & Hmut' & Hmono').
  { intros x Hx. destruct (HT x Hx) as [Nx HNx].
    destruct (Hmono x Nx HNx) as (? & -> & _). eauto. }
  { by eapply add_edge_mutual. }
  exists T'. split_and!; [done| |done|].
  - rewrite Hdom, !dom_insert_L.
    assert (a ∈ dom T) by (apply elem_of_dom; eauto).
    assert (b ∈ dom T) by (apply elem_of_dom; eauto). set_solver.
  - intros y Ny Hy. destruct (Hmono y Ny Hy) as (Ny1 & Hy1 & Hsub1).
    destruct (Hmono' y Ny1 Hy1) as (Ny2 & Hy2 & Hsub2).
    exists Ny2. split; [done|]. set_solver.
Qed.
End random_edges.

Section ring_results.
Variable agents : list (nat * string).
Variable L : list nat.
Hypothesis Hkeys : NoDup (fst <$> agents).
Hypothesis HL : L ≡ₚ fst <$> agents.

Lemma build_ring_Ok :
  L ≠ [] →
  ∃ T1,
    TopologyManager._build_ring agents L (Z.of_nat (length L))
      (list_to_map ((λ kv, (kv.1, ∅)) <$> agents)) = Ok T1 ∧
    dom T1 = list_to_set L ∧
    ring_of agents L T1.
Proof.
  intros Hne. set (T0 := list_to_map _).
  assert (∀ a, a ∈ L → T0 !! a = Some ∅) as HT0.
  { intros a Ha. unfold T0. rewrite empty_topology_lookup.
    rewrite decide_True; [done|]. by rewrite <- HL. }
  destruct (build_ring_loop_spec agents L Hkeys HL L [] T0 eq_refl)
    as (T1 & Hloop & Hdom & _ & Hspec).
  { intros a Ha. rewrite (HT0 a Ha). eauto. }
  exists T1. split_and!; [exact Hloop| |].
  - rewrite Hdom. apply set_eq. intros a.
    rewrite elem_of_dom, elem_of_list_to_set. unfold T0.
    rewrite empty_topology_lookup.
    assert (a ∈ L ↔ a ∈ agents.*1) as -> by (by rewrite HL).
    destruct (decide (a ∈ agents.*1)); split; try done; eauto.
  - intros k a Hk.
    destruct (Hspec k a Hk) as (N0 & l & r & al & ar & HN0 & Hl & Hr & ? & ? & HT).
    simpl in Hl, Hr.
    rewrite HT0 in HN0 by (by eapply list_elem_of_lookup_2).
    injection HN0 as <-. exists l, r, al, ar. by split_and!.
Qed.

Lemma ring_linked_succ (T : gmap nat (gset string)) (k : nat) (a b : nat) :
  ring_of agents L T →
  L !! k = Some a →
  L !! Z.to_nat ((Z.of_nat k + 1) mod Z.of_nat (length L)) = Some b →
  linked agents T a b.
Proof.
  intros Hring Hk Hb.
  destruct (Hring k a Hk) as (l & r & al & ar & _ & Hr & _ & Har & HT).
  assert (r = b) as -> by congruence.
  exists ar, ({[ar]} ∪ ({[al]} ∪ ∅)). split_and!; [done..|set_solver].
Qed.

Lemma ring_mutual (T : gmap nat (gset string)) :
  (2 ≤ length L)%nat → dom T = list_to_set L → ring_of agents L T →
  mutual agents T.
Proof.
  intros Hlen Hdom Hring a N addr Ha Haddr.
  pose proof (agent_list_NoDup agents L Hkeys HL) as Hnd.
  assert (a ∈ L) as Hin.
  { apply (elem_of_list_to_set (C:=gset nat)). rewrite <- Hdom.
    apply elem_of_dom. eauto. }
  apply list_elem_of_lookup in Hin as [k Hk].
  pose proof (lookup_lt_Some _ _ _ Hk) as Hk_lt.
  destruct (Hring k a Hk) as (l & r & al & ar & Hl & Hr & Hal & Har & HT).
  rewrite HT in Ha. injection Ha as <-.
  assert (addr = ar ∨ addr = al) as [-> | ->] by set_solver.
  - (* the right neighbour, whose left neighbour is [a] *)
    set (m := Z.to_nat ((Z.of_nat k + 1) mod Z.of_nat (length L))) in *.
    assert (Z.of_nat m = (Z.of_nat k + 1) mod Z.of_nat (length L)) as Hm.
    { unfold m. rewrite Z2Nat.id; [done|]. apply Z.mod_pos_bound. lia. }
    destruct (Hring m r Hr) as (l' & r' & al' & ar' & Hl' & _ & Hal' & _ & HT').
    rewrite Hm, ring_succ_pred, Nat2Z.id in Hl' by lia.
    assert (l' = a) as -> by congruence.
    exists r, ({[ar']} ∪ ({[al']} ∪ ∅)), al'.
    split_and!; [done| |done|done|set_solver].
    intros ->. assert (m = k) as Hmk by (by eapply NoDup_lookup).
    rewrite Hmk in Hm. symmetry in Hm. revert Hm. apply ring_succ_ne; lia.
  - (* the left neighbour, whose right neighbour is [a] *)
    set (m := Z.to_nat ((Z.of_nat k - 1) mod Z.of_nat (length L))) in *.
    assert (Z.of_nat m = (Z.of_nat k - 1) mod Z.of_nat (length L)) as Hm.
    { unfold m. rewrite Z2Nat.id; [done|]. apply Z.mod_pos_bound. lia. }
    destruct (Hring m l Hl) as (l' & r' & al' & ar' & _ & Hr' & _ & Har' & HT').
    rewrite Hm, ring_pred_succ, Nat2Z.id in Hr' by lia.
    assert (r' = a) as -> by congruence.
    exists l, ({[ar']} ∪ ({[al']} ∪ ∅)), ar'.
    split_and!; [done| |done|done|set_solver].
    intros ->. assert (m = k) as Hmk by (by eapply NoDup_lookup).
    rewrite Hmk in Hm. symmetry in Hm. revert Hm. apply ring_pred_ne; lia.
Qed.
End ring_results.

Lemma agents_key_inj (agents : list (nat * string)) (a : nat)
    (x y : string) :
  NoDup (fst <$> agents) → (a, x) ∈ agents → (a, y) ∈ agents → x = y.
Proof.
  intros Hnd [p Hp]%list_elem_of_lookup [q Hq]%list_elem_of_lookup.
  assert (p = q) as ->.
  { eapply NoDup_lookup; [exact Hnd | |]; rewrite list_lookup_fmap.
    - by rewrite Hp.
    - by rewrite Hq. }
  congruence.
Qed.

Lemma agents_addr_inj (agents : list (nat * string)) (a b : nat)
    (x : string) :
  NoDup (snd <$> agents) → (a, x) ∈ agents → (b, x) ∈ agents → a = b.
Proof.
  intros Hnd [p Hp]%list_elem_of_lookup [q Hq]%list_elem_of_lookup.
  assert (p = q) as ->.
  { eapply NoDup_lookup; [exact Hnd | |]; rewrite list_lookup_fmap.
    - by rewrite Hp.
    - by rewrite Hq. }
  congruence.
Qed.

Section contract.
Variable agents : list (nat * string).
Variable T : gmap nat (gset string).
Hypothesis Hkeys : NoDup (fst <$> agents).
Hypothesis Haddrs : NoDup (snd <$> agents).
Hypothesis Hmut : mutual agents T.

Lemma mutual_irreflexive (a : nat) (addr_a : string) (N : gset string) :
  (a, addr_a) ∈ agents → T !! a = Some N → addr_a ∉ N.
Proof.
  intros Hin HN Haddr.
  destruct (Hmut a N addr_a HN Haddr) as (b & _ & _ & Hb & Hne & _).
  apply Hne. by eapply agents_addr_inj.
Qed.

Lemma mutual_symmetric (a b : nat) (addr_a addr_b : string)
    (Na Nb : gset string) :
  (a, addr_a) ∈ agents → (b, addr_b) ∈ agents →
  T !! a = Some Na → T !! b = Some Nb →
  addr_b ∈ Na → addr_a ∈ Nb.
Proof.
  intros Hina Hinb HNa HNb Haddr.
  destruct (Hmut a Na addr_b HNa Haddr)
    as (b' & Nb' & addr_a' & Hb' & _ & Ha' & HNb' & Hin').
  assert (b' = b) as -> by (by eapply agents_addr_inj).
  assert (addr_a' = addr_a) as -> by (by eapply agents_key_inj).
  congruence.
Qed.

Lemma linked_sym (a b : nat) : linked agents T a b → linked agents T b a.
Proof.
  intros (addr_b & N & Hinb & HN & Haddr).
  destruct (Hmut a N addr_b HN Haddr)
    as (b' & Nb' & addr_a & Hb' & _ & Ha & HNb' & Hin').
  assert (b' = b) as -> by (by eapply agents_addr_inj).
  by exists addr_a, Nb'.
Qed.

Lemma rtc_linked_sym (a b : nat) :
  rtc (linked agents T) a b → rtc (linked agents T) b a.
Proof.
  induction 1 as [|x y z Hxy _ IH]; [done|].
  eapply rtc_r; [exact IH|]. by apply linked_sym.
Qed.

(** A ring inside a mutual topology connects all the agents. *)
Lemma ring_connected (L : list nat) :
  (∀ (k : nat) a b, L !! k = Some a →
     L !! Z.to_nat ((Z.of_nat k + 1) mod Z.of_nat (length L)) = Some b →
     linked agents T a b) →
  ∀ a b, a ∈ L → b ∈ L → rtc (linked agents T) a b.
Proof.
  intros Hsucc.
  assert (∀ (m : nat) a0 b, L !! 0%nat = Some a0 → L !! m = Some b →
            rtc (linked agents T) a0 b) as Hfrom0.
  { intros m a0. induction m as [|m IH]; intros b H0 Hm.
    - assert (b = a0) as -> by congruence. done.
    - pose proof (lookup_lt_Some _ _ _ Hm) as Hlt.
      destruct (lookup_lt_is_Some_2 L m) as [c Hc]; [lia|].
      eapply rtc_r; [by apply IH|].
      apply (Hsucc m c b Hc).
      rewrite ring_succ by lia. rewrite decide_False by lia.
      replace (Z.of_nat m + 1) with (Z.of_nat (S m)) by lia.
      by rewrite Nat2Z.id. }
  intros a b [ka Hka]%list_elem_of_lookup [kb Hkb]%list_elem_of_lookup.
  destruct (lookup_lt_is_Some_2 L 0) as [a0 H0].
  { apply lookup_lt_Some in Hka. lia. }
  etrans; [apply rtc_linked_sym|]; by eapply Hfrom0.
Qed.
End contract.

Section make_topology.
Context {rng : Type}.
Variable Random : option Z → rng.
Variable randbelow : rng → nat → nat * rng.
Hypothesis randbelow_lt : ∀ s n, (0 < n)%nat → ((randbelow s n).1 < n)%nat.

(** [make_topology] returns a mutual topology over the agents, which
    contains the ring when there are at least two agents and is empty for
    one agent. *)
Lemma make_topology_Ok (self : TopologyManager.t)
    (agents : list (nat * string)) :
  NoDup (fst <$> agents) → agents ≠ [] →
  let L := fst <$> TopologyManager.sorted_by_addr agents in
  ∃ T,
    TopologyManager.make_topology Random randbelow self agents
      = Ok (TopologyManager.mk (Some agents) (Some T)
              (TopologyManager._topology_phi self)
              (TopologyManager._topology_seed self), T) ∧
    dom T = list_to_set (fst <$> agents) ∧
    mutual agents T ∧
    ((2 ≤ length agents)%nat →
     ∀ (k : nat) a b, L !! k = Some a →
       L !! Z.to_nat ((Z.of_nat k + 1) mod Z.of_nat (length L)) = Some b →
       linked agents T a b) ∧
    (length agents = 1%nat →
     T = list_to_map ((λ kv, (kv.1, ∅)) <$> agents)).
Proof.
  intros Hkeys Hne L.
  assert (L ≡ₚ fst <$> agents) as HL.
  { unfold L. by rewrite sorted_by_addr_Permutation. }
  assert (length L = length agents) as Hlen.
  { rewrite HL. by rewrite length_fmap. }
  assert (L ≠ []) as HLne.
  { intros HL0. rewrite HL0 in Hlen. by destruct agents. }
  assert (list_to_set L = (list_to_set (fst <$> agents) : gset nat)) as Hset.
  { apply set_eq. intros a. rewrite !elem_of_list_to_set. by rewrite HL. }
  unfold TopologyManager.make_topology. fold L.
  set (T0 := list_to_map ((λ kv, (kv.1, ∅)) <$> agents)).
  destruct (decide (length agents = 1%nat)) as [H1|Hn1].
  - (* one agent *)
    exists T0. split_and!; [done| | |lia|done].
    + apply set_eq. intros a.
      rewrite elem_of_dom, elem_of_list_to_set. unfold T0.
      rewrite empty_topology_lookup.
      destruct (decide (a ∈ agents.*1)); split; try done; eauto.
    + intros a N addr HN Haddr. unfold T0 in HN.
      rewrite empty_topology_lookup in HN.
      destruct (decide (a ∈ agents.*1)); [|done].
      injection HN as <-. set_solver.
  - (* at least two agents: the ring, then the random edges *)
    assert (2 ≤ length agents)%nat as H2.
    { destruct agents as [|? [|? ?]]; simpl in *; try done; lia. }
    destruct (build_ring_Ok agents L Hkeys HL HLne)
      as (T1 & Hring & Hdom1 & Hring_of).
    rewrite Hlen in Hring. fold T0 in Hring. rewrite Hring. simpl.
    pose proof (ring_mutual agents L Hkeys HL T1 ltac:(lia) Hdom1 Hring_of)
      as Hmut1.
    unfold TopologyManager._add_random_topology.
    destruct (add_random_loop_spec randbelow randbelow_lt agents L Hkeys HL
                HLne
                (TopologyManager.n_draws (length L)
                   (TopologyManager._topology_phi self))
                (Random (TopologyManager._topology_seed self)) T1)
      as (T & Hrand & Hdom & Hmut & Hmono).
    { intros a Ha. apply elem_of_dom. rewrite Hdom1.
      by apply elem_of_list_to_set. }
    { exact Hmut1. }
    rewrite Hrand. simpl. exists T. split_and!; [done| |done| |lia].
    + by rewrite Hdom, Hdom1.
    + intros _ k a b Hk Hb.
      destruct (ring_linked_succ agents L Hkeys HL T1 k a b Hring_of Hk Hb)
        as (addr_b & N & Hinb & HN & Haddr).
      destruct (Hmono a N HN) as (N' & HN' & Hsub).
      exists addr_b, N'. split_and!; [done..|set_solver].
Qed.
End make_topology.

(** C8. For a non-empty dict of agents with distinct addresses,
    [make_topology] returns a topology over these agents that is
    irreflexive (no agent has its own address as a neighbour), symmetric
    (the address of [b] is a neighbour of [a] exactly when the address of
    [a] is a neighbour of [b]), connected when there are at least two
    agents, and that maps a single agent to the empty set; this holds for
    every [phi], every seed and every random generator. *)
Theorem make_topology_contract {rng : Type} (Random : option Z → rng)
    (randbelow : rng → nat → nat * rng) (self : TopologyManager.t)
    (agents : list (nat * string)) :
  (∀ s n, (0 < n)%nat → ((randbelow s n).1 < n)%nat) →
  NoDup (fst <$> agents) →
  NoDup (snd <$> agents) →
  agents ≠ [] →
  ∃ self' topology,
    TopologyManager.make_topology Random randbelow self agents
      = Ok (self', topology) ∧
    TopologyManager._topology self' = Some topology ∧
    TopologyManager._agent_addresses self' = Some agents ∧
    dom topology = list_to_set (fst <$> agents) ∧
    (∀ a addr_a N,
       (a, addr_a) ∈ agents → topology !! a = Some N → addr_a ∉ N) ∧
    (∀ a b addr_a addr_b Na Nb,
       (a, addr_a) ∈ agents → (b, addr_b) ∈ agents →
       topology !! a = Some Na → topology !! b = Some Nb →
       addr_b ∈ Na ↔ addr_a ∈ Nb) ∧
    ((2 ≤ length agents)%nat →
     ∀ a b, a ∈ fst <$> agents → b ∈ fst <$> agents →
       rtc (linked agents topology) a b) ∧
    (∀ a addr, agents = [(a, addr)] → topology = {[ a := ∅ ]}).
Proof.
  intros Hrand Hkeys Haddrs Hne.
  destruct (make_topology_Ok Random randbelow Hrand self agents Hkeys Hne)
    as (T & Hmake & Hdom & Hmut & Hring & Hsingle).
  eexists _, T. split_and!; [exact Hmake|done|done|done| | | |].
  - intros a addr_a N. by apply mutual_irreflexive.
  - intros a b addr_a addr_b Na Nb Hina Hinb HNa HNb. split.
    + by eapply (mutual_symmetric agents T Hkeys Haddrs Hmut a b).
    + by eapply (mutual_symmetric agents T Hkeys Haddrs Hmut b a).
  - intros H2 a b Ha Hb.
    apply (ring_connected agents T Haddrs Hmut
             (fst <$> TopologyManager.sorted_by_addr agents) (Hring H2)).
    + by rewrite sorted_by_addr_Permutation.
    + by rewrite sorted_by_addr_Permutation.
  - intros a addr ->. rewrite Hsingle by done. simpl.
    by rewrite insert_empty.
Qed.

Lemma make_topology_contract_witness :
  ∃ self' topology,
    TopologyManager.make_topology Sample.lcg_Random Sample.lcg_randbelow
      Sample.manager Sample.agents3 = Ok (self', topology) ∧
    TopologyManager._topology self' = Some topology ∧
    TopologyManager._agent_addresses self' = Some Sample.agents3 ∧
    dom topology = list_to_set (fst <$> Sample.agents3) ∧
    (∀ a addr_a N,
       (a, addr_a) ∈ Sample.agents3 → topology !! a = Some N → addr_a ∉ N) ∧
    (∀ a b addr_a addr_b Na Nb,
       (a, addr_a) ∈ Sample.agents3 → (b, addr_b) ∈ Sample.agents3 →
       topology !! a = Some Na → topology !! b = Some Nb →
       addr_b ∈ Na ↔ addr_a ∈ Nb) ∧
    ((2 ≤ length Sample.agents3)%nat →
     ∀ a b, a ∈ fst <$> Sample.agents3 → b ∈ fst <$> Sample.agents3 →
       rtc (linked Sample.agents3 topology) a b) ∧
    (∀ a addr, Sample.agents3 = [(a, addr)] → topology = {[ a := ∅ ]}).
Proof.
  apply (make_topology_contract Sample.lcg_Random Sample.lcg_randbelow
           Sample.manager Sample.agents3).
  - intros s n Hn. simpl. pose proof (Z.mod_pos_bound s (Z.of_nat n)). lia.
  - apply (bool_decide_unpack _). vm_compute. exact I.
  - apply (bool_decide_unpack _). vm_compute. exact I.
  - discriminate.
Defined.

(** ** The list of the connections *)

#[global] Instance pair_le_total : Total TopologyManager.pair_le.
Proof.
  intros p q. unfold TopologyManager.pair_le.
  destruct (String_ltb_total p.1 q.1) as [?|[Heq|?]]; [by left; left| |by right; left].
  destruct (String.leb_total p.2 q.2); [left|right]; right; done.
Qed.

#[global] Instance pair_le_trans : Transitive TopologyManager.pair_le.
Proof.
  intros p q r. unfold TopologyManager.pair_le.
  intros [Hpq|[Hpq Hpq2]] [Hqr|[Hqr Hqr2]].
  - left. by eapply String_ltb_trans.
  - left. by rewrite <- Hqr.
  - left. by rewrite Hpq.
  - right. split; [congruence|].
    apply String_leb_ltb in Hpq2 as [Hlt1|Heq1];
      apply String_leb_ltb in Hqr2 as [Hlt2|Heq2]; apply String_leb_ltb.
    + left. by eapply String_ltb_trans.
    + left. by rewrite <- Heq2.
    + left. by rewrite Heq1.
    + right. congruence.
Qed.

Section connections.
Variable agents : list (nat * string).
Variable agent_names : gmap string string.

Lemma connection_Ok (agent_addr others_addr name_a name_o : string) :
  agent_names !! agent_addr = Some name_a →
  agent_names !! others_addr = Some name_o →
  TopologyManager.connection agent_names agent_addr others_addr
  = Ok (if String.ltb agent_addr others_addr then (name_a, name_o)
        else (name_o, name_a)).
Proof.
  intros Ha Ho. unfold TopologyManager.connection. rewrite Ha, Ho. simpl.
  by destruct (String.ltb agent_addr others_addr).
Qed.

Lemma connections_of_spec (agent_addr : string) (remotes : list string) :
  is_Some (agent_names !! agent_addr) →
  (∀ o, o ∈ remotes → is_Some (agent_names !! o)) →
  ∀ S : gset (string * string),
  ∃ S',
    TopologyManager.connections_of agent_names agent_addr remotes S = Ok S' ∧
    ∀ p, p ∈ S' ↔
      p ∈ S ∨ ∃ o, o ∈ remotes ∧
        TopologyManager.connection agent_names agent_addr o = Ok p.
Proof.
  intros [name_a Ha] Hnames.
  induction remotes as [|o remotes IH]; intros S; simpl.
  - exists S. split; [done|]. intros p. split; [auto|].
    intros [?|(o & Ho & _)]; [done|]. by apply elem_of_nil in Ho.
  - destruct (Hnames o) as [name_o Ho]; [by left|].
    rewrite (connection_Ok _ _ _ _ Ha Ho). simpl.
    destruct (IH (λ o' Ho', Hnames o' (list_elem_of_further _ _ _ Ho'))
                ({[if String.ltb agent_addr o then (name_a, name_o)
                   else (name_o, name_a)]} ∪ S)) as (S' & -> & HS').
    exists S'. split; [done|]. intros p. rewrite HS'. split.
    + intros [[->%elem_of_singleton|?]%elem_of_union|(o' & Ho' & Hc)].
      * right. exists o. split; [by left|].
        by rewrite (connection_Ok _ _ _ _ Ha Ho).
      * by left.
      * right. exists o'. split; [by right|done].
    + intros [?|(o' & [->|Ho']%elem_of_cons & Hc)].
      * left. set_solver.
      * left. rewrite (connection_Ok _ _ _ _ Ha Ho) in Hc.
        injection Hc as <-. set_solver.
      * right. by exists o'.
Qed.

Lemma connections_loop_spec (items : list (nat * gset string)) :
  (∀ a N, (a, N) ∈ items →
     ∃ addr, TopologyManager.dict_get agents a = Ok addr ∧
       is_Some (agent_names !! addr) ∧
       ∀ o, o ∈ N → is_Some (agent_names !! o)) →
  ∀ S : gset (string * string),
  ∃ S',
    TopologyManager.connections_loop agents agent_names items S = Ok S' ∧
    ∀ p, p ∈ S' ↔
      p ∈ S ∨ ∃ a N addr o, (a, N) ∈ items ∧
        TopologyManager.dict_get agents a = Ok addr ∧ o ∈ N ∧
        TopologyManager.connection agent_names addr o = Ok p.
Proof.
  induction items as [|[a N] items IH]; intros Hitems S; simpl.
  - exists S. split; [done|]. intros p. split; [auto|].
    intros [?|(a & N & addr & o & Hin & _)]; [done|].
    by apply elem_of_nil in Hin.
  - destruct (Hitems a N) as (addr & Hget & Hname & Hnames); [by left|].
    rewrite Hget. simpl.
    destruct (connections_of_spec addr (elements N) Hname) with (S := S)
      as (S1 & -> & HS1).
    { intros o Ho. apply Hnames. by apply elem_of_elements. }
    simpl.
    destruct (IH (λ a' N' Hin, Hitems a' N' (list_elem_of_further _ _ _ Hin)) S1)
      as (S' & -> & HS').
    exists S'. split; [done|]. intros p. rewrite HS', HS1. split.
    + intros [[?|(o & Ho%elem_of_elements & Hc)]|
              (a' & N' & addr' & o & Hin & Hget' & Ho & Hc)].
      * by left.
      * right. exists a, N, addr, o. split_and!; [by left|done..].
      * right. exists a', N', addr', o. split_and!; [by right|done..].
    + intros [?|(a' & N' & addr' & o & [[= -> ->]|Hin]%elem_of_cons
                 & Hget' & Ho & Hc)].
      * left. by left.
      * left. right. exists o. split; [by apply elem_of_elements|].
        congruence.
      * right. exists a', N', addr', o. done.
Qed.
End connections.

(** C3, as stated, fails: the three sample agents are linked in a ring, and
    the list holds the pair [("zeta", "alpha")], whose first name is not
    the smaller one; the agent named ["zeta"] has the smaller address. *)
Lemma topology_as_list_not_by_name :
  (∃ topology,
     TopologyManager.make_topology Sample.lcg_Random Sample.lcg_randbelow
       Sample.manager Sample.agents3 = Ok (Sample.manager3, topology)) ∧
  TopologyManager.topology_as_list Sample.manager3 Sample.names3
    = Ok [("alpha", "mid"); ("zeta", "alpha"); ("zeta", "mid")] ∧
  ¬ (∀ l, TopologyManager.topology_as_list Sample.manager3 Sample.names3
            = Ok l →
          Forall (λ p : string * string, String.ltb p.1 p.2 = true) l).
Proof.
  assert (TopologyManager.topology_as_list Sample.manager3 Sample.names3
          = Ok [("alpha", "mid"); ("zeta", "alpha"); ("zeta", "mid")]) as Hl.
  { vm_compute. reflexivity. }
  split_and!.
  - vm_compute. eexists. reflexivity.
  - exact Hl.
  - intros Hall. specialize (Hall _ Hl).
    apply Forall_cons in Hall as [_ Hall].
    apply Forall_cons in Hall as [Hzeta _].
    vm_compute in Hzeta. discriminate.
Qed.

(** C3, amended.  For a topology built by [make_topology] (agents with
    distinct addresses, each with a name), [topology_as_list] returns the
    edge set as a sorted list without duplicates of pairs of names; a pair
    is in the list exactly when it consists of the names of two linked
    agents, the name of the agent with the smaller address first: the
    addresses, not the names, determine the order within a pair. *)
Theorem topology_as_list_by_address {rng : Type} (Random : option Z → rng)
    (randbelow : rng → nat → nat * rng) (self : TopologyManager.t)
    (agents : list (nat * string)) (agent_names : gmap string string) :
  (∀ s n, (0 < n)%nat → ((randbelow s n).1 < n)%nat) →
  NoDup (fst <$> agents) →
  NoDup (snd <$> agents) →
  agents ≠ [] →
  (∀ a addr, (a, addr) ∈ agents → is_Some (agent_names !! addr)) →
  ∃ self' topology l,
    TopologyManager.make_topology Random randbelow self agents
      = Ok (self', topology) ∧
    TopologyManager.topology_as_list self' agent_names = Ok l ∧
    Sorted TopologyManager.pair_le l ∧
    NoDup l ∧
    ∀ p, p ∈ l ↔
      ∃ a b addr_a addr_b,
        (a, addr_a) ∈ agents ∧ (b, addr_b) ∈ agents ∧
        linked agents topology a b ∧
        String.ltb addr_a addr_b = true ∧
        agent_names !! addr_a = Some p.1 ∧
        agent_names !! addr_b = Some p.2.
Proof.
  intros Hrand Hkeys Haddrs Hne Hnames.
  destruct (make_topology_Ok Random randbelow Hrand self agents Hkeys Hne)
    as (T & Hmake & Hdom & Hmut & _ & _).
  assert (∀ a N, T !! a = Some N → ∃ addr, (a, addr) ∈ agents) as Hagent.
  { intros a N HN.
    assert (a ∈ fst <$> agents) as Ha.
    { apply (elem_of_list_to_set (C:=gset nat)). rewrite <- Hdom.
      apply elem_of_dom. eauto. }
    apply list_elem_of_fmap in Ha as ([a' addr] & -> & Hin). eauto. }
  destruct (connections_loop_spec agents agent_names (map_to_list T))
    with (S := (∅ : gset (string * string))) as (S & Hloop & HS).
  { intros a N HN%elem_of_map_to_list.
    destruct (Hagent a N HN) as [addr Hin].
    exists addr. split_and!; [by apply dict_get_Ok|by eapply Hnames|].
    intros o Ho. destruct (Hmut a N o HN Ho) as (b & _ & _ & Hb & _).
    by eapply Hnames. }
  eexists _, T, _. split_and!.
  - exact Hmake.
  - unfold TopologyManager.topology_as_list. simpl. rewrite Hloop. simpl.
    reflexivity.
  - apply Sorted_merge_sort; apply _.
  - rewrite merge_sort_Permutation. apply NoDup_elements.
  - intros p. rewrite merge_sort_Permutation, elem_of_elements, HS. split.
    + intros [?|(a & N & addr & o & HN%elem_of_map_to_list & Hget & Ho & Hc)];
        [set_solver|].
      apply dict_get_elem_of in Hget.
      destruct (Hmut a N o HN Ho)
        as (b & Nb & addr' & Hb & Hba & Ha' & HNb & Hab).
      assert (addr' = addr) as -> by (by eapply agents_key_inj).
      destruct (Hnames a addr Hget) as [name_a Hna].
      destruct (Hnames b o Hb) as [name_o Hno].
      rewrite (connection_Ok _ _ _ _ _ Hna Hno) in Hc. injection Hc as <-.
      destruct (String.ltb addr o) eqn:Hlt.
      * exists a, b, addr, o. split_and!; try done. by exists o, N.
      * exists b, a, o, addr. split_and!; try done.
        -- by exists addr, Nb.
        -- destruct (String_ltb_total addr o) as [?|[->|?]]; [congruence| |done].
           exfalso. apply Hba. by eapply agents_addr_inj.
    + intros (a & b & addr_a & addr_b & Ha & Hb & (addr_b' & N & Hb' & HN & Hin)
              & Hlt & Hna & Hnb).
      assert (addr_b' = addr_b) as -> by (by eapply agents_key_inj).
      right. exists a, N, addr_a, addr_b.
      split_and!; [by apply elem_of_map_to_list|by apply dict_get_Ok|done|].
      rewrite (connection_Ok _ _ _ _ _ Hna Hnb), Hlt. by destruct p.
Qed.

Lemma topology_as_list_by_address_witness :
  ∃ self' topology l,
    TopologyManager.make_topology Sample.lcg_Random Sample.lcg_randbelow
      Sample.manager Sample.agents3 = Ok (self', topology) ∧
    TopologyManager.topology_as_list self' Sample.names3 = Ok l ∧
    Sorted TopologyManager.pair_le l ∧
    NoDup l ∧
    ∀ p, p ∈ l ↔
      ∃ a b addr_a addr_b,
        (a, addr_a) ∈ Sample.agents3 ∧ (b, addr_b) ∈ Sample.agents3 ∧
        linked Sample.agents3 topology a b ∧
        String.ltb addr_a addr_b = true ∧
        Sample.names3 !! addr_a = Some p.1 ∧
        Sample.names3 !! addr_b = Some p.2.
Proof.
  apply (topology_as_list_by_address Sample.lcg_Random Sample.lcg_randbelow
           Sample.manager Sample.agents3 Sample.names3).
  - intros s n Hn. simpl. pose proof (Z.mod_pos_bound s (Z.of_nat n)). lia.
  - apply (bool_decide_unpack _). vm_compute. exact I.
  - apply (bool_decide_unpack _). vm_compute. exact I.
  - discriminate.
  - intros a addr Hin. unfold Sample.agents3 in Hin.
    repeat (apply elem_of_cons in Hin as [[= -> ->]|Hin];
            [vm_compute; eauto|]).
    by apply elem_of_nil in Hin.
Defined.

(** * Further properties *)

(** ** [SystemConfig.merge]: which data it keeps *)

Section sysconf_merge_data.
Context {N : Numeric}.
Implicit Types (x y : SystemConfig.t) (st : SystemConfig.locals).

Lemma SystemConfig_data_not_dom x (a : string) :
  a ∉ dom (SystemConfig.idx x) → SystemConfig.data x a = Err KeyError.
Proof.
  intros Ha%not_elem_of_dom. unfold SystemConfig.data. by rewrite Ha.
Qed.

Lemma SystemConfig_merge_entry_value x y (a : string) st (m : bool)
    (os2 : option (list num)) (sid2 : option Z) (c2 : Z) :
  SystemConfig.merge_entry x y a st = Ok (m, os2, sid2, c2) →
  a ∈ dom (SystemConfig.idx x) ∨
    (∃ dj, SystemConfig.data y a = Ok dj ∧ 0 ≤ SystemConfig.count dj) →
  ∃ d, newer_of x y a d ∧ os2 = Some (SystemConfig.os d) ∧
       sid2 = Some (SystemConfig.sid d) ∧ c2 = SystemConfig.count d.
Proof.
  unfold SystemConfig.merge_entry, newer_of. intros Hentry Hcond.
  destruct (decide (a ∈ dom (SystemConfig.idx x))) as [Hi|Hi].
  - destruct (SystemConfig.data x a) as [di|e] eqn:Hdi; simpl in Hentry;
      [|done].
    destruct (decide (a ∈ dom (SystemConfig.idx y))) as [Hj|Hj].
    + destruct (SystemConfig.data y a) as [dj|e] eqn:Hdj; simpl in Hentry;
        [|done].
      case_bool_decide; injection Hentry as <- <- <- <-; eauto.
    + rewrite (SystemConfig_data_not_dom y a Hj).
      injection Hentry as <- <- <- <-. eauto.
  - rewrite (SystemConfig_data_not_dom x a Hi). simpl in Hentry.
    destruct Hcond as [?|(dj & Hdj & Hnn)]; [done|].
    rewrite decide_True in Hentry by (by eapply SystemConfig_data_dom).
    rewrite Hdj in *. simpl in Hentry.
    rewrite bool_decide_eq_true_2 in Hentry by lia.
    injection Hentry as <- <- <- <-. eauto.
Qed.

(** The loop, position by position: the agent at position [k] of the keys
    gets the index [i + k], and the buffers hold its entry there. *)
Lemma SystemConfig_merge_loop_at x y (keys : list string) (i : nat) st st' :
  SystemConfig.merge_loop x y keys i st = Ok st' →
  NoDup keys →
  length (SystemConfig.cs_buf st) = i →
  length (SystemConfig.sids_buf st) = i →
  length (SystemConfig.cnt_buf st) = i →
  (∀ p, (p < i)%nat →
     SystemConfig.cs_buf st' !! p = SystemConfig.cs_buf st !! p ∧
     SystemConfig.sids_buf st' !! p = SystemConfig.sids_buf st !! p ∧
     SystemConfig.cnt_buf st' !! p = SystemConfig.cnt_buf st !! p) ∧
  (∀ b, b ∉ keys →
     SystemConfig.idx_map st' !! b = SystemConfig.idx_map st !! b) ∧
  ∀ (k : nat) a, keys !! k = Some a →
    ∃ st_k m os2 sid2 c2,
      SystemConfig.merge_entry x y a st_k = Ok (m, os2, Some sid2, c2) ∧
      SystemConfig.idx_map st' !! a = Some (i + k)%nat ∧
      SystemConfig.cs_buf st' !! (i + k)%nat = Some os2 ∧
      SystemConfig.sids_buf st' !! (i + k)%nat = Some sid2 ∧
      SystemConfig.cnt_buf st' !! (i + k)%nat = Some c2.
Proof.
  revert i st.
  induction keys as [|a keys IH]; intros i st Hloop Hnd Hcs Hsids Hcnt.
  { simpl in Hloop. injection Hloop as <-. split_and!; [done..|].
    intros k a Hk. done. }
  simpl in Hloop. apply bind_Ok in Hloop as (st1 & Hstep & Hloop).
  apply SystemConfig_merge_step_Ok in Hstep as (os2 & sid & c2 & Hentry & Hst1).
  apply NoDup_cons in Hnd as [Ha Hnd].
  assert (length (SystemConfig.cs_buf st1) = S i) as Hcs1
    by (rewrite Hst1; simpl; rewrite length_app; simpl; lia).
  assert (length (SystemConfig.sids_buf st1) = S i) as Hsids1
    by (rewrite Hst1; simpl; rewrite length_app; simpl; lia).
  assert (length (SystemConfig.cnt_buf st1) = S i) as Hcnt1
    by (rewrite Hst1; simpl; rewrite length_app; simpl; lia).
  destruct (IH (S i) st1 Hloop Hnd Hcs1 Hsids1 Hcnt1) as (Lpre & Lidx & Lat).
  split_and!.
  - intros p Hp. destruct (Lpre p) as (-> & -> & ->); [lia|].
    rewrite Hst1. simpl. rewrite !lookup_app_l by lia. done.
  - intros b Hb. apply not_elem_of_cons in Hb as [Hba Hb].
    rewrite (Lidx b Hb), Hst1. simpl. by rewrite lookup_insert_ne.
  - intros k b Hk. destruct k as [|k]; simpl in Hk.
    + injection Hk as <-. rewrite Nat.add_0_r.
      exists st, (SystemConfig.modified st1), os2, sid, c2.
      destruct (Lpre i) as (-> & -> & ->); [lia|].
      rewrite (Lidx a Ha).
      assert (SystemConfig.idx_map st1 !! a = Some i) as ->
        by (rewrite Hst1; simpl; by rewrite lookup_insert_eq).
      assert (SystemConfig.cs_buf st1 !! i = Some os2) as ->
        by (rewrite Hst1; simpl; by rewrite <- Hcs, list_lookup_middle).
      assert (SystemConfig.sids_buf st1 !! i = Some sid) as ->
        by (rewrite Hst1; simpl; by rewrite <- Hsids, list_lookup_middle).
      assert (SystemConfig.cnt_buf st1 !! i = Some c2) as ->
        by (rewrite Hst1; simpl; by rewrite <- Hcnt, list_lookup_middle).
      done.
    + destruct (Lat k b Hk) as (st_k & m & os' & sid' & c' & ? & ? & ? & ? & ?).
      replace (i + S k)%nat with (S i + k)%nat by lia.
      by exists st_k, m, os', sid', c'.
Qed.
End sysconf_merge_data.

Section sysconf_merge_built.
Context {N : Numeric}.
Implicit Types (x y : SystemConfig.t) (st : SystemConfig.locals).

(** The configuration that [merge] builds: the agent at position [k] of the
    sorted names has the index [k] and the newer data. *)
Lemma SystemConfig_merge_built x y st (rows : list (list num)) :
  SystemConfig.wf x → SystemConfig.wf y →
  let keys := sorted (elements (dom (SystemConfig.idx x) ∪
                                dom (SystemConfig.idx y))) in
  SystemConfig.merge_loop x y keys 0 SystemConfig.locals0 = Ok st →
  SystemConfig.np_array (SystemConfig.cs_buf st) = Ok rows →
  length rows = length keys ∧
  length (SystemConfig.sids_buf st) = length keys ∧
  length (SystemConfig.cnt_buf st) = length keys ∧
  dom (SystemConfig.idx_map st) = list_to_set keys ∧
  ∀ (k : nat) a, keys !! k = Some a →
    SystemConfig.idx_map st !! a = Some k ∧
    ∃ d, newer_of x y a d ∧
      rows !! k = Some (SystemConfig.os d) ∧
      SystemConfig.sids_buf st !! k = Some (SystemConfig.sid d) ∧
      SystemConfig.cnt_buf st !! k = Some (SystemConfig.count d).
Proof.
  intros Hwx Hwy keys Hloop Hrows.
  pose proof Hloop as Hpost.
  apply SystemConfig_merge_loop_Ok in Hpost
    as (Lcs & Lsids & Lcnt & _ & _ & Ldom & _);
    [|apply NoDup_sorted_elements|done..].
  pose proof Hloop as Hat.
  apply SystemConfig_merge_loop_at in Hat as (_ & _ & Lat);
    [|apply NoDup_sorted_elements|done..].
  unfold SystemConfig.np_array in Hrows. apply or_raise_Ok in Hrows.
  pose proof (length_mapM _ _ _ Hrows) as Hlen.
  apply mapM_Some_1 in Hrows.
  simpl in Lcs, Lsids, Lcnt, Ldom.
  rewrite dom_empty_L, (left_id_L ∅ (∪)) in Ldom.
  split_and!; [lia|lia|lia|done|].
  intros k a Hk.
  destruct (Lat k a Hk) as (st_k & m & os2 & sid2 & c2 & Hentry & Hidx & Hcs
                            & Hsids & Hcnt).
  simpl in Hidx, Hcs, Hsids, Hcnt. split; [done|].
  assert (a ∈ dom (SystemConfig.idx x) ∪ dom (SystemConfig.idx y)) as Ha.
  { apply elem_of_sorted_elements. by eapply list_elem_of_lookup_2. }
  destruct (SystemConfig_merge_entry_value x y a st_k m os2 (Some sid2) c2
              Hentry) as (d & Hnewer & -> & [= ->] & ->).
  { destruct (decide (a ∈ dom (SystemConfig.idx x))) as [|Hn]; [by left|].
    right. apply SystemConfig_data_Ok; [done|]. set_solver. }
  exists d. split_and!; [done| |done|done].
  destruct (Forall2_lookup_l _ _ _ _ _ Hrows Hcs) as (row & Hrow & [= <-]).
  done.
Qed.

(** The newer data of an agent are data of one of the two configurations. *)
Lemma newer_of_cases x y (a : string) (d : SystemConfig.Data) :
  newer_of x y a d →
  SystemConfig.data x a = Ok d ∨ SystemConfig.data y a = Ok d.
Proof.
  unfold newer_of.
  destruct (SystemConfig.data x a) as [di|], (SystemConfig.data y a) as [dj|];
    try done; try (intros ->; auto).
  case_bool_decide; auto.
Qed.
End sysconf_merge_built.

Section sysconf_merge_cases.
Context {N : Numeric} {NL : NumericLaws N}.
Implicit Types (x y : SystemConfig.t).

(** The two ways [merge] returns on well-formed configurations: the
    instance [sysconf_i] when [sysconf_j] has nothing newer, a new
    configuration built from the buffers when it has. *)
Lemma SystemConfig_merge_wf_cases (h : heap SystemConfig.t) (i j : ref) x y :
  h !! i = Some x → h !! j = Some y →
  SystemConfig.wf x → SystemConfig.wf y →
  let keys := sorted (elements (dom (SystemConfig.idx x) ∪
                                dom (SystemConfig.idx y))) in
  ∃ st, SystemConfig.merge_loop x y keys 0 SystemConfig.locals0 = Ok st ∧
    ((SystemConfig.modified st = false ∧
      SystemConfig.merge h i j = Ok (h, i) ∧
      ∀ a, a ∈ dom (SystemConfig.idx y) →
        ∃ di dj, SystemConfig.data x a = Ok di ∧
          SystemConfig.data y a = Ok dj ∧
          SystemConfig.count dj ≤ SystemConfig.count di) ∨
     (SystemConfig.modified st = true ∧
      ∃ rows, SystemConfig.np_array (SystemConfig.cs_buf st) = Ok rows ∧
        SystemConfig.merge h i j =
          Ok (h ++ [SystemConfig.mk (SystemConfig.idx_map st) rows
                      (SystemConfig.sids_buf st) (SystemConfig.cnt_buf st)],
              length h) ∧
        ∃ a dj, SystemConfig.data y a = Ok dj ∧
          ∀ di, SystemConfig.data x a = Ok di →
            SystemConfig.count di < SystemConfig.count dj)).
Proof.
  intros Hi Hj Hwx Hwy keys.
  destruct (SystemConfig_merge_total h i j x y Hi Hj Hwx Hwy) as (h' & r & Hm).
  pose proof (SystemConfig_merge_cases h i j x y Hi Hj) as Hout.
  rewrite Hm in Hout. simpl in Hout. destruct Hout as (st & Hloop & Hcase).
  exists st. split; [done|].
  pose proof Hloop as Hpost.
  apply SystemConfig_merge_loop_Ok in Hpost
    as (_ & _ & _ & _ & _ & _ & _ & _ & Ltook & Lkept);
    [|apply NoDup_sorted_elements|done..].
  destruct Hcase as [(Hmod & -> & ->)|(Hmod & rows & Hrows & -> & ->)].
  - left. split_and!; [done..|]. intros a Ha.
    assert (kept_i x y a) as Hkept.
    { apply Lkept; [done|]. apply elem_of_sorted_elements. set_solver. }
    destruct (Hkept Ha) as (dj & Hdj & Hcase).
    destruct (decide (a ∈ dom (SystemConfig.idx x))) as [Hax|Hax].
    + destruct Hcase as (di & Hdi & Hle). by exists di, dj.
    + destruct (SystemConfig_data_Ok y a Hwy Ha) as (dj' & Hdj' & Hnn).
      assert (dj' = dj) as -> by congruence. lia.
  - right. split; [done|]. exists rows. split_and!; [done..|].
    destruct (Ltook Hmod) as [?|(a & p & c2 & _ & _ & _ & dj & Hdj & -> & Hlt)];
      [done|].
    exists a, dj. split; [done|]. intros di Hdi.
    destruct Hlt as (di' & Hdi' & Hlt); [by eapply SystemConfig_data_dom|].
    congruence.
Qed.
End sysconf_merge_cases.

Lemma SystemConfig_data_wf `{Numeric} (x : SystemConfig.t) (a : string)
    (d : SystemConfig.Data) :
  SystemConfig.wf x → SystemConfig.data x a = Ok d →
  length (SystemConfig.os d) = width (SystemConfig.cs x) ∧
  0 ≤ SystemConfig.count d.
Proof.
  intros (_ & _ & _ & _ & _ & Hrows & Hnn) Hd. unfold SystemConfig.data in Hd.
  apply bind_Ok in Hd as (i & Hi%or_raise_Ok & Hd).
  apply bind_Ok in Hd as (row & Hrow%or_raise_Ok & Hd).
  apply bind_Ok in Hd as (s0 & Hs0%or_raise_Ok & Hd).
  apply bind_Ok in Hd as (c0 & Hc0%or_raise_Ok & [= <-]). simpl. split.
  - by eapply width_lookup.
  - by eapply (Forall_lookup_1 _ _ _ _ Hnn Hc0).
Qed.

(** What [merge] returns on well-formed configurations: an object over the
    union of the key sets that holds, for each agent, the newer data. *)
Lemma SystemConfig_merge_result {N : Numeric} {NL : NumericLaws N}
    (h : heap SystemConfig.t) (i j : ref) (x y : SystemConfig.t) :
  h !! i = Some x → h !! j = Some y →
  SystemConfig.wf x → SystemConfig.wf y →
  ∃ h' r z,
    SystemConfig.merge h i j = Ok (h', r) ∧ h' !! r = Some z ∧
    dom (SystemConfig.idx z)
      = dom (SystemConfig.idx x) ∪ dom (SystemConfig.idx y) ∧
    ∀ a, a ∈ dom (SystemConfig.idx x) ∪ dom (SystemConfig.idx y) →
      ∃ d, SystemConfig.data z a = Ok d ∧ newer_of x y a d.
Proof.
  intros Hi Hj Hwx Hwy.
  destruct (SystemConfig_merge_wf_cases h i j x y Hi Hj Hwx Hwy)
    as (st & Hloop & [(_ & Hm & Hkept)|(_ & rows & Hrows & Hm & _)]).
  - exists h, i, x. split_and!; [done..| |].
    + apply set_eq. intros a. rewrite elem_of_union. split; [auto|].
      intros [?|Ha]; [done|]. destruct (Hkept a Ha) as (di & _ & Hdi & _).
      by eapply SystemConfig_data_dom.
    + intros a Ha.
      destruct (decide (a ∈ dom (SystemConfig.idx y))) as [Hay|Hay].
      * destruct (Hkept a Hay) as (di & dj & Hdi & Hdj & Hle).
        exists di. split; [done|]. unfold newer_of. rewrite Hdi, Hdj.
        by rewrite bool_decide_eq_false_2 by lia.
      * destruct (SystemConfig_data_Ok x a Hwx) as (di & Hdi & _);
          [set_solver|].
        exists di. split; [done|]. unfold newer_of.
        by rewrite Hdi, (SystemConfig_data_not_dom y a Hay).
  - eexists _, _, _. split_and!; [done|by rewrite list_lookup_middle| |].
    + destruct (SystemConfig_merge_built x y st rows Hwx Hwy Hloop Hrows)
        as (_ & _ & _ & Hdom & _).
      simpl. rewrite Hdom. apply list_to_set_sorted_elements.
    + destruct (SystemConfig_merge_built x y st rows Hwx Hwy Hloop Hrows)
        as (_ & _ & _ & _ & Hat).
      intros a Ha. apply elem_of_sorted_elements in Ha.
      apply list_elem_of_lookup in Ha as [k Hk].
      destruct (Hat k a Hk) as (Hidx & d & Hnewer & Hrow & Hsid & Hcnt).
      exists d. split; [|done].
      unfold SystemConfig.data. simpl. rewrite Hidx. simpl.
      rewrite Hrow, Hsid, Hcnt. simpl. by destruct d.
Qed.

(** X1. On well-formed configurations over numbers without a NaN (the laws
    [NumericLaws]: [==] is reflexive, so that the closing assertion of the
    merge holds), [SystemConfig.merge(x, y)] returns, and the key set of
    its result is the union of the key sets of [x] and [y]: no agent is
    lost, also when the merge returns [x] itself. *)
Theorem SystemConfig_merge_keys {N : Numeric} {NL : NumericLaws N}
    (h : heap SystemConfig.t) (i j : ref) (x y : SystemConfig.t) :
  h !! i = Some x → h !! j = Some y →
  SystemConfig.wf x → SystemConfig.wf y →
  ∃ h' r z,
    SystemConfig.merge h i j = Ok (h', r) ∧ h' !! r = Some z ∧
    dom (SystemConfig.idx z)
      = dom (SystemConfig.idx x) ∪ dom (SystemConfig.idx y).
Proof.
  intros Hi Hj Hwx Hwy.
  destruct (SystemConfig_merge_result h i j x y Hi Hj Hwx Hwy)
    as (h' & r & z & Hm & Hz & Hdom & _).
  by exists h', r, z.
Qed.

Lemma SystemConfig_merge_keys_witness :
  ∃ h' r z,
    @SystemConfig.merge Z_numeric [Sample.sc_ab; Sample.sc_bc] 0%nat 1%nat
      = Ok (h', r) ∧ h' !! r = Some z ∧
    dom (SystemConfig.idx z)
      = dom (SystemConfig.idx Sample.sc_ab) ∪
        dom (SystemConfig.idx Sample.sc_bc).
Proof.
  apply (@SystemConfig_merge_keys Z_numeric Z_numeric_laws
           [Sample.sc_ab; Sample.sc_bc] 0%nat 1%nat Sample.sc_ab Sample.sc_bc).
  - reflexivity.
  - reflexivity.
  - apply (bool_decide_unpack _). vm_compute. exact I.
  - apply (bool_decide_unpack _). vm_compute. exact I.
Defined.

(** X2. On well-formed configurations, [SystemConfig.merge(x, y)] holds for
    every agent of [x] or [y] the complete data (row, schedule id, counter)
    of one side: those of [y] when [y] knows the agent with a strictly
    larger counter than [x] or [x] does not know it, those of [x]
    otherwise (on equal counters [x] wins). *)
Theorem SystemConfig_merge_takes_newer {N : Numeric} {NL : NumericLaws N}
    (h : heap SystemConfig.t) (i j : ref) (x y : SystemConfig.t) :
  h !! i = Some x → h !! j = Some y →
  SystemConfig.wf x → SystemConfig.wf y →
  ∃ h' r z,
    SystemConfig.merge h i j = Ok (h', r) ∧ h' !! r = Some z ∧
    ∀ a, a ∈ dom (SystemConfig.idx x) ∪ dom (SystemConfig.idx y) →
      ∃ d, SystemConfig.data z a = Ok d ∧ newer_of x y a d.
Proof.
  intros Hi Hj Hwx Hwy.
  destruct (SystemConfig_merge_result h i j x y Hi Hj Hwx Hwy)
    as (h' & r & z & Hm & Hz & _ & Hdata).
  by exists h', r, z.
Qed.

Lemma SystemConfig_merge_takes_newer_witness :
  ∃ h' r z,
    @SystemConfig.merge Z_numeric [Sample.sc_ab; Sample.sc_bc] 0%nat 1%nat
      = Ok (h', r) ∧ h' !! r = Some z ∧
    ∀ a, a ∈ dom (SystemConfig.idx Sample.sc_ab) ∪
             dom (SystemConfig.idx Sample.sc_bc) →
      ∃ d, SystemConfig.data z a = Ok d ∧
           newer_of Sample.sc_ab Sample.sc_bc a d.
Proof.
  apply (@SystemConfig_merge_takes_newer Z_numeric Z_numeric_laws
           [Sample.sc_ab; Sample.sc_bc] 0%nat 1%nat Sample.sc_ab Sample.sc_bc).
  - reflexivity.
  - reflexivity.
  - apply (bool_decide_unpack _). vm_compute. exact I.
  - apply (bool_decide_unpack _). vm_compute. exact I.
Defined.

(** X3. On well-formed configurations, [SystemConfig.merge(x, y)] returns
    the instance [x] (and allocates nothing) exactly when [y] has nothing
    newer: every agent of [y] is in [x] with a counter that is at least the
    one in [y].  Otherwise it returns a new instance. *)
Theorem SystemConfig_merge_noop_iff {N : Numeric} {NL : NumericLaws N}
    (h : heap SystemConfig.t) (i j : ref) (x y : SystemConfig.t) :
  h !! i = Some x → h !! j = Some y →
  SystemConfig.wf x → SystemConfig.wf y →
  ∃ h' r,
    SystemConfig.merge h i j = Ok (h', r) ∧
    (r = i ∨ h !! r = None) ∧
    (r = i → h' = h) ∧
    (r = i ↔
     ∀ a dj, SystemConfig.data y a = Ok dj →
       ∃ di, SystemConfig.data x a = Ok di ∧
             SystemConfig.count dj ≤ SystemConfig.count di).
Proof.
  intros Hi Hj Hwx Hwy.
  destruct (SystemConfig_merge_wf_cases h i j x y Hi Hj Hwx Hwy)
    as (st & Hloop & [(_ & Hm & Hkept)|
                      (_ & rows & Hrows & Hm & a & dj & Hdj & Hlt)]).
  - exists h, i. split_and!; [done|by left|done|]. split; [|done].
    intros _ a dj Hdj.
    destruct (Hkept a) as (di & dj' & Hdi & Hdj' & Hle);
      [by eapply SystemConfig_data_dom|].
    exists di. split; [done|]. congruence.
  - pose proof (lookup_lt_Some _ _ _ Hi) as Hlen.
    eexists _, _. split_and!; [done| | |].
    + right. by apply lookup_ge_None_2.
    + intros Heq. lia.
    + split.
      * intros Heq. lia.
      * intros Hnone. destruct (Hnone a dj Hdj) as (di & Hdi & Hle).
        specialize (Hlt di Hdi). lia.
Qed.

Lemma SystemConfig_merge_noop_iff_witness :
  ∃ h' r,
    @SystemConfig.merge Z_numeric [Sample.sc_ab; Sample.sc_bc] 0%nat 1%nat
      = Ok (h', r) ∧
    (r = 0%nat ∨ [Sample.sc_ab; Sample.sc_bc] !! r = None) ∧
    (r = 0%nat → h' = [Sample.sc_ab; Sample.sc_bc]) ∧
    (r = 0%nat ↔
     ∀ a dj, SystemConfig.data Sample.sc_bc a = Ok dj →
       ∃ di, SystemConfig.data Sample.sc_ab a = Ok di ∧
             SystemConfig.count dj ≤ SystemConfig.count di).
Proof.
  apply (@SystemConfig_merge_noop_iff Z_numeric Z_numeric_laws
           [Sample.sc_ab; Sample.sc_bc] 0%nat 1%nat Sample.sc_ab Sample.sc_bc).
  - reflexivity.
  - reflexivity.
  - apply (bool_decide_unpack _). vm_compute. exact I.
  - apply (bool_decide_unpack _). vm_compute. exact I.
Defined.

(** ** [SystemConfig.merge]: shape of the result *)

Lemma SystemConfig_data_row `{Numeric} (x : SystemConfig.t) (a : string)
    (d : SystemConfig.Data) :
  SystemConfig.data x a = Ok d →
  ∃ i, SystemConfig.idx x !! a = Some i ∧
       SystemConfig.cs x !! i = Some (SystemConfig.os d) ∧
       SystemConfig.sids x !! i = Some (SystemConfig.sid d) ∧
       SystemConfig.cnt x !! i = Some (SystemConfig.count d).
Proof.
  intros Hd. unfold SystemConfig.data in Hd.
  apply bind_Ok in Hd as (i & Hi%or_raise_Ok & Hd).
  apply bind_Ok in Hd as (row & Hrow%or_raise_Ok & Hd).
  apply bind_Ok in Hd as (s0 & Hs0%or_raise_Ok & Hd).
  apply bind_Ok in Hd as (c0 & Hc0%or_raise_Ok & [= <-]). simpl. eauto.
Qed.

Lemma newer_of_data `{Numeric} (x y : SystemConfig.t) (a : string)
    (d : SystemConfig.Data) :
  newer_of x y a d →
  SystemConfig.data x a = Ok d ∨ SystemConfig.data y a = Ok d.
Proof.
  unfold newer_of.
  destruct (SystemConfig.data x a), (SystemConfig.data y a);
    try case_bool_decide; intros; subst; tauto.
Qed.

Lemma width_Forall `{Numeric} (m : list (list num)) (n : nat) :
  Forall (λ r, length r = n) m →
  Forall (λ r, length r = width m) m.
Proof.
  destruct m as [|r m]; [done|]. intros Hall. simpl.
  pose proof (Forall_inv Hall) as Hr. simpl in Hr. rewrite Hr. done.
Qed.

(** The object that [merge] returns: [sysconf_i] itself or a new object; it
    is well-formed, and its rows have [n] entries when those of the
    arguments do. *)
Lemma SystemConfig_merge_shape {N : Numeric} {NL : NumericLaws N}
    (h : heap SystemConfig.t) (i j : ref) (x y : SystemConfig.t) (n : nat) :
  h !! i = Some x → h !! j = Some y →
  SystemConfig.wf x → SystemConfig.wf y →
  Forall (λ r, length r = n) (SystemConfig.cs x) →
  Forall (λ r, length r = n) (SystemConfig.cs y) →
  ∃ h' r z,
    SystemConfig.merge h i j = Ok (h', r) ∧ h' !! r = Some z ∧
    SystemConfig.wf z ∧ Forall (λ r, length r = n) (SystemConfig.cs z) ∧
    ((r = i ∧ h' = h) ∨ (r = length h ∧ h' = h ++ [z])).
Proof.
  intros Hi Hj Hwx Hwy Hnx Hny.
  destruct (SystemConfig_merge_wf_cases h i j x y Hi Hj Hwx Hwy)
    as (st & Hloop & [(_ & Hm & _)|(_ & rows & Hrows & Hm & _)]).
  - exists h, i, x. split_and!; [done..|by left].
  - eexists _, _, _. split; [done|]. split; [by rewrite list_lookup_middle|].
    destruct (SystemConfig_merge_built x y st rows Hwx Hwy Hloop Hrows)
      as (Lrows & Lsids & Lcnt & Hdom & Hat).
    set (keys := sorted (elements (dom (SystemConfig.idx x) ∪
                                   dom (SystemConfig.idx y)))) in *.
    assert (NoDup keys) as Hnd by apply NoDup_sorted_elements.
    assert (∀ a k, SystemConfig.idx_map st !! a = Some k → keys !! k = Some a)
      as Hback.
    { intros a k Hk.
      assert (a ∈ keys) as Ha.
      { apply (elem_of_list_to_set (C := gset string)). rewrite <- Hdom.
        by apply elem_of_dom. }
      apply list_elem_of_lookup in Ha as [k' Hk'].
      destruct (Hat k' a Hk') as (Hidx & _). congruence. }
    assert (Forall (λ r, length r = n) rows) as Hn.
    { apply Forall_lookup. intros k r Hr.
      destruct (lookup_lt_is_Some_2 keys k) as [a Ha];
        [apply lookup_lt_Some in Hr; lia|].
      destruct (Hat k a Ha) as (_ & d & Hnew & Hrow & _).
      assert (r = SystemConfig.os d) as -> by congruence.
      destruct (newer_of_data x y a d Hnew)
        as [(p & _ & Hp & _)%SystemConfig_data_row|
            (p & _ & Hp & _)%SystemConfig_data_row].
      - by eapply (Forall_lookup_1 _ _ _ _ Hnx Hp).
      - by eapply (Forall_lookup_1 _ _ _ _ Hny Hp). }
    split; [|split; [done|by right]]. unfold SystemConfig.wf. simpl. split_and!.
    + intros a k Hk. simpl. apply Hback, lookup_lt_Some in Hk. lia.
    + apply NoDup_fmap_2_strong; [|apply NoDup_map_to_list].
      intros [a k] [b k'] Ha%elem_of_map_to_list Hb%elem_of_map_to_list Heq.
      simpl in Heq. subst k'. apply Hback in Ha, Hb. congruence.
    + rewrite <- size_dom, Hdom, size_list_to_set by done. lia.
    + lia.
    + lia.
    + by eapply width_Forall.
    + apply Forall_lookup. intros k c Hc.
      destruct (lookup_lt_is_Some_2 keys k) as [a Ha];
        [apply lookup_lt_Some in Hc; lia|].
      destruct (Hat k a Ha) as (_ & d & Hnew & _ & _ & Hcnt).
      assert (c = SystemConfig.count d) as -> by congruence.
      destruct (newer_of_data x y a d Hnew) as [Hd|Hd].
      * by destruct (SystemConfig_data_wf x a d Hwx Hd).
      * by destruct (SystemConfig_data_wf y a d Hwy Hd).
Qed.

(** X4. [SystemConfig.merge] keeps configurations well-formed: when [x] and
    [y] are well-formed and all their schedules have the same number of
    intervals, the result maps its agents one-to-one onto the rows of a
    rectangular matrix with as many schedule ids and counters, the counters
    non-negative. *)
Theorem SystemConfig_merge_wf {N : Numeric} {NL : NumericLaws N}
    (h : heap SystemConfig.t) (i j : ref) (x y : SystemConfig.t) (n : nat) :
  h !! i = Some x → h !! j = Some y →
  SystemConfig.wf x → SystemConfig.wf y →
  Forall (λ r, length r = n) (SystemConfig.cs x) →
  Forall (λ r, length r = n) (SystemConfig.cs y) →
  ∃ h' r z,
    SystemConfig.merge h i j = Ok (h', r) ∧ h' !! r = Some z ∧
    SystemConfig.wf z ∧ Forall (λ r, length r = n) (SystemConfig.cs z).
Proof.
  intros Hi Hj Hwx Hwy Hnx Hny.
  destruct (SystemConfig_merge_shape h i j x y n Hi Hj Hwx Hwy Hnx Hny)
    as (h' & r & z & Hm & Hz & Hwz & Hnz & _).
  by exists h', r, z.
Qed.

Lemma SystemConfig_merge_wf_witness :
  ∃ h' r z,
    @SystemConfig.merge Z_numeric [Sample.sc_ab; Sample.sc_bc] 0%nat 1%nat
      = Ok (h', r) ∧ h' !! r = Some z ∧
    SystemConfig.wf z ∧ Forall (λ r, length r = 2%nat) (SystemConfig.cs z).
Proof.
  apply (@SystemConfig_merge_wf Z_numeric Z_numeric_laws
           [Sample.sc_ab; Sample.sc_bc] 0%nat 1%nat Sample.sc_ab Sample.sc_bc).
  - reflexivity.
  - reflexivity.
  - apply (bool_decide_unpack _). vm_compute. exact I.
  - apply (bool_decide_unpack _). vm_compute. exact I.
  - apply (bool_decide_unpack _). vm_compute. exact I.
  - apply (bool_decide_unpack _). vm_compute. exact I.
Defined.

(** ** [SystemConfig.merge]: the index map follows the agents' names *)

#[global] Instance str_le_total : Total str_le.
Proof. intros a b. unfold str_le. apply String.leb_total. Qed.

#[global] Instance str_le_trans : Transitive str_le.
Proof.
  intros a b c. unfold str_le. rewrite !String_leb_ltb.
  intros [Hab| ->] [Hbc| ->]; auto. left. by eapply String_ltb_trans.
Qed.

Lemma StronglySorted_lookup {A} (R : relation A) (l : list A) (i j : nat)
    (a b : A) :
  StronglySorted R l → l !! i = Some a → l !! j = Some b → (i < j)%nat →
  R a b.
Proof.
  intros Hs. revert i j. induction Hs as [|x l Hs IH Hall]; [done|].
  intros [|i] [|j] Hi Hj Hlt; simpl in *; try lia.
  - injection Hi as ->. apply list_elem_of_lookup_2 in Hj.
    by eapply (proj1 (Forall_forall _ _) Hall).
  - eapply IH; [done..|lia].
Qed.

Lemma sorted_lookup_lt (l : list string) (i j : nat) (a b : string) :
  NoDup l → sorted l !! i = Some a → sorted l !! j = Some b →
  (i < j)%nat ↔ String.ltb a b = true.
Proof.
  intros Hnd Hi Hj.
  assert (StronglySorted str_le (sorted l)) as Hs
    by (apply StronglySorted_merge_sort; apply _).
  apply NoDup_sorted in Hnd.
  assert (∀ i j a b, sorted l !! i = Some a → sorted l !! j = Some b →
            (i < j)%nat → String.ltb a b = true) as Hlt.
  { clear i j a b Hi Hj. intros i j a b Hi Hj Hij.
    pose proof (StronglySorted_lookup _ _ _ _ _ _ Hs Hi Hj Hij) as Hle.
    apply String_leb_ltb in Hle as [?| ->]; [done|].
    pose proof (NoDup_lookup _ _ _ _ Hnd Hi Hj). lia. }
  split; [by eapply Hlt|]. intros Hab.
  destruct (decide (i < j)%nat) as [|Hge]; [done|]. exfalso.
  destruct (decide (i = j)) as [->|Hne].
  - assert (a = b) as -> by congruence. by rewrite String_ltb_irrefl in Hab.
  - assert (String.ltb b a = true) as Hba by (eapply (Hlt j i); [done..|lia]).
    apply String_ltb_asym in Hba. congruence.
Qed.

(** X5. When [SystemConfig.merge(x, y)] builds a new configuration, its
    index map numbers the agents in the lexicographic order of their names:
    agent [a] has a smaller index than agent [b] exactly when [a < b] as
    strings.  So any two agents that merge the same knowledge lay out their
    rows identically. *)
Theorem SystemConfig_merge_index_order {N : Numeric} {NL : NumericLaws N}
    (h : heap SystemConfig.t) (i j : ref) (x y : SystemConfig.t) :
  h !! i = Some x → h !! j = Some y →
  SystemConfig.wf x → SystemConfig.wf y →
  ∃ h' r z,
    SystemConfig.merge h i j = Ok (h', r) ∧ h' !! r = Some z ∧
    (r ≠ i →
     ∀ a b (ka kb : nat),
       SystemConfig.idx z !! a = Some ka → SystemConfig.idx z !! b = Some kb →
       (ka < kb)%nat ↔ String.ltb a b = true).
Proof.
  intros Hi Hj Hwx Hwy.
  destruct (SystemConfig_merge_wf_cases h i j x y Hi Hj Hwx Hwy)
    as (st & Hloop & [(_ & Hm & _)|(_ & rows & Hrows & Hm & _)]).
  - by exists h, i, x.
  - eexists _, _, _. split; [done|]. split; [by rewrite list_lookup_middle|].
    intros _ a b ka kb Ha Hb. simpl in Ha, Hb.
    destruct (SystemConfig_merge_built x y st rows Hwx Hwy Hloop Hrows)
      as (_ & _ & _ & Hdom & Hat).
    assert (∀ a k, SystemConfig.idx_map st !! a = Some k →
              sorted (elements (dom (SystemConfig.idx x) ∪
                                dom (SystemConfig.idx y))) !! k = Some a)
      as Hback.
    { intros c k Hk.
      assert (c ∈ sorted (elements (dom (SystemConfig.idx x) ∪
                                    dom (SystemConfig.idx y)))) as Hc.
      { apply (elem_of_list_to_set (C := gset string)). rewrite <- Hdom.
        by apply elem_of_dom. }
      apply list_elem_of_lookup in Hc as [k' Hk'].
      destruct (Hat k' c Hk') as (Hidx & _). congruence. }
    eapply sorted_lookup_lt; [|by apply Hback..]. apply NoDup_elements.
Qed.

Lemma SystemConfig_merge_index_order_witness :
  ∃ h' r z,
    @SystemConfig.merge Z_numeric [Sample.sc_ab; Sample.sc_bc] 0%nat 1%nat
      = Ok (h', r) ∧ h' !! r = Some z ∧
    (r ≠ 0%nat →
     ∀ a b (ka kb : nat),
       SystemConfig.idx z !! a = Some ka → SystemConfig.idx z !! b = Some kb →
       (ka < kb)%nat ↔ String.ltb a b = true).
Proof.
  apply (@SystemConfig_merge_index_order Z_numeric Z_numeric_laws
           [Sample.sc_ab; Sample.sc_bc] 0%nat 1%nat Sample.sc_ab Sample.sc_bc).
  - reflexivity.
  - reflexivity.
  - apply (bool_decide_unpack _). vm_compute. exact I.
  - apply (bool_decide_unpack _). vm_compute. exact I.
Defined.

(** ** [SystemConfig.update]: results and errors *)

Section sysconf_update.
Context {N : Numeric}.

Lemma width_insert (m : list (list num)) (i : nat) (r : list num) :
  Forall (λ r, length r = width m) m → length r = width m →
  width (<[i:=r]> m) = width m ∧
  Forall (λ r, length r = width m) (<[i:=r]> m).
Proof.
  intros Hall Hr. split; [|by apply Forall_insert].
  destruct m as [|r0 m]; [done|]. by destruct i.
Qed.

(** Every run of [update] on a well-formed configuration. *)
Lemma SystemConfig_update_outcome (h : heap SystemConfig.t) (self : ref)
    (sc : SystemConfig.t) (agent : string) (os : list num) (sid : Z) :
  h !! self = Some sc → SystemConfig.wf sc →
  match SystemConfig.update h self agent os sid with
  | Ok (h', r) =>
      agent ∈ dom (SystemConfig.idx sc) ∧
      (length os = width (SystemConfig.cs sc) ∨ length os = 1%nat) ∧
      ∃ sc', h' = h ++ [sc'] ∧ r = length h ∧ SystemConfig.wf sc' ∧
        width (SystemConfig.cs sc') = width (SystemConfig.cs sc)
  | Err e =>
      (e = KeyError ∧ agent ∉ dom (SystemConfig.idx sc)) ∨
      (e = ValueError ∧ agent ∈ dom (SystemConfig.idx sc) ∧
       length os ≠ width (SystemConfig.cs sc) ∧ length os ≠ 1%nat)
  end.
Proof.
  intros Hself Hwf. pose proof Hwf as (Hlt & Hinj & Hsize & Hsids & Hcnt & Hrows & Hnn).
  unfold SystemConfig.update, deref. rewrite Hself. simpl.
  destruct (SystemConfig.idx sc !! agent) as [i|] eqn:Hi; simpl;
    [|left; split; [done|by apply not_elem_of_dom]].
  assert (agent ∈ dom (SystemConfig.idx sc)) as Hdom by (by apply elem_of_dom).
  pose proof (Hlt _ _ Hi) as Hi_lt. simpl in Hi_lt.
  destruct (lookup_lt_is_Some_2 (SystemConfig.cs sc) i Hi_lt) as [row Hrow].
  destruct (lookup_lt_is_Some_2 (SystemConfig.cnt sc) i) as [c Hc]; [lia|].
  assert (length row = width (SystemConfig.cs sc)) as Hw
    by (by eapply width_lookup).
  assert (0 ≤ c) as Hc0 by (by eapply (Forall_lookup_1 _ _ _ _ Hnn Hc)).
  assert (∀ row', length row' = width (SystemConfig.cs sc) →
    SystemConfig.wf (SystemConfig.mk (SystemConfig.idx sc)
      (<[i:=row']> (SystemConfig.cs sc)) (<[i:=sid]> (SystemConfig.sids sc))
      (<[i:=c + 1]> (SystemConfig.cnt sc))) ∧
    width (<[i:=row']> (SystemConfig.cs sc)) = width (SystemConfig.cs sc))
    as Hbuilt.
  { intros row' Hrow'.
    destruct (width_insert (SystemConfig.cs sc) i row' Hrows Hrow')
      as [Hwd Hall].
    split; [|done]. unfold SystemConfig.wf. simpl.
    rewrite !length_insert, Hwd. split_and!; try done.
    apply Forall_insert; [done|lia]. }
  unfold set_row. rewrite Hrow. simpl.
  unfold list_set. rewrite Hc.
  destruct (decide (length os = length row)) as [Hlen|Hlen]; simpl.
  - rewrite !decide_True by lia. simpl.
    destruct (Hbuilt os) as [? ?]; [lia|].
    split_and!; [done|left; lia|]. eexists. by split_and!.
  - destruct os as [|v [|v' os]]; simpl.
    + right. simpl in *. split_and!; [done|done|lia|lia].
    + rewrite !decide_True by lia. simpl.
      destruct (Hbuilt (replicate (length row) v)) as [? ?];
        [by rewrite length_replicate|].
      split_and!; [done|by right|]. eexists. by split_and!.
    + right. simpl in *. split_and!; [done|done|lia|lia].
Qed.
End sysconf_update.

(** X6. [SystemConfig.update] keeps configurations well-formed: on a
    well-formed [sc] that holds [agent], and with a schedule [os] of the row
    length, it returns a new well-formed configuration with rows of the same
    length, allocated behind the existing objects. *)
Theorem SystemConfig_update_wf `{Numeric} (h : heap SystemConfig.t)
    (self : ref) (sc : SystemConfig.t) (agent : string) (os : list num)
    (sid : Z) :
  h !! self = Some sc → SystemConfig.wf sc →
  agent ∈ dom (SystemConfig.idx sc) →
  length os = width (SystemConfig.cs sc) →
  ∃ sc', SystemConfig.update h self agent os sid = Ok (h ++ [sc'], length h) ∧
    SystemConfig.wf sc' ∧
    width (SystemConfig.cs sc') = width (SystemConfig.cs sc).
Proof.
  intros Hself Hwf Ha Hos.
  pose proof (SystemConfig_update_outcome h self sc agent os sid Hself Hwf)
    as Hout.
  destruct (SystemConfig.update h self agent os sid) as [[h' r]|e].
  - destruct Hout as (_ & _ & sc' & -> & -> & ? & ?). by exists sc'.
  - destruct Hout as [(_ & ?)|(_ & _ & ? & _)]; done.
Qed.

Lemma SystemConfig_update_wf_witness :
  ∃ sc', @SystemConfig.update Z_numeric [Sample.sc_ab] 0%nat "b" [7; 8] 4
           = Ok ([Sample.sc_ab] ++ [sc'], length [Sample.sc_ab]) ∧
    SystemConfig.wf sc' ∧
    width (SystemConfig.cs sc') = width (SystemConfig.cs Sample.sc_ab).
Proof.
  apply (@SystemConfig_update_wf Z_numeric [Sample.sc_ab] 0%nat Sample.sc_ab
           "b" [7; 8] 4).
  - reflexivity.
  - apply (bool_decide_unpack _). vm_compute. exact I.
  - apply (bool_decide_unpack _). vm_compute. exact I.
  - reflexivity.
Defined.

(** X7. The errors of [SystemConfig.update] on a well-formed configuration:
    it raises [KeyError] exactly when the agent is not in the index map,
    [ValueError] exactly when the agent is known but the schedule has
    neither the row length nor length one (NumPy cannot broadcast it), and
    no other exception. *)
Theorem SystemConfig_update_errors `{Numeric} (h : heap SystemConfig.t)
    (self : ref) (sc : SystemConfig.t) (agent : string) (os : list num)
    (sid : Z) (e : exn) :
  h !! self = Some sc → SystemConfig.wf sc →
  SystemConfig.update h self agent os sid = Err e ↔
  (e = KeyError ∧ agent ∉ dom (SystemConfig.idx sc)) ∨
  (e = ValueError ∧ agent ∈ dom (SystemConfig.idx sc) ∧
   length os ≠ width (SystemConfig.cs sc) ∧ length os ≠ 1%nat).
Proof.
  intros Hself Hwf.
  pose proof (SystemConfig_update_outcome h self sc agent os sid Hself Hwf)
    as Hout.
  destruct (SystemConfig.update h self agent os sid) as [[h' r]|e'].
  - split; [done|]. destruct Hout as (Ha & Hos & _).
    intros [(_ & ?)|(_ & _ & ? & ?)]; [done|]. lia.
  - split.
    + intros [= ->]. done.
    + intros Hcase. f_equal.
      destruct Hout as [(-> & ?)|(-> & ? & _)],
               Hcase as [(-> & ?)|(-> & ? & _)]; done.
Qed.

Lemma SystemConfig_update_errors_witness :
  @SystemConfig.update Z_numeric [Sample.sc_ab] 0%nat "z" [7; 8] 4
    = Err KeyError ↔
  (KeyError = KeyError ∧ "z" ∉ dom (SystemConfig.idx Sample.sc_ab)) ∨
  (KeyError = ValueError ∧ "z" ∈ dom (SystemConfig.idx Sample.sc_ab) ∧
   length [7; 8] ≠ width (SystemConfig.cs Sample.sc_ab) ∧
   length [7; 8] ≠ 1%nat).
Proof.
  apply (@SystemConfig_update_errors Z_numeric [Sample.sc_ab] 0%nat
           Sample.sc_ab "z" [7; 8] 4 KeyError).
  - reflexivity.
  - apply (bool_decide_unpack _). vm_compute. exact I.
Defined.

(** ** [SystemConfig.merge]: the order of the arguments *)

(** X8. [SystemConfig.merge] is commutative up to the layout: when the two
    configurations never hold different data under the same counter value
    (a counter identifies one choice of its agent), [merge(x, y)] and
    [merge(y, x)] answer [data(a)] alike for every agent [a] - the same row,
    schedule id and counter, or a [KeyError] from both. *)
Theorem SystemConfig_merge_comm {N : Numeric} {NL : NumericLaws N}
    (h : heap SystemConfig.t) (i j : ref) (x y : SystemConfig.t) :
  h !! i = Some x → h !! j = Some y →
  SystemConfig.wf x → SystemConfig.wf y →
  (∀ a di dj, SystemConfig.data x a = Ok di → SystemConfig.data y a = Ok dj →
     SystemConfig.count di = SystemConfig.count dj → di = dj) →
  ∃ h1 r1 z1 h2 r2 z2,
    SystemConfig.merge h i j = Ok (h1, r1) ∧ h1 !! r1 = Some z1 ∧
    SystemConfig.merge h j i = Ok (h2, r2) ∧ h2 !! r2 = Some z2 ∧
    ∀ a, SystemConfig.data z1 a = SystemConfig.data z2 a.
Proof.
  intros Hi Hj Hwx Hwy Hsame.
  destruct (SystemConfig_merge_result h i j x y Hi Hj Hwx Hwy)
    as (h1 & r1 & z1 & Hm1 & Hz1 & Hdom1 & Hdata1).
  destruct (SystemConfig_merge_result h j i y x Hj Hi Hwy Hwx)
    as (h2 & r2 & z2 & Hm2 & Hz2 & Hdom2 & Hdata2).
  exists h1, r1, z1, h2, r2, z2. split_and!; [done..|]. intros a.
  destruct (decide (a ∈ dom (SystemConfig.idx x) ∪ dom (SystemConfig.idx y)))
    as [Ha|Ha].
  - destruct (Hdata1 a Ha) as (d1 & -> & Hn1).
    destruct (Hdata2 a) as (d2 & -> & Hn2); [set_solver|]. f_equal.
    unfold newer_of in Hn1, Hn2.
    destruct (SystemConfig.data x a) as [di|] eqn:Hdi,
             (SystemConfig.data y a) as [dj|] eqn:Hdj;
      try congruence; [|done].
    repeat case_bool_decide; subst; try done; try lia.
    apply (Hsame a); [done..|lia].
  - rewrite !SystemConfig_data_not_dom; [done|by rewrite Hdom2; set_solver|
                                          by rewrite Hdom1].
Qed.

Lemma SystemConfig_merge_comm_witness :
  ∃ h1 r1 z1 h2 r2 z2,
    @SystemConfig.merge Z_numeric [Sample.sc_ab; Sample.sc_bc] 0%nat 1%nat
      = Ok (h1, r1) ∧ h1 !! r1 = Some z1 ∧
    @SystemConfig.merge Z_numeric [Sample.sc_ab; Sample.sc_bc] 1%nat 0%nat
      = Ok (h2, r2) ∧ h2 !! r2 = Some z2 ∧
    ∀ a, SystemConfig.data z1 a = SystemConfig.data z2 a.
Proof.
  apply (@SystemConfig_merge_comm Z_numeric Z_numeric_laws
           [Sample.sc_ab; Sample.sc_bc] 0%nat 1%nat Sample.sc_ab Sample.sc_bc).
  - reflexivity.
  - reflexivity.
  - apply (bool_decide_unpack _). vm_compute. exact I.
  - apply (bool_decide_unpack _). vm_compute. exact I.
  - intros a di dj Hdi Hdj Hc. exfalso.
    pose proof (SystemConfig_data_dom _ _ _ Hdi) as Ha.
    pose proof (SystemConfig_data_dom _ _ _ Hdj) as Hb.
    assert (a = "b") as ->.
    { unfold Sample.sc_ab, Sample.sc_bc in Ha, Hb. simpl in Ha, Hb.
      rewrite !dom_insert_L in Ha, Hb. set_solver. }
    vm_compute in Hdi, Hdj. injection Hdi as <-. injection Hdj as <-.
    simpl in Hc. lia.
Defined.

(** ** [Candidate.merge]: which candidate wins *)

Section candidate_merge_choice.
Context {N : Numeric} {NL : NumericLaws N}.

(** The loop of the third branch, position by position: the agent at
    position [k] of the keys gets the index [i + k], and the buffers hold
    there its data from [candidate_i] if that knows the agent, from
    [candidate_j] otherwise. *)
Lemma Candidate_merge_loop_at (ci cj : Candidate.t) (keys : list string)
    (i : nat) (st st' : Candidate.locals) :
  Candidate.merge_loop ci cj keys i st = Ok st' →
  NoDup keys →
  length (Candidate.cs_buf st) = i →
  length (Candidate.sids_buf st) = i →
  (∀ p, (p < i)%nat →
     Candidate.cs_buf st' !! p = Candidate.cs_buf st !! p ∧
     Candidate.sids_buf st' !! p = Candidate.sids_buf st !! p) ∧
  (∀ b, b ∉ keys →
     Candidate.idx_map st' !! b = Candidate.idx_map st !! b) ∧
  ∀ (k : nat) a, keys !! k = Some a →
    ∃ d, (if decide (a ∈ dom (Candidate.idx ci)) then Candidate.data ci a
          else Candidate.data cj a) = Ok d ∧
      Candidate.idx_map st' !! a = Some (i + k)%nat ∧
      Candidate.cs_buf st' !! (i + k)%nat = Some (Candidate.os d) ∧
      Candidate.sids_buf st' !! (i + k)%nat = Some (Candidate.sid d).
Proof.
  revert i st.
  induction keys as [|a keys IH]; intros i st Hloop Hnd Hcs Hsids.
  { simpl in Hloop. injection Hloop as <-. split_and!; [done..|].
    intros k a Hk. done. }
  simpl in Hloop. apply bind_Ok in Hloop as (st1 & Hstep & Hloop).
  unfold Candidate.merge_step in Hstep.
  apply bind_Ok in Hstep as (d & Hd & [= Hst1]).
  apply NoDup_cons in Hnd as [Ha Hnd].
  assert (length (Candidate.cs_buf st1) = S i) as Hcs1
    by (rewrite <- Hst1; simpl; rewrite length_app; simpl; lia).
  assert (length (Candidate.sids_buf st1) = S i) as Hsids1
    by (rewrite <- Hst1; simpl; rewrite length_app; simpl; lia).
  destruct (IH (S i) st1 Hloop Hnd Hcs1 Hsids1) as (Lpre & Lidx & Lat).
  split_and!.
  - intros p Hp. destruct (Lpre p) as (-> & ->); [lia|].
    rewrite <- Hst1. simpl. rewrite !lookup_app_l by lia. done.
  - intros b Hb. apply not_elem_of_cons in Hb as [Hba Hb].
    rewrite (Lidx b Hb), <- Hst1. simpl. by rewrite lookup_insert_ne.
  - intros k b Hk. destruct k as [|k]; simpl in Hk.
    + injection Hk as <-. rewrite Nat.add_0_r. exists d.
      destruct (Lpre i) as (-> & ->); [lia|].
      rewrite (Lidx a Ha).
      assert (Candidate.idx_map st1 !! a = Some i) as ->
        by (rewrite <- Hst1; simpl; by rewrite lookup_insert_eq).
      assert (Candidate.cs_buf st1 !! i = Some (Candidate.os d)) as ->
        by (rewrite <- Hst1; simpl; by rewrite <- Hcs, list_lookup_middle).
      assert (Candidate.sids_buf st1 !! i = Some (Candidate.sid d)) as ->
        by (rewrite <- Hst1; simpl; by rewrite <- Hsids, list_lookup_middle).
      done.
    + destruct (Lat k b Hk) as (d' & ? & ? & ? & ?).
      replace (i + S k)%nat with (S i + k)%nat by lia.
      by exists d'.
Qed.
End candidate_merge_choice.

(** X9. In [Candidate.merge] the candidate that knows strictly more agents
    wins, whatever the two performances are (they are not even read).  Over
    numbers without a NaN (the laws [NumericLaws]: [==] is reflexive, so
    that the closing assertion holds when [candidate_i] is returned): if the
    key set of [candidate_i] is a proper subset of that of [candidate_j] the
    result is the instance [candidate_j], and in the opposite case it is the
    instance [candidate_i]; nothing is allocated and nothing raised. *)
Theorem Candidate_merge_more_agents {N : Numeric} {NL : NumericLaws N}
    (h : heap Candidate.t) (i j : ref) (me : string)
    (f : list (list num) → num) (ci cj : Candidate.t) :
  h !! i = Some ci → h !! j = Some cj →
  dom (Candidate.idx ci) ⊂ dom (Candidate.idx cj) ∨
    dom (Candidate.idx cj) ⊂ dom (Candidate.idx ci) →
  Candidate.merge h i j me f =
    Ok (h, if decide (dom (Candidate.idx ci) ⊂ dom (Candidate.idx cj))
           then j else i).
Proof.
  intros Hi Hj [Hsub|Hsub].
  - rewrite decide_True by done.
    unfold Candidate.merge, Candidate.merge_with, deref. rewrite Hi, Hj. simpl.
    rewrite decide_True by done. simpl. unfold deref. rewrite Hj. simpl.
    assert (Candidate.eqb cj ci = false) as ->.
    { apply not_true_is_false. intros [_ [Heq _]]%Candidate_eqb_true.
      rewrite Heq in Hsub. by destruct Hsub. }
    assert (j ≠ i) as Hne.
    { intros ->. assert (ci = cj) as -> by congruence. by destruct Hsub. }
    by rewrite bool_decide_eq_false_2.
  - rewrite decide_False by set_solver.
    pose proof (Candidate_merge_cases h i j me f ci cj Hi Hj) as Hout.
    unfold Candidate_merge_outcome in Hout.
    destruct (Candidate.merge h i j me f) as [[h' r]|e].
    + destruct Hout as [(? & _)|[(Heq & _)|[(_ & _ & Hnew & _)|
                        (_ & _ & _ & -> & ->)]]]; [exfalso; set_solver..|done].
    + exfalso. destruct Hout as [(Heq & _)|(Hnew & _)]; set_solver.
Qed.

Lemma Candidate_merge_more_agents_witness :
  @Candidate.merge Z_numeric [Sample.cand_c; Sample.cand_abc] 0%nat 1%nat "c"
    Sample.perf_sum =
    Ok ([Sample.cand_c; Sample.cand_abc],
        if decide (dom (Candidate.idx Sample.cand_c) ⊂
                   dom (Candidate.idx Sample.cand_abc))
        then 1%nat else 0%nat).
Proof.
  apply (@Candidate_merge_more_agents Z_numeric Z_numeric_laws
           [Sample.cand_c; Sample.cand_abc] 0%nat 1%nat "c" Sample.perf_sum
           Sample.cand_c Sample.cand_abc).
  - reflexivity.
  - reflexivity.
  - left. apply (bool_decide_unpack _). vm_compute. exact I.
Defined.

(** X10. When each of two well-formed candidates knows an agent that the
    other does not, [Candidate.merge] builds a new candidate: its author is
    the merging agent [me], it covers the agents of both, every agent of
    [candidate_i] keeps the schedule and id it has in [candidate_i] (also
    where [candidate_j] has another one), the other agents get theirs from
    [candidate_j], and the performance is [perf_func] of the new cluster
    schedule. *)
Theorem Candidate_merge_combines {N : Numeric} {NL : NumericLaws N}
    (h : heap Candidate.t) (i j : ref) (me : string)
    (f : list (list num) → num) (ci cj : Candidate.t) :
  h !! i = Some ci → h !! j = Some cj →
  Candidate.wf ci → Candidate.wf cj →
  ¬ dom (Candidate.idx ci) ⊆ dom (Candidate.idx cj) →
  ¬ dom (Candidate.idx cj) ⊆ dom (Candidate.idx ci) →
  ∃ z, Candidate.merge h i j me f = Ok (h ++ [z], length h) ∧
    Candidate.agent z = me ∧
    Candidate.perf z = Some (f (Candidate.cs z)) ∧
    dom (Candidate.idx z) = dom (Candidate.idx ci) ∪ dom (Candidate.idx cj) ∧
    (∀ a, a ∈ dom (Candidate.idx ci) →
       Candidate.data z a = Candidate.data ci a) ∧
    (∀ a, a ∈ dom (Candidate.idx cj) → a ∉ dom (Candidate.idx ci) →
       Candidate.data z a = Candidate.data cj a).
Proof.
  intros Hi Hj Hwi Hwj Hij Hji.
  destruct (Candidate_merge_total h i j me f ci cj Hi Hj Hwi Hwj)
    as (h' & r & Hm).
  pose proof (Candidate_merge_cases h i j me f ci cj Hi Hj) as Hout.
  rewrite Hm in Hout.
  destruct Hout as [([Hsub _] & _)|[(Heq & _)|
                   [(_ & _ & Hnew & st & Hloop & -> & ->)|
                    (_ & _ & Hnone & _)]]].
  { done. }
  { exfalso. apply Hij. by rewrite Heq. }
  2:{ exfalso. apply Hji.
      pose proof (difference_empty_union _ _ Hnone) as Hu.
      intros a Ha. rewrite Hu. apply elem_of_union. by right. }
  eexists. split; [done|]. simpl.
  pose proof Hloop as Hpost.
  apply Candidate_merge_loop_Ok in Hpost as (_ & _ & _ & Hdom);
    [|done..|apply map_Forall_empty].
  simpl in Hdom. rewrite dom_empty_L, (left_id_L ∅ (∪)) in Hdom.
  rewrite list_to_set_sorted_elements in Hdom.
  apply Candidate_merge_loop_at in Hloop as (_ & _ & Hat);
    [|apply NoDup_sorted_elements|done..].
  assert (∀ a, a ∈ dom (Candidate.idx ci) ∪ dom (Candidate.idx cj) →
    Candidate.data
      (Candidate.mk me (Candidate.idx_map st) (Candidate.cs_buf st)
         (Candidate.sids_buf st) (Some (f (Candidate.cs_buf st)))) a =
    if decide (a ∈ dom (Candidate.idx ci)) then Candidate.data ci a
    else Candidate.data cj a) as Hdata.
  { intros a Ha. apply elem_of_sorted_elements in Ha.
    apply list_elem_of_lookup in Ha as [k Hk].
    destruct (Hat k a Hk) as (d & -> & Hidx & Hcs & Hsids).
    unfold Candidate.data at 1. simpl in *. rewrite Hidx. simpl.
    rewrite Hcs, Hsids. simpl. by destruct d. }
  split_and!; [done..| |].
  - intros a Ha. rewrite Hdata by set_solver. by rewrite decide_True.
  - intros a Ha Hna. rewrite Hdata by set_solver. by rewrite decide_False.
Qed.

Lemma Candidate_merge_combines_witness :
  ∃ z, @Candidate.merge Z_numeric [Sample.cand_a; Sample.cand_c] 0%nat 1%nat
         "a" Sample.perf_sum
         = Ok ([Sample.cand_a; Sample.cand_c] ++ [z],
               length [Sample.cand_a; Sample.cand_c]) ∧
    Candidate.agent z = "a" ∧
    Candidate.perf z = Some (Sample.perf_sum (Candidate.cs z)) ∧
    dom (Candidate.idx z) = dom (Candidate.idx Sample.cand_a) ∪
                            dom (Candidate.idx Sample.cand_c) ∧
    (∀ a, a ∈ dom (Candidate.idx Sample.cand_a) →
       Candidate.data z a = Candidate.data Sample.cand_a a) ∧
    (∀ a, a ∈ dom (Candidate.idx Sample.cand_c) →
       a ∉ dom (Candidate.idx Sample.cand_a) →
       Candidate.data z a = Candidate.data Sample.cand_c a).
Proof.
  apply (@Candidate_merge_combines Z_numeric Z_numeric_laws
           [Sample.cand_a; Sample.cand_c] 0%nat 1%nat "a" Sample.perf_sum
           Sample.cand_a Sample.cand_c).
  - reflexivity.
  - reflexivity.
  - apply (bool_decide_unpack _). vm_compute. exact I.
  - apply (bool_decide_unpack _). vm_compute. exact I.
  - apply (bool_decide_unpack _). vm_compute. exact I.
  - apply (bool_decide_unpack _). vm_compute. exact I.
Defined.

(** X11. Two agents that exchange candidates over the same agents agree:
    for candidates with equal key sets, different authors and comparable
    performances (exactly one of [<], [==], [>] holds, as for floats other
    than NaN), [merge(c_i, c_j, ...)] and [merge(c_j, c_i, ...)] return the
    same instance, whoever merges and with whatever performance function. *)
Theorem Candidate_merge_agree {N : Numeric} {NL : NumericLaws N}
    (h : heap Candidate.t) (i j : ref) (me me' : string)
    (f f' : list (list num) → num) (ci cj : Candidate.t) (p q : num) :
  h !! i = Some ci → h !! j = Some cj →
  dom (Candidate.idx ci) = dom (Candidate.idx cj) →
  Candidate.agent ci ≠ Candidate.agent cj →
  Candidate.perf ci = Some p → Candidate.perf cj = Some q →
  (num_ltb p q = true ∨ num_eqb p q = true ∨ num_ltb q p = true) →
  ¬ (num_ltb p q = true ∧ num_ltb q p = true) →
  ∃ r, (r = i ∨ r = j) ∧
    Candidate.merge h i j me f = Ok (h, r) ∧
    Candidate.merge h j i me' f' = Ok (h, r).
Proof.
  intros Hi Hj Hdom Hag Hp Hq Htri Hasym.
  pose proof (Candidate_merge_cases h i j me f ci cj Hi Hj) as Hij.
  pose proof (Candidate_merge_cases h j i me' f' cj ci Hj Hi) as Hji.
  unfold Candidate_merge_outcome in Hij, Hji.
  destruct (Candidate.merge h i j me f) as [[h1 r1]|e1]; last first.
  { exfalso. destruct Hij as [(_ & _ & [?|?])|(Hnew & _)];
      [congruence|congruence|set_solver]. }
  destruct (Candidate.merge h j i me' f') as [[h2 r2]|e2]; last first.
  { exfalso. destruct Hji as [(_ & _ & [?|?])|(Hnew & _)];
      [congruence|congruence|set_solver]. }
  destruct Hij as [(Hsub & _)|[(_ & -> & p1 & q1 & Hp1 & Hq1 & Hr1)|
                  [(_ & Hne & _)|(_ & Hne & _)]]];
    [exfalso; set_solver| |done..].
  destruct Hji as [(Hsub & _)|[(_ & -> & q2 & p2 & Hq2 & Hp2 & Hr2)|
                  [(_ & Hne & _)|(_ & Hne & _)]]];
    [exfalso; set_solver| |done..].
  assert (p1 = p) as -> by congruence. assert (q1 = q) as -> by congruence.
  assert (p2 = p) as -> by congruence. assert (q2 = q) as -> by congruence.
  assert (r1 = r2 ∧ (r1 = i ∨ r1 = j)) as [<- Hr]; [|by exists r1].
  rewrite Hr1, Hr2. clear Hr1 Hr2.
  rewrite (num_eqb_sym q p).
  destruct (num_ltb p q) eqn:Hpq.
  - pose proof (num_ltb_neq _ _ Hpq) as ->.
    destruct (num_ltb q p) eqn:Hqp; [by destruct Hasym|]. simpl. auto.
  - destruct (num_ltb q p) eqn:Hqp.
    { pose proof (num_ltb_neq _ _ Hqp) as Hne. rewrite num_eqb_sym in Hne.
      rewrite Hne. simpl. auto. }
    destruct Htri as [?|[-> |?]]; [done| |done]. simpl.
    destruct (String_ltb_total (Candidate.agent ci) (Candidate.agent cj))
      as [Hlt|[?|Hlt]]; [|done|].
    + rewrite Hlt, (String_ltb_asym _ _ Hlt). auto.
    + rewrite Hlt, (String_ltb_asym _ _ Hlt). auto.
Qed.

Lemma Candidate_merge_agree_witness :
  ∃ r, (r = 0%nat ∨ r = 1%nat) ∧
    @Candidate.merge Z_numeric [Sample.cand_a; Sample.cand_b] 0%nat 1%nat
      "a" Sample.perf_sum = Ok ([Sample.cand_a; Sample.cand_b], r) ∧
    @Candidate.merge Z_numeric [Sample.cand_a; Sample.cand_b] 1%nat 0%nat
      "b" Sample.perf_sum = Ok ([Sample.cand_a; Sample.cand_b], r).
Proof.
  apply (@Candidate_merge_agree Z_numeric Z_numeric_laws
           [Sample.cand_a; Sample.cand_b] 0%nat 1%nat "a" "b"
           Sample.perf_sum Sample.perf_sum Sample.cand_a Sample.cand_b
           (-3) (-3)).
  - reflexivity.
  - reflexivity.
  - reflexivity.
  - discriminate.
  - reflexivity.
  - reflexivity.
  - right; left. reflexivity.
  - intros [H _]. discriminate H.
Defined.

(** X12. Over numbers without a NaN (the laws [NumericLaws]) and with a
    performance function that returns, [Candidate.merge] is safe on
    well-formed candidates: it does not raise, it returns a well-formed
    candidate that is one of the two arguments or a newly allocated object,
    and it leaves every object that existed before as it was. *)
Theorem Candidate_merge_safe {N : Numeric} {NL : NumericLaws N}
    (h : heap Candidate.t) (i j : ref) (me : string)
    (f : list (list num) → num) (ci cj : Candidate.t) :
  h !! i = Some ci → h !! j = Some cj →
  Candidate.wf ci → Candidate.wf cj →
  ∃ h' r z, Candidate.merge h i j me f = Ok (h', r) ∧
    h' !! r = Some z ∧ Candidate.wf z ∧
    (r = i ∨ r = j ∨ h !! r = None) ∧
    ∀ q x, h !! q = Some x → h' !! q = Some x.
Proof.
  intros Hi Hj Hwi Hwj.
  destruct (Candidate_merge_total h i j me f ci cj Hi Hj Hwi Hwj)
    as (h' & r & Hm).
  destruct (Candidate_merge_Ok h h' i j r me f ci cj Hi Hj Hm)
    as (z & Hz & _ & Hwf & Hmono & Hr).
  exists h', r, z. split_and!; auto.
Qed.

Lemma Candidate_merge_safe_witness :
  ∃ h' r z,
    @Candidate.merge Z_numeric [Sample.cand_a; Sample.cand_c] 0%nat 1%nat
      "a" Sample.perf_sum = Ok (h', r) ∧
    h' !! r = Some z ∧ Candidate.wf z ∧
    (r = 0%nat ∨ r = 1%nat ∨ [Sample.cand_a; Sample.cand_c] !! r = None) ∧
    ∀ q x, [Sample.cand_a; Sample.cand_c] !! q = Some x → h' !! q = Some x.
Proof.
  apply (@Candidate_merge_safe Z_numeric Z_numeric_laws
           [Sample.cand_a; Sample.cand_c] 0%nat 1%nat "a" Sample.perf_sum
           Sample.cand_a Sample.cand_c).
  - reflexivity.
  - reflexivity.
  - apply (bool_decide_unpack _). vm_compute. exact I.
  - apply (bool_decide_unpack _). vm_compute. exact I.
Defined.

(** ** [Planner._get_new_os]: the best possible schedule *)

Section get_new_os.
Context {N : Numeric}.
Variables (self : Planner.t) (sysconf : ref) (x : SystemConfig.t).
Variables (name : string) (dx : SystemConfig.Data) (i : nat).
Hypothesis Hdx : SystemConfig.data x name = Ok dx.
Hypothesis Hi : SystemConfig.idx x !! name = Some i.

(** The loop computes [best_schedule], and only allocates. *)
Lemma get_new_os_loop_run (ps : list (Z * num * list num)) :
  Forall (λ p, length p.2 = length (SystemConfig.os dx)) ps →
  ∀ (hs : heap SystemConfig.t) (best : num) (found : option (list num * Z)),
    hs !! sysconf = Some x →
    ∃ ext,
      Planner._get_new_os_loop self hs sysconf name ps (Some best) found
        = Ok (hs ++ ext, (best_schedule self x i ps best found).2).
Proof.
  intros Hps. induction Hps as [|[[sid u] os] ps Hlen _ IH];
    intros hs best found Hx.
  - exists []. simpl. by rewrite app_nil_r.
  - simpl in Hlen.
    destruct (SystemConfig_update_Ok hs sysconf x name os sid dx Hx Hdx Hlen)
      as (i' & Hi' & _ & _ & _ & Hupd).
    assert (i' = i) as -> by congruence.
    match type of Hupd with _ = Ok (_ ++ [?z0], _) => set (z := z0) in * end.
    simpl. rewrite Hupd. simpl. unfold deref.
    rewrite list_lookup_middle by done. simpl.
    fold (perf_with self x i os).
    destruct (num_ltb best (perf_with self x i os)).
    + destruct (IH (hs ++ [z]) (perf_with self x i os) (Some (os, sid)))
        as (ext & ->); [by apply lookup_app_l_Some|].
      exists (z :: ext). by rewrite <- app_assoc.
    + destruct (IH (hs ++ [z]) best found) as (ext & ->);
        [by apply lookup_app_l_Some|].
      exists (z :: ext). by rewrite <- app_assoc.
Qed.
End get_new_os.

Section best_schedule.
Context {N : Numeric} {NL : NumericLaws N}.
Variables (self : Planner.t) (x : SystemConfig.t) (i : nat).
Hypothesis ltb_trans :
  ∀ a b c : num, num_ltb a b = true → num_ltb b c = true →
    num_ltb a c = true.
Hypothesis ltb_cotrans :
  ∀ a b c : num, num_ltb a b = true →
    num_ltb a c = true ∨ num_ltb c b = true.

Lemma num_ltb_irrefl (a : num) : num_ltb a a = false.
Proof.
  destruct (num_ltb a a) eqn:Hlt; [|done].
  apply num_ltb_neq in Hlt. by rewrite num_eqb_refl in Hlt.
Qed.

Lemma num_ltb_asym (a b : num) : num_ltb a b = true → num_ltb b a = false.
Proof.
  intros Hab. destruct (num_ltb b a) eqn:Hba; [|done].
  by rewrite <- (num_ltb_irrefl a), <- (ltb_trans a b a).
Qed.

(** The scan keeps the first schedule of maximal performance among those
    that beat the initial performance. *)
Lemma best_schedule_spec (ps : list (Z * num * list num)) (best : num)
    (found : option (list num * Z)) :
  let r := best_schedule self x i ps best found in
  (∀ p, p ∈ ps → num_ltb r.1 (perf_with self x i p.2) = false) ∧
  ((r = (best, found) ∧
    ∀ p, p ∈ ps → num_ltb best (perf_with self x i p.2) = false) ∨
   (∃ l1 sid u os l2, ps = l1 ++ (sid, u, os) :: l2 ∧
      r = (perf_with self x i os, Some (os, sid)) ∧
      num_ltb best (perf_with self x i os) = true ∧
      ∀ p, p ∈ l1 →
        num_ltb (perf_with self x i p.2) (perf_with self x i os) = true)).
Proof.
  revert best found. induction ps as [|[[sid u] os] ps IH]; intros best found.
  { simpl. split; [by intros p Hp%elem_of_nil|].
    left. split; [done|]. by intros p Hp%elem_of_nil. }
  simpl. destruct (num_ltb best (perf_with self x i os)) eqn:Hlt.
  - destruct (IH (perf_with self x i os) (Some (os, sid))) as [Hmax Hcase].
    destruct Hcase as [[Hr Hnone]|
                       (l1 & sid' & u' & os' & l2 & -> & Hr & Hgt & Hbefore)].
    + split.
      * intros p [->|Hp]%elem_of_cons; [|by apply Hmax].
        simpl. rewrite Hr. simpl. apply num_ltb_irrefl.
      * right. exists [], sid, u, os, ps. split_and!; [done..|].
        by intros p Hp%elem_of_nil.
    + split.
      * intros p [->|Hp]%elem_of_cons; [|by apply Hmax].
        simpl. rewrite Hr. simpl. by apply num_ltb_asym.
      * right. exists ((sid, u, os) :: l1), sid', u', os', l2.
        split_and!; [done..| |].
        -- by eapply ltb_trans.
        -- intros p [->|Hp]%elem_of_cons; [done|by apply Hbefore].
  - destruct (IH best found) as [Hmax Hcase].
    destruct Hcase as [[Hr Hnone]|
                       (l1 & sid' & u' & os' & l2 & -> & Hr & Hgt & Hbefore)].
    + split.
      * intros p [->|Hp]%elem_of_cons; [|by apply Hmax].
        simpl. by rewrite Hr.
      * left. split; [done|].
        intros p [->|Hp]%elem_of_cons; [done|by apply Hnone].
    + split.
      * intros p [->|Hp]%elem_of_cons; [|by apply Hmax].
        simpl. rewrite Hr. simpl.
        destruct (num_ltb (perf_with self x i os') (perf_with self x i os))
          eqn:Hlt'; [|done].
        by rewrite <- Hlt, (ltb_trans _ _ _ Hgt Hlt').
      * right. exists ((sid, u, os) :: l1), sid', u', os', l2.
        split_and!; [done..|].
        intros p [->|Hp]%elem_of_cons; [|by apply Hbefore]. simpl.
        destruct (ltb_cotrans _ _ (perf_with self x i os) Hgt) as [?|?];
          [congruence|done].
Qed.
End best_schedule.

(** X13. [_get_new_os] finds the best possible schedule.  On schedules of
    one length (the rows of the configuration, the possible schedules, the
    target schedule and the weights have the same number of intervals) and
    on a performance order that is a strict weak order (as [<] on floats
    other than NaN) it returns [None] exactly when no possible schedule
    performs better than [current_best_perf], and otherwise the first
    schedule in [ps] whose performance is maximal - better than the current
    one, not beaten by any possible schedule, and strictly better than
    every schedule listed before it.  It only allocates scratch
    configurations. *)
Theorem get_new_os_best {N : Numeric} {NL : NumericLaws N}
    (self : Planner.t) (hs : heap SystemConfig.t) (sysconf : ref)
    (x : SystemConfig.t) (name : string) (dx : SystemConfig.Data) (i : nat)
    (best : num) :
  hs !! sysconf = Some x →
  SystemConfig.data x name = Ok dx →
  SystemConfig.idx x !! name = Some i →
  Forall (λ p, length p.2 = length (SystemConfig.os dx))
    (WorkingMemory.ps (Planner.wm self)) →
  Forall (λ r, length r = length (SystemConfig.os dx)) (SystemConfig.cs x) →
  length (WorkingMemory.ts (Planner.wm self))
    = length (SystemConfig.os dx) →
  length (WorkingMemory.weights (Planner.wm self))
    = length (SystemConfig.os dx) →
  (∀ a b c : num, num_ltb a b = true → num_ltb b c = true →
     num_ltb a c = true) →
  (∀ a b c : num, num_ltb a b = true →
     num_ltb a c = true ∨ num_ltb c b = true) →
  let ps := WorkingMemory.ps (Planner.wm self) in
  ∃ ext res,
    Planner._get_new_os self hs (Some best) sysconf name
      = Ok (hs ++ ext, res) ∧
    match res with
    | None =>
        ∀ p, p ∈ ps → num_ltb best (perf_with self x i p.2) = false
    | Some (os, sid) =>
        ∃ l1 u l2, ps = l1 ++ (sid, u, os) :: l2 ∧
          num_ltb best (perf_with self x i os) = true ∧
          (∀ p, p ∈ ps →
             num_ltb (perf_with self x i os) (perf_with self x i p.2)
               = false) ∧
          (∀ p, p ∈ l1 →
             num_ltb (perf_with self x i p.2) (perf_with self x i os) = true)
    end.
Proof.
  intros Hx Hdx Hi Hps _ _ _ Htrans Hcotrans ps.
  destruct (get_new_os_loop_run self sysconf x name dx i Hdx Hi ps Hps hs
              best None Hx) as (ext & Hrun).
  exists ext, (best_schedule self x i ps best None).2. split; [done|].
  destruct (best_schedule_spec self x i Htrans Hcotrans ps best None)
    as [Hmax [[Hr Hnone]|(l1 & sid & u & os & l2 & Hps' & Hr & Hgt & Hbefore)]].
  - rewrite Hr. done.
  - rewrite Hr in Hmax |- *. simpl in *. exists l1, u, l2. by split_and!.
Qed.

Lemma get_new_os_best_witness :
  let ps := WorkingMemory.ps (Planner.wm Sample.planner_A) in
  let lt := @num_ltb Z_numeric in
  let perf := @perf_with Z_numeric Sample.planner_A Sample.sc_A 0 in
  ∃ ext res,
    @Planner._get_new_os Z_numeric Sample.planner_A [Sample.sc_A] (Some (-2))
      0%nat "A" = Ok ([Sample.sc_A] ++ ext, res) ∧
    match res with
    | None => ∀ p, p ∈ ps → lt (-2) (perf p.2) = false
    | Some (os, sid) =>
        ∃ l1 u l2, ps = l1 ++ (sid, u, os) :: l2 ∧
          lt (-2) (perf os) = true ∧
          (∀ p, p ∈ ps → lt (perf os) (perf p.2) = false) ∧
          (∀ p, p ∈ l1 → lt (perf p.2) (perf os) = true)
    end.
Proof.
  intros ps lt perf.
  apply (@get_new_os_best Z_numeric Z_numeric_laws Sample.planner_A
           [Sample.sc_A] 0%nat Sample.sc_A "A"
           (@SystemConfig.mkData Z_numeric [0; 0] 0 0) 0%nat (-2)).
  - reflexivity.
  - vm_compute. reflexivity.
  - reflexivity.
  - repeat constructor.
  - repeat constructor.
  - reflexivity.
  - reflexivity.
  - simpl. intros a b c Hab%Z.ltb_lt Hbc%Z.ltb_lt. apply Z.ltb_lt. lia.
  - simpl. intros a b c Hab%Z.ltb_lt.
    destruct (Z.ltb_spec a c); [by left|right]. apply Z.ltb_lt. lia.
Defined.

(** ** [Planner._decide]: the candidate and the configuration it returns *)

Section decide_run.
Context {N : Numeric}.

Lemma best_schedule_found (self : Planner.t) (x : SystemConfig.t) (i : nat)
    (ps : list (Z * num * list num)) (best : num)
    (found : option (list num * Z)) (os : list num) (sid : Z) :
  (best_schedule self x i ps best found).2 = Some (os, sid) →
  found = Some (os, sid) ∨ ∃ u, (sid, u, os) ∈ ps.
Proof.
  revert best found. induction ps as [|[[sid' u'] os'] ps IH];
    intros best found; simpl; [auto|].
  destruct (num_ltb best (perf_with self x i os')); intros Hr.
  - apply IH in Hr as [[= <- <-]|[u Hu]].
    + right. exists u'. by left.
    + right. exists u. by right.
  - apply IH in Hr as [?|[u Hu]]; [by left|].
    right. exists u. by right.
Qed.

(** A run of [_decide] up to its last step: the scan allocated some
    configurations, and the candidate [cand'] that is returned is the
    given one or a new one, built from the configuration with the schedule
    that the scan found. *)
Lemma decide_run (self : Planner.t)
    (hs : heap SystemConfig.t) (hc : heap Candidate.t)
    (sysconf candidate : ref) (x : SystemConfig.t) (c : Candidate.t)
    (dx : SystemConfig.Data) (dc : Candidate.Data) :
  hs !! sysconf = Some x →
  hc !! candidate = Some c →
  SystemConfig.data x (Planner.name self) = Ok dx →
  Candidate.data c (Planner.name self) = Ok dc →
  is_Some (Candidate.perf c) →
  Forall (λ p, length p.2 = length (SystemConfig.os dx))
    (WorkingMemory.ps (Planner.wm self)) →
  length (Candidate.os dc) = length (SystemConfig.os dx) →
  ∃ i hs2 hc2 cand' z d',
    SystemConfig.idx x !! Planner.name self = Some i ∧
    Planner._decide self hs hc sysconf candidate =
      (if bool_decide (SystemConfig.sid dx ≠ Candidate.sid d')
       then '(hs, sysconf) ←
              SystemConfig.update hs2 sysconf (Planner.name self)
                (Candidate.os d') (Candidate.sid d');
            Ok (hs, hc2, sysconf, cand')
       else Ok (hs2, hc2, sysconf, cand')) ∧
    hs2 !! sysconf = Some x ∧
    (∀ q v, hs !! q = Some v → hs2 !! q = Some v) ∧
    (∀ q v, hc !! q = Some v → hc2 !! q = Some v) ∧
    hc2 !! cand' = Some z ∧
    Candidate.data z (Planner.name self) = Ok d' ∧
    length (Candidate.os d') = length (SystemConfig.os dx) ∧
    ((cand' = candidate ∧ z = c ∧ d' = dc) ∨
     (hc !! cand' = None ∧
      ∃ sid u os, (sid, u, os) ∈ WorkingMemory.ps (Planner.wm self) ∧
        d' = Candidate.mkData os sid ∧
        z = Candidate.mk (Planner.name self) (SystemConfig.idx x)
              (<[i:=os]> (SystemConfig.cs x))
              (<[i:=sid]> (SystemConfig.sids x))
              (Some (perf_with self x i os)) ∧
        Candidate.perf_gt (Candidate.perf z) (Candidate.perf c) = Ok true)).
Proof.
  intros Hx Hc Hdx Hdc [p Hp] Hps Hlen_dc.
  pose proof Hdx as Hdx'. unfold SystemConfig.data in Hdx'.
  apply bind_Ok in Hdx' as (i & Hi%or_raise_Ok & _).
  destruct (get_new_os_loop_run self sysconf x (Planner.name self) dx i
              Hdx Hi (WorkingMemory.ps (Planner.wm self)) Hps hs p None Hx)
    as (ext & Hscan).
  pose proof (best_schedule_found self x i
                (WorkingMemory.ps (Planner.wm self)) p None) as Hfound.
  assert (∀ q v, hs !! q = Some v → (hs ++ ext) !! q = Some v) as Hpre1.
  { intros q v Hq. by apply lookup_app_l_Some. }
  pose proof (Hpre1 _ _ Hx) as Hx1.
  exists i.
  unfold Planner._decide, Planner._get_new_os, deref.
  rewrite Hx. simpl. rewrite Hdx. simpl. rewrite Hc. simpl.
  rewrite Hdc. simpl. rewrite Hp, Hscan. simpl.
  destruct (best_schedule self x i (WorkingMemory.ps (Planner.wm self)) p
              None).2 as [[new_os new_sid]|]; simpl.
  - (* a schedule that is locally better was found *)
    destruct (Hfound new_os new_sid eq_refl) as [?|[u Hu]]; [done|].
    assert (length new_os = length (SystemConfig.os dx)) as Hlen_new.
    { by apply (proj1 (Forall_forall _ _) Hps (new_sid, u, new_os)). }
    destruct (SystemConfig_update_Ok (hs ++ ext) sysconf x
                (Planner.name self) new_os new_sid dx Hx1 Hdx Hlen_new)
      as (i' & Hi' & Hcs & Hsids & Hcnt & Hupd).
    assert (i' = i) as -> by congruence.
    rewrite Hupd. simpl. unfold deref.
    rewrite list_lookup_middle by done. simpl.
    unfold Candidate.update, deref.
    rewrite list_lookup_middle by done. simpl. rewrite Hi. simpl.
    rewrite (set_row_same_width _ i new_os new_os)
      by (by rewrite ?list_lookup_insert_eq by lia).
    simpl. unfold list_set. rewrite length_insert.
    rewrite decide_True by lia. simpl.
    rewrite lookup_app_r by (rewrite length_app; simpl; lia).
    rewrite length_app. simpl.
    replace (length hc + 1 - (length hc + 1))%nat with 0%nat by lia. simpl.
    rewrite !list_insert_insert_eq.
    fold (perf_with self x i new_os).
    destruct (num_ltb p (perf_with self x i new_os)) eqn:Hbetter; simpl.
    + eexists _, _, _, _, (Candidate.mkData new_os new_sid).
      split_and!; [done|simpl; reflexivity| | | | | |done|].
      * by apply lookup_app_l_Some.
      * intros q v Hq. by apply lookup_app_l_Some, Hpre1.
      * intros q v Hq. by apply lookup_app_l_Some, lookup_app_l_Some.
      * rewrite lookup_app_r by (rewrite length_app; simpl; lia).
        rewrite length_app. simpl.
        replace (length hc + 1 - (length hc + 1))%nat with 0%nat by lia.
        simpl. reflexivity.
      * unfold Candidate.data. simpl. rewrite Hi. simpl.
        rewrite !list_lookup_insert_eq by (rewrite ?length_insert; lia).
        done.
      * right. split.
        { apply lookup_ge_None_2. lia. }
        exists new_sid, u, new_os. split_and!; [done..|].
        simpl. by rewrite Hbetter.
    + eexists _, _, candidate, c, dc.
      split_and!; [done|reflexivity| | | | |done|done|by left].
      * by apply lookup_app_l_Some.
      * intros q v Hq. by apply lookup_app_l_Some, Hpre1.
      * intros q v Hq. by apply lookup_app_l_Some, lookup_app_l_Some.
      * by apply lookup_app_l_Some, lookup_app_l_Some.
  - (* no better schedule *)
    exists (hs ++ ext), hc, candidate, c, dc. by split_and!; [..|left].
Qed.
End decide_run.

Section decide_spec.
Context {N : Numeric}.

Lemma Candidate_data_row (c : Candidate.t) (a : string) (d : Candidate.Data) :
  Candidate.data c a = Ok d →
  ∃ i, Candidate.idx c !! a = Some i ∧
       Candidate.cs c !! i = Some (Candidate.os d) ∧
       Candidate.sids c !! i = Some (Candidate.sid d).
Proof.
  intros Hd. unfold Candidate.data in Hd.
  apply bind_Ok in Hd as (i & Hi%or_raise_Ok & Hd).
  apply bind_Ok in Hd as (row & Hrow%or_raise_Ok & Hd).
  apply bind_Ok in Hd as (s0 & Hs0%or_raise_Ok & [= <-]). simpl. eauto.
Qed.

(** What [_decide] returns on a well-formed state whose rows and possible
    schedules all have [n] entries. *)
Lemma decide_spec (n : nat) (self : Planner.t)
    (hs : heap SystemConfig.t) (hc : heap Candidate.t)
    (sysconf candidate : ref) (x : SystemConfig.t) (c : Candidate.t) :
  hs !! sysconf = Some x → hc !! candidate = Some c →
  SystemConfig.wf x → Candidate.wf c →
  Planner.name self ∈ dom (SystemConfig.idx x) →
  Planner.name self ∈ dom (Candidate.idx c) →
  Forall (λ r, length r = n) (SystemConfig.cs x) →
  Forall (λ r, length r = n) (Candidate.cs c) →
  Forall (λ p, length p.2 = n) (WorkingMemory.ps (Planner.wm self)) →
  ∃ i dx hs' hc' sc' c' x' z dx' dz,
    SystemConfig.idx x !! Planner.name self = Some i ∧
    SystemConfig.data x (Planner.name self) = Ok dx ∧
    Planner._decide self hs hc sysconf candidate = Ok (hs', hc', sc', c') ∧
    (∀ q v, hs !! q = Some v → hs' !! q = Some v) ∧
    (∀ q v, hc !! q = Some v → hc' !! q = Some v) ∧
    hs' !! sc' = Some x' ∧ hc' !! c' = Some z ∧
    SystemConfig.wf x' ∧ Candidate.wf z ∧
    SystemConfig.idx x' = SystemConfig.idx x ∧
    Planner.name self ∈ dom (Candidate.idx z) ∧
    Forall (λ r, length r = n) (SystemConfig.cs x') ∧
    Forall (λ r, length r = n) (Candidate.cs z) ∧
    SystemConfig.data x' (Planner.name self) = Ok dx' ∧
    Candidate.data z (Planner.name self) = Ok dz ∧
    SystemConfig.sid dx' = Candidate.sid dz ∧
    ((sc' = sysconf ∧ x' = x) ∨
     (hs !! sc' = None ∧
      x' = SystemConfig.mk (SystemConfig.idx x)
             (<[i:=Candidate.os dz]> (SystemConfig.cs x))
             (<[i:=Candidate.sid dz]> (SystemConfig.sids x))
             (<[i:=SystemConfig.count dx + 1]> (SystemConfig.cnt x)) ∧
      SystemConfig.sid dx ≠ Candidate.sid dz)) ∧
    ((c' = candidate ∧ z = c) ∨
     (hc !! c' = None ∧
      ∃ sid u os, (sid, u, os) ∈ WorkingMemory.ps (Planner.wm self) ∧
        z = Candidate.mk (Planner.name self) (SystemConfig.idx x)
              (<[i:=os]> (SystemConfig.cs x))
              (<[i:=sid]> (SystemConfig.sids x))
              (Some (perf_with self x i os)) ∧
        Candidate.perf_gt (Candidate.perf z) (Candidate.perf c) = Ok true)).
Proof.
  intros Hx Hc Hwx Hwc Hax Hac Hnx Hnc Hps.
  destruct (SystemConfig_data_Ok x _ Hwx Hax) as (dx & Hdx & _).
  destruct (Candidate_data_Ok c _ Hwc Hac) as (dc & Hdc).
  destruct (SystemConfig_data_row x _ dx Hdx) as (i & Hi & Hrow & Hsid & Hcnt).
  destruct (Candidate_data_row c _ dc Hdc) as (k & Hk & Hcrow & Hcsid).
  assert (length (SystemConfig.os dx) = n) as Hlen_dx
    by (by eapply (Forall_lookup_1 _ _ _ _ Hnx Hrow)).
  assert (length (Candidate.os dc) = n) as Hlen_dc
    by (by eapply (Forall_lookup_1 _ _ _ _ Hnc Hcrow)).
  destruct (decide_run self hs hc sysconf candidate x c dx dc Hx Hc Hdx Hdc)
    as (i' & hs2 & hc2 & cand' & z & d' & Hi' & Hrun & Hx2 & Hpre & Hprec &
        Hz & Hd' & Hlen' & Hcase);
    [by destruct Hwc as (_ & _ & ?)| |lia|].
  { eapply Forall_impl; [exact Hps|]. simpl. intros; lia. }
  assert (i' = i) as -> by congruence.
  pose proof (lookup_lt_Some _ _ _ Hrow) as Hi_lt.
  assert (Candidate.wf z ∧ Planner.name self ∈ dom (Candidate.idx z) ∧
          Forall (λ r, length r = n) (Candidate.cs z)) as (Hwz & Haz & Hnz).
  { destruct Hcase as [(_ & -> & _)|(_ & sid & u & os & Hin & _ & -> & _)];
      [done|].
    pose proof Hwx as (Hlt & _ & _ & Hsids & _).
    split_and!; simpl.
    - split_and!; simpl.
      + intros a j Ha. simpl. rewrite length_insert. by apply (Hlt a j).
      + by rewrite !length_insert.
      + eauto.
    - done.
    - apply Forall_insert; [done|].
      by apply (proj1 (Forall_forall _ _) Hps (sid, u, os)). }
  exists i, dx.
  case_bool_decide as Hsid'.
  - (* the configuration gets the schedule of the candidate *)
    destruct (SystemConfig_update_Ok hs2 sysconf x (Planner.name self)
                (Candidate.os d') (Candidate.sid d') dx Hx2 Hdx Hlen')
      as (i' & Hi'' & _ & Hsids_lt & Hcnt_lt & Hupd).
    assert (i' = i) as -> by congruence.
    pose proof (SystemConfig_update_outcome hs2 sysconf x (Planner.name self)
                  (Candidate.os d') (Candidate.sid d') Hx2 Hwx) as Hout.
    rewrite Hupd in Hout, Hrun. simpl in Hrun.
    destruct Hout as (_ & _ & x' & Hx' & _ & Hwx' & _).
    apply app_inj_1 in Hx' as [_ [= <-]]; [|done].
    eexists _, _, _, _, _, z, _, d'.
    split; [done|]. split; [done|]. split; [exact Hrun|].
    split; [|split; [done|split; [by rewrite list_lookup_middle|]]].
    { intros q v Hq. by apply lookup_app_l_Some, Hpre. }
    split_and!; try done.
    + simpl. apply Forall_insert; [done|lia].
    + unfold SystemConfig.data. simpl. rewrite Hi. simpl.
      rewrite !list_lookup_insert_eq by lia. simpl. reflexivity.
    + done.
    + right. split_and!; [|done..].
      destruct (hs !! length hs2) as [v|] eqn:Hv; [|done].
      apply Hpre, lookup_lt_Some in Hv. lia.
    + destruct Hcase as [(-> & -> & _)|(Hfresh & sid & u & os & Hin & _ & ? & ?)];
        [by left|right]. split; [done|]. by exists sid, u, os.
  - (* the configuration stays *)
    exists hs2, hc2, sysconf, cand', x, z, dx, d'.
    split_and!; [done..| |].
    + by left.
    + destruct Hcase as [(-> & -> & _)|(Hfresh & sid & u & os & Hin & _ & ? & ?)];
        [by left|right]. split; [done|]. by exists sid, u, os.
Qed.
End decide_spec.

(** X14. [_decide] never makes the candidate worse.  On a well-formed state
    with schedules of one length (all rows, the possible schedules, the
    target schedule and the weights have [n] intervals)
    it returns either the very candidate it was given, or a new candidate
    written by the agent itself whose performance is strictly greater than
    the old one; the new candidate is the system configuration (its index
    map and cluster schedule, not those of the old candidate) with the
    agent's own row replaced by one of its possible schedules, and its
    performance is the objective function of that cluster schedule. *)
Theorem decide_candidate_improves {N : Numeric} (n : nat) (self : Planner.t)
    (hs : heap SystemConfig.t) (hc : heap Candidate.t)
    (sysconf candidate : ref) (x : SystemConfig.t) (c : Candidate.t) :
  hs !! sysconf = Some x → hc !! candidate = Some c →
  SystemConfig.wf x → Candidate.wf c →
  Planner.name self ∈ dom (SystemConfig.idx x) →
  Planner.name self ∈ dom (Candidate.idx c) →
  Forall (λ r, length r = n) (SystemConfig.cs x) →
  Forall (λ r, length r = n) (Candidate.cs c) →
  Forall (λ p, length p.2 = n) (WorkingMemory.ps (Planner.wm self)) →
  length (WorkingMemory.ts (Planner.wm self)) = n →
  length (WorkingMemory.weights (Planner.wm self)) = n →
  ∃ hs' hc' sc' c' z,
    Planner._decide self hs hc sysconf candidate = Ok (hs', hc', sc', c') ∧
    hc' !! c' = Some z ∧
    ((c' = candidate ∧ z = c) ∨
     (hc !! c' = None ∧
      Candidate.agent z = Planner.name self ∧
      Candidate.idx z = SystemConfig.idx x ∧
      Candidate.perf_gt (Candidate.perf z) (Candidate.perf c) = Ok true ∧
      Candidate.perf z =
        Some (WorkingMemory.objective_function (Planner.wm self)
                (Candidate.cs z)) ∧
      ∃ i sid u os,
        SystemConfig.idx x !! Planner.name self = Some i ∧
        (sid, u, os) ∈ WorkingMemory.ps (Planner.wm self) ∧
        Candidate.cs z = <[i:=os]> (SystemConfig.cs x) ∧
        Candidate.sids z = <[i:=sid]> (SystemConfig.sids x))).
Proof.
  intros Hx Hc Hwx Hwc Hax Hac Hnx Hnc Hps _ _.
  destruct (decide_spec n self hs hc sysconf candidate x c Hx Hc Hwx Hwc Hax
              Hac Hnx Hnc Hps)
    as (i & dx & hs' & hc' & sc' & c' & x' & z & dx' & dz & Hi & _ & Hrun &
        _ & _ & _ & Hz & _ & _ & _ & _ & _ & _ & _ & _ & _ & _ & Hcase).
  exists hs', hc', sc', c', z. split_and!; [done..|].
  destruct Hcase as [?|(Hfresh & sid & u & os & Hin & -> & Hgt)]; [by left|].
  right. split_and!; [done..|]. by exists i, sid, u, os.
Qed.

Lemma decide_candidate_improves_witness :
  ∃ hs' hc' sc' c' z,
    @Planner._decide Z_numeric Sample.planner_A [Sample.sc_A] [Sample.cand_A]
      0%nat 0%nat = Ok (hs', hc', sc', c') ∧
    hc' !! c' = Some z ∧
    ((c' = 0%nat ∧ z = Sample.cand_A) ∨
     ([Sample.cand_A] !! c' = None ∧
      Candidate.agent z = Planner.name Sample.planner_A ∧
      Candidate.idx z = SystemConfig.idx Sample.sc_A ∧
      Candidate.perf_gt (Candidate.perf z) (Candidate.perf Sample.cand_A)
        = Ok true ∧
      Candidate.perf z =
        Some (WorkingMemory.objective_function (Planner.wm Sample.planner_A)
                (Candidate.cs z)) ∧
      ∃ i sid u os,
        SystemConfig.idx Sample.sc_A !! Planner.name Sample.planner_A
          = Some i ∧
        (sid, u, os) ∈ WorkingMemory.ps (Planner.wm Sample.planner_A) ∧
        Candidate.cs z = <[i:=os]> (SystemConfig.cs Sample.sc_A) ∧
        Candidate.sids z = <[i:=sid]> (SystemConfig.sids Sample.sc_A))).
Proof.
  apply (@decide_candidate_improves Z_numeric 2%nat Sample.planner_A
           [Sample.sc_A] [Sample.cand_A] 0%nat 0%nat Sample.sc_A
           Sample.cand_A).
  - reflexivity.
  - reflexivity.
  - apply (bool_decide_unpack _). vm_compute. exact I.
  - apply (bool_decide_unpack _). vm_compute. exact I.
  - apply (bool_decide_unpack _). vm_compute. exact I.
  - apply (bool_decide_unpack _). vm_compute. exact I.
  - apply (bool_decide_unpack _). vm_compute. exact I.
  - apply (bool_decide_unpack _). vm_compute. exact I.
  - apply (bool_decide_unpack _). vm_compute. exact I.
  - reflexivity.
  - reflexivity.
Defined.

(** X15. After [_decide] the system configuration and the candidate agree
    on the agent's own choice.  On a well-formed state with schedules of
    one length (all rows, the possible schedules, the target schedule and
    the weights have [n] intervals) both returned objects are well-formed, hold
    the agent, and hold the same schedule id for it; when the
    configuration had to be renewed it also holds the candidate's schedule
    for the agent.  The index map of the configuration is unchanged, and no
    object that existed before is modified. *)
Theorem decide_consistent {N : Numeric} (n : nat) (self : Planner.t)
    (hs : heap SystemConfig.t) (hc : heap Candidate.t)
    (sysconf candidate : ref) (x : SystemConfig.t) (c : Candidate.t) :
  hs !! sysconf = Some x → hc !! candidate = Some c →
  SystemConfig.wf x → Candidate.wf c →
  Planner.name self ∈ dom (SystemConfig.idx x) →
  Planner.name self ∈ dom (Candidate.idx c) →
  Forall (λ r, length r = n) (SystemConfig.cs x) →
  Forall (λ r, length r = n) (Candidate.cs c) →
  Forall (λ p, length p.2 = n) (WorkingMemory.ps (Planner.wm self)) →
  length (WorkingMemory.ts (Planner.wm self)) = n →
  length (WorkingMemory.weights (Planner.wm self)) = n →
  ∃ hs' hc' sc' c' x' z dx' dz,
    Planner._decide self hs hc sysconf candidate = Ok (hs', hc', sc', c') ∧
    hs' !! sc' = Some x' ∧ hc' !! c' = Some z ∧
    SystemConfig.wf x' ∧ Candidate.wf z ∧
    SystemConfig.idx x' = SystemConfig.idx x ∧
    SystemConfig.data x' (Planner.name self) = Ok dx' ∧
    Candidate.data z (Planner.name self) = Ok dz ∧
    SystemConfig.sid dx' = Candidate.sid dz ∧
    (sc' ≠ sysconf → SystemConfig.os dx' = Candidate.os dz) ∧
    (∀ q v, hs !! q = Some v → hs' !! q = Some v) ∧
    (∀ q v, hc !! q = Some v → hc' !! q = Some v).
Proof.
  intros Hx Hc Hwx Hwc Hax Hac Hnx Hnc Hps _ _.
  destruct (decide_spec n self hs hc sysconf candidate x c Hx Hc Hwx Hwc Hax
              Hac Hnx Hnc Hps)
    as (i & dx & hs' & hc' & sc' & c' & x' & z & dx' & dz & Hi & Hdx & Hrun &
        Hpre & Hprec & Hx' & Hz & Hwx' & Hwz & Hidx & _ & _ & _ & Hdx' & Hdz &
        Hsid & Hsc & _).
  exists hs', hc', sc', c', x', z, dx', dz. split_and!; [done..| |done|done].
  intros Hne. destruct Hsc as [[? _]|(_ & -> & _)]; [done|].
  unfold SystemConfig.data in Hdx'. simpl in Hdx'. rewrite Hi in Hdx'.
  simpl in Hdx'.
  destruct (SystemConfig_data_row x _ dx Hdx) as (i' & Hi' & Hrow & Hs & Hc').
  assert (i' = i) as -> by congruence.
  rewrite !list_lookup_insert_eq in Hdx'
    by (eapply lookup_lt_Some; eassumption).
  simpl in Hdx'. by injection Hdx' as <-.
Qed.

Lemma decide_consistent_witness :
  ∃ hs' hc' sc' c' x' z dx' dz,
    @Planner._decide Z_numeric Sample.planner_A [Sample.sc_A] [Sample.cand_A]
      0%nat 0%nat = Ok (hs', hc', sc', c') ∧
    hs' !! sc' = Some x' ∧ hc' !! c' = Some z ∧
    SystemConfig.wf x' ∧ Candidate.wf z ∧
    SystemConfig.idx x' = SystemConfig.idx Sample.sc_A ∧
    SystemConfig.data x' (Planner.name Sample.planner_A) = Ok dx' ∧
    Candidate.data z (Planner.name Sample.planner_A) = Ok dz ∧
    SystemConfig.sid dx' = Candidate.sid dz ∧
    (sc' ≠ 0%nat → SystemConfig.os dx' = Candidate.os dz) ∧
    (∀ q v, [Sample.sc_A] !! q = Some v → hs' !! q = Some v) ∧
    (∀ q v, [Sample.cand_A] !! q = Some v → hc' !! q = Some v).
Proof.
  apply (@decide_consistent Z_numeric 2%nat Sample.planner_A
           [Sample.sc_A] [Sample.cand_A] 0%nat 0%nat Sample.sc_A
           Sample.cand_A).
  - reflexivity.
  - reflexivity.
  - apply (bool_decide_unpack _). vm_compute. exact I.
  - apply (bool_decide_unpack _). vm_compute. exact I.
  - apply (bool_decide_unpack _). vm_compute. exact I.
  - apply (bool_decide_unpack _). vm_compute. exact I.
  - apply (bool_decide_unpack _). vm_compute. exact I.
  - apply (bool_decide_unpack _). vm_compute. exact I.
  - apply (bool_decide_unpack _). vm_compute. exact I.
  - reflexivity.
  - reflexivity.
Defined.

(** ** The negotiation loop: [_perceive], [_act], [process_inbox] *)

Section negotiation.
Context {N : Numeric} {NL : NumericLaws N}.

(** The rows of a merged candidate come from the two arguments. *)
Lemma Candidate_merge_rows (h h' : heap Candidate.t) (i j r : ref)
    (me : string) (f : list (list num) → num) (ci cj : Candidate.t)
    (n : nat) :
  h !! i = Some ci → h !! j = Some cj →
  Candidate.merge h i j me f = Ok (h', r) →
  Forall (λ r, length r = n) (Candidate.cs ci) →
  Forall (λ r, length r = n) (Candidate.cs cj) →
  ∃ z, h' !! r = Some z ∧ Forall (λ r, length r = n) (Candidate.cs z).
Proof.
  intros Hi Hj Hm Hni Hnj.
  pose proof (Candidate_merge_cases h i j me f ci cj Hi Hj) as Hout.
  rewrite Hm in Hout.
  destruct Hout as [(_ & -> & ->)|[(_ & -> & p & q & _ & _ & Hr)|
                   [(_ & _ & _ & st & Hloop & -> & ->)|
                    (_ & _ & _ & -> & ->)]]].
  - by exists cj.
  - assert (r = i ∨ r = j) as [-> | ->].
    { rewrite Hr. destruct (num_ltb p q); [auto|]. destruct (_ && _); auto. }
    + by exists ci.
    + by exists cj.
  - eexists. split; [by rewrite list_lookup_middle|]. simpl.
    pose proof Hloop as Hpost.
    apply Candidate_merge_loop_Ok in Hpost as (Hlen & _ & _ & _);
      [|done..|apply map_Forall_empty].
    apply Candidate_merge_loop_at in Hloop as (_ & _ & Hat);
      [|apply NoDup_sorted_elements|done..].
    apply Forall_lookup. intros k row Hrow.
    destruct (lookup_lt_is_Some_2
                (sorted (elements (dom (Candidate.idx ci) ∪
                                   dom (Candidate.idx cj)))) k) as [a Ha].
    { apply lookup_lt_Some in Hrow. simpl in Hlen. lia. }
    destruct (Hat k a Ha) as (d & Hd & _ & Hcs & _). simpl in Hcs.
    assert (row = Candidate.os d) as -> by congruence.
    destruct (decide (a ∈ dom (Candidate.idx ci)));
      apply Candidate_data_row in Hd as (p & _ & Hp & _).
    + by eapply (Forall_lookup_1 _ _ _ _ Hni Hp).
    + by eapply (Forall_lookup_1 _ _ _ _ Hnj Hp).
  - by exists ci.
Qed.

Lemma msg_ok_mono (n : nat) (hs hs' : heap SystemConfig.t)
    (hc hc' : heap Candidate.t) (m : ref * ref) :
  (∀ q v, hs !! q = Some v → hs' !! q = Some v) →
  (∀ q v, hc !! q = Some v → hc' !! q = Some v) →
  Negotiation.msg_ok n hs hc m → Negotiation.msg_ok n hs' hc' m.
Proof.
  intros Hs Hc (y & d & Hy & Hd & ?). exists y, d. split_and!; auto; tauto.
Qed.

Lemma perceive_spec (n : nat) (self : Planner.t)
    (hs : heap SystemConfig.t) (hc : heap Candidate.t)
    (sysconf candidate : ref) (m : ref * ref) :
  Negotiation.perceived n (Planner.name self) hs hc sysconf candidate →
  Negotiation.msg_ok n hs hc m →
  ∃ hs' hc' sc' c',
    Negotiation._perceive self hs hc sysconf m.1 candidate m.2
      = Ok (hs', hc', sc', c') ∧
    Negotiation.perceived n (Planner.name self) hs' hc' sc' c' ∧
    (∀ q v, hs !! q = Some v → hs' !! q = Some v) ∧
    (∀ q v, hc !! q = Some v → hc' !! q = Some v) ∧
    ((sc' = sysconf ∧ hs' = hs) ∨ hs !! sc' = None) ∧
    ((c' = candidate ∧ hc' = hc) ∨ (c' = m.2 ∧ hc' = hc) ∨ hc !! c' = None).
Proof.
  intros (x & c & Hx & Hc & Hwx & Hwc & Hax & Hac & Hnx & Hnc)
         (y & d & Hy & Hd & Hwy & Hwd & Hny & Hnd).
  destruct (SystemConfig_merge_shape hs sysconf m.1 x y n Hx Hy Hwx Hwy Hnx Hny)
    as (hs' & sc' & x' & Hms & Hx' & Hwx' & Hnx' & Hshape).
  destruct (SystemConfig_merge_result hs sysconf m.1 x y Hx Hy Hwx Hwy)
    as (hs'' & sc'' & x'' & Hms' & Hx'' & Hdom & _).
  rewrite Hms in Hms'. injection Hms' as <- <-.
  assert (x'' = x') as -> by congruence.
  set (f := WorkingMemory.objective_function (Planner.wm self)).
  destruct (Candidate_merge_total hc candidate m.2 (Planner.name self) f c d
              Hc Hd Hwc Hwd) as (hc' & c' & Hmc).
  destruct (Candidate_merge_Ok hc hc' candidate m.2 c' (Planner.name self) f
              c d Hc Hd Hmc) as (z & Hz & Hdomz & Hwz & Hmono & Hr).
  destruct (Candidate_merge_rows hc hc' candidate m.2 c' (Planner.name self)
              f c d n Hc Hd Hmc Hnc Hnd) as (z' & Hz' & Hnz).
  assert (z' = z) as -> by congruence.
  exists hs', hc', sc', c'. split_and!.
  - unfold Negotiation._perceive. rewrite Hms. simpl. fold f.
    rewrite Hmc. done.
  - exists x', z. split_and!; [done|done|done|by apply Hwz| | |done|done].
    + rewrite Hdom. set_solver.
    + rewrite Hdomz. set_solver.
  - destruct Hshape as [[-> ->]|[-> ->]]; [done|].
    intros q v Hq. by apply lookup_app_l_Some.
  - done.
  - destruct Hshape as [[-> ->]|[-> ->]]; [by left|right].
    by apply lookup_ge_None_2.
  - pose proof (Candidate_merge_cases hc candidate m.2 (Planner.name self) f
                  c d Hc Hd) as Hout.
    rewrite Hmc in Hout.
    destruct Hout as [(_ & -> & ->)|[(_ & -> & p & q & _ & _ & Hr')|
                     [(_ & _ & _ & st & _ & -> & ->)|(_ & _ & _ & -> & ->)]]].
    + right; left. done.
    + assert (c' = candidate ∨ c' = m.2) as [-> | ->]; [|by left|by right; left].
      rewrite Hr'. destruct (num_ltb p q); [auto|]. destruct (_ && _); auto.
    + right; right. by apply lookup_ge_None_2.
    + by left.
Qed.

Lemma perceive_loop_spec (n : nat) (self : Planner.t)
    (msgs : list (ref * ref)) :
  ∀ (hs : heap SystemConfig.t) (hc : heap Candidate.t) (msgs_in : Z)
    (sysconf candidate : ref),
    Negotiation.perceived n (Planner.name self) hs hc sysconf candidate →
    Forall (Negotiation.msg_ok n hs hc) msgs →
    ∃ hs' hc' sc' c',
      Negotiation.perceive_loop self hs hc msgs msgs_in sysconf candidate
        = Ok (hs', hc', msgs_in + Z.of_nat (length msgs), sc', c') ∧
      Negotiation.perceived n (Planner.name self) hs' hc' sc' c' ∧
      (∀ q v, hs !! q = Some v → hs' !! q = Some v) ∧
      (∀ q v, hc !! q = Some v → hc' !! q = Some v).
Proof.
  induction msgs as [|m msgs IH]; intros hs hc msgs_in sysconf candidate
    Hstate Hmsgs.
  - exists hs, hc, sysconf, candidate. simpl. rewrite Z.add_0_r. done.
  - apply Forall_cons in Hmsgs as [Hm Hmsgs].
    destruct (perceive_spec n self hs hc sysconf candidate m Hstate Hm)
      as (hs1 & hc1 & sc1 & c1 & Hstep & Hstate1 & Hs1 & Hc1 & _).
    destruct (IH hs1 hc1 (msgs_in + 1) sc1 c1 Hstate1)
      as (hs' & hc' & sc' & c' & Hloop & Hstate' & Hs' & Hc').
    { eapply Forall_impl; [exact Hmsgs|]. intros m'.
      by apply msg_ok_mono. }
    exists hs', hc', sc', c'. split_and!; [|done|auto|auto].
    replace (msgs_in + Z.of_nat (length (m :: msgs)))
      with (msgs_in + 1 + Z.of_nat (length msgs))
      by (rewrite length_cons; lia).
    destruct m as [so co]. simpl in Hstep |- *. rewrite Hstep. simpl.
    exact Hloop.
Qed.
End negotiation.

Section process_inbox.
Context {N : Numeric} {NL : NumericLaws N}.

Lemma act_loop_spec (l : list string) :
  ∀ (wm : WorkingMemory.t) (sent : list Negotiation.message),
    foldl (λ '(wm, sent) neighbor,
             let wm := Negotiation.set_msgs_out wm
                         (WorkingMemory.msgs_out wm + 1) in
             (wm, sent ++ [Negotiation.mkMessage neighbor
                             (WorkingMemory.sysconf wm)
                             (WorkingMemory.candidate wm)]))
          (wm, sent) l
    = (Negotiation.set_msgs_out wm
         (WorkingMemory.msgs_out wm + Z.of_nat (length l)),
       sent ++ ((λ nb, Negotiation.mkMessage nb (WorkingMemory.sysconf wm)
                         (WorkingMemory.candidate wm)) <$> l)).
Proof.
  induction l as [|nb l IH]; intros wm sent.
  - simpl. rewrite Z.add_0_r, app_nil_r. by destruct wm.
  - rewrite length_cons, Nat2Z.inj_succ. simpl. rewrite IH. simpl.
    rewrite <- app_assoc. simpl. unfold Negotiation.set_msgs_out. simpl.
    do 2 f_equal. lia.
Qed.

(** [_act] sends the current state once to each neighbour and counts each
    message. *)
Lemma act_spec (wm : WorkingMemory.t) :
  Negotiation._act wm
  = (Negotiation.set_msgs_out wm
       (WorkingMemory.msgs_out wm
        + Z.of_nat (length (WorkingMemory.neighbors wm))),
     (λ nb, Negotiation.mkMessage nb (WorkingMemory.sysconf wm)
              (WorkingMemory.candidate wm)) <$> WorkingMemory.neighbors wm).
Proof. unfold Negotiation._act. by rewrite act_loop_spec. Qed.

(** One pass of [process_inbox] over a non-empty inbox. *)
Lemma process_inbox_body_spec (n : nat) (self : Negotiation.t)
    (hs : heap SystemConfig.t) (hc : heap Candidate.t) :
  let name := Planner.name (Negotiation.planner self) in
  let wm := Planner.wm (Negotiation.planner self) in
  Negotiation.inv n (Negotiation.planner self) hs hc →
  Forall (Negotiation.msg_ok n hs hc) (Negotiation.inbox self) →
  Negotiation.inbox self ≠ [] →
  ∃ hs' hc' wm' sent (changed : bool) cand z,
    Negotiation.process_inbox_body self hs hc
      = Ok (Negotiation.mk (Planner.mk name wm') []
              (Negotiation.task_negotiation_stop self),
            hs', hc', sent,
            Some (Negotiation.mkStats (Candidate.perf z)
                    (length (Candidate.cs z)) (WorkingMemory.msgs_in wm')
                    (WorkingMemory.msgs_out wm') changed)) ∧
    Negotiation.inv n (Planner.mk name wm') hs' hc' ∧
    (∀ q v, hs !! q = Some v → hs' !! q = Some v) ∧
    (∀ q v, hc !! q = Some v → hc' !! q = Some v) ∧
    WorkingMemory.candidate wm' = Some cand ∧ hc' !! cand = Some z ∧
    WorkingMemory.neighbors wm' = WorkingMemory.neighbors wm ∧
    WorkingMemory.msgs_in wm'
      = WorkingMemory.msgs_in wm + Z.of_nat (length (Negotiation.inbox self)) ∧
    WorkingMemory.msgs_out wm'
      = WorkingMemory.msgs_out wm + Z.of_nat (length sent) ∧
    (if changed
     then sent = (λ nb, Negotiation.mkMessage nb (WorkingMemory.sysconf wm')
                          (WorkingMemory.candidate wm'))
                 <$> WorkingMemory.neighbors wm
     else sent = [] ∧
          WorkingMemory.sysconf wm' = WorkingMemory.sysconf wm ∧
          WorkingMemory.candidate wm' = WorkingMemory.candidate wm).
Proof.
  intros name wm
    (sysconf0 & candidate0 & x & c & Hsc & Hcand & Hx & Hc & Hwx & Hwc & Hax &
     Hac & Hnx & Hnc & Hps & Hts & Hws) Hmsgs Hne.
  subst name wm.
  assert (Negotiation.perceived n (Planner.name (Negotiation.planner self))
            hs hc sysconf0 candidate0) as Hstate.
  { exists x, c. by split_and!. }
  destruct (perceive_loop_spec n (Negotiation.planner self)
              (Negotiation.inbox self) hs hc
              (WorkingMemory.msgs_in (Planner.wm (Negotiation.planner self)))
              sysconf0 candidate0 Hstate Hmsgs)
    as (hs1 & hc1 & sc1 & c1 & Hloop & Hstate1 & Hs1 & Hc1).
  unfold Negotiation.process_inbox_body.
  destruct (Negotiation.inbox self) as [|m msgs] eqn:Hinbox; [done|].
  rewrite Hsc, Hcand. simpl or_raise. cbn [mbind result_bind].
  rewrite Hloop. cbn [mbind result_bind].
  set (wm1 := Negotiation.set_msgs_in (Planner.wm (Negotiation.planner self))
                (WorkingMemory.msgs_in (Planner.wm (Negotiation.planner self))
                 + Z.of_nat (length (m :: msgs)))).
  destruct Hstate1 as (x1 & z1 & Hx1 & Hz1 & Hwx1 & Hwz1 & Hax1 & Haz1 &
                       Hnx1 & Hnz1).
  destruct (negb (bool_decide (sc1 = sysconf0)) ||
            negb (bool_decide (c1 = candidate0))) eqn:Hchanged.
  - (* the state changed: decide and act *)
    destruct (decide_spec n
                (Planner.mk (Planner.name (Negotiation.planner self)) wm1)
                hs1 hc1 sc1 c1 x1 z1
                Hx1 Hz1 Hwx1 Hwz1 Hax1 Haz1 Hnx1 Hnz1 Hps)
      as (i & dx & hs2 & hc2 & sc2 & c2 & x2 & z2 & dx2 & dz2 & _ & _ & Hrun &
          Hs2 & Hc2 & Hx2 & Hz2 & Hwx2 & Hwz2 & Hidx2 & Haz2 & Hnx2 & Hnz2 & _).
    rewrite Hrun. cbn [mbind result_bind].
    rewrite act_spec. cbn [mbind result_bind].
    unfold Negotiation._update_obs_agent. simpl. unfold deref.
    rewrite Hz2. simpl.
    exists hs2, hc2,
      (Negotiation.set_msgs_out
         (Negotiation.set_state wm1 (Some sc2) (Some c2))
         (WorkingMemory.msgs_out (Planner.wm (Negotiation.planner self))
          + Z.of_nat (length (WorkingMemory.neighbors
                                (Planner.wm (Negotiation.planner self)))))),
      ((λ nb, Negotiation.mkMessage nb (Some sc2) (Some c2))
         <$> WorkingMemory.neighbors (Planner.wm (Negotiation.planner self))),
      true, c2, z2.
    split; [reflexivity|].
    split_and!; simpl; try done.
    + exists sc2, c2, x2, z2. simpl. split_and!; try done.
      rewrite Hidx2. done.
    + auto.
    + auto.
    + by rewrite length_fmap.
  - (* nothing changed: report only *)
    apply orb_false_elim in Hchanged as [H1 H2].
    apply negb_false_iff, bool_decide_eq_true_1 in H1, H2. subst sc1 c1.
    unfold Negotiation._update_obs_agent. simpl. rewrite Hcand. simpl.
    unfold deref. rewrite Hz1. simpl.
    exists hs1, hc1, wm1, [], false, candidate0, z1. split; [reflexivity|].
    split_and!; simpl; try done.
    + exists sysconf0, candidate0, x1, z1. simpl. by split_and!.
    + lia.
Qed.
End process_inbox.

(** X16. A pass of [process_inbox] is safe and keeps the planner's state
    well-formed.  Over numbers without a NaN (the laws [NumericLaws]): if
    the working memory holds a well-formed configuration and candidate that
    know the agent, with rows, possible schedules, target schedule and
    weights of [n] entries, and every message in the inbox carries
    well-formed objects with rows of [n] entries, then merging all messages
    ([_perceive]), deciding ([_decide]) and broadcasting ([_act]) raise no
    exception, the inbox is emptied, the new working memory satisfies the
    same invariant, and no object that existed before is modified. *)
Theorem process_inbox_keeps_invariant {N : Numeric} {NL : NumericLaws N}
    (n : nat) (self : Negotiation.t)
    (hs : heap SystemConfig.t) (hc : heap Candidate.t) :
  Negotiation.inv n (Negotiation.planner self) hs hc →
  Forall (Negotiation.msg_ok n hs hc) (Negotiation.inbox self) →
  ∃ self' hs' hc' sent st,
    Negotiation.process_inbox_body self hs hc
      = Ok (self', hs', hc', sent, st) ∧
    Negotiation.inv n (Negotiation.planner self') hs' hc' ∧
    Negotiation.inbox self' = [] ∧
    Planner.name (Negotiation.planner self')
      = Planner.name (Negotiation.planner self) ∧
    (∀ q v, hs !! q = Some v → hs' !! q = Some v) ∧
    (∀ q v, hc !! q = Some v → hc' !! q = Some v).
Proof.
  intros Hinv Hmsgs.
  destruct (Negotiation.inbox self) as [|m msgs] eqn:Hinbox.
  - exists self, hs, hc, [], None. unfold Negotiation.process_inbox_body.
    rewrite Hinbox. done.
  - destruct (process_inbox_body_spec n self hs hc Hinv)
      as (hs' & hc' & wm' & sent & changed & cand & z & Hrun & Hinv' & Hs &
          Hc & _); [by rewrite Hinbox..|].
    eexists _, hs', hc', sent, _. split; [exact Hrun|]. done.
Qed.

Lemma process_inbox_keeps_invariant_witness :
  ∃ self' hs' hc' sent st,
    @Negotiation.process_inbox_body Z_numeric Sample.negotiation_A
      [Sample.sc_A; Sample.sc_B] [Sample.cand_A; Sample.cand_B]
      = Ok (self', hs', hc', sent, st) ∧
    Negotiation.inv 2 (Negotiation.planner self') hs' hc' ∧
    Negotiation.inbox self' = [] ∧
    Planner.name (Negotiation.planner self')
      = Planner.name (Negotiation.planner Sample.negotiation_A) ∧
    (∀ q v, [Sample.sc_A; Sample.sc_B] !! q = Some v → hs' !! q = Some v) ∧
    (∀ q v, [Sample.cand_A; Sample.cand_B] !! q = Some v →
       hc' !! q = Some v).
Proof.
  apply (@process_inbox_keeps_invariant Z_numeric Z_numeric_laws 2%nat
           Sample.negotiation_A [Sample.sc_A; Sample.sc_B]
           [Sample.cand_A; Sample.cand_B]).
  - exists 0%nat, 0%nat, Sample.sc_A, Sample.cand_A.
    split_and!; try reflexivity;
      apply (bool_decide_unpack _); vm_compute; exact I.
  - repeat constructor.
    exists Sample.sc_B, Sample.cand_B.
    split_and!; try reflexivity;
      apply (bool_decide_unpack _); vm_compute; exact I.
Defined.

(** X17. Over numbers without a NaN (the laws [NumericLaws]) and in a
    state that satisfies the invariant (well-formed objects that know the
    agent; rows, possible schedules, target schedule and weights of [n]
    entries) with acceptable messages, a pass of [process_inbox] over a
    non-empty inbox returns and keeps the message
    counters exact: [msgs_in] grows by the number of messages taken from
    the inbox and [msgs_out] by the number of messages sent; the statistics
    reported to the observer carry these new counters and the performance
    and size of the current candidate.  If the report says that messages
    were sent, exactly one message with the new configuration and candidate
    went to each neighbour; if not, nothing was sent and the working memory
    holds the same configuration and candidate instances as before. *)
Theorem process_inbox_counts_messages {N : Numeric} {NL : NumericLaws N}
    (n : nat) (self : Negotiation.t)
    (hs : heap SystemConfig.t) (hc : heap Candidate.t) :
  Negotiation.inv n (Negotiation.planner self) hs hc →
  Forall (Negotiation.msg_ok n hs hc) (Negotiation.inbox self) →
  Negotiation.inbox self ≠ [] →
  let wm := Planner.wm (Negotiation.planner self) in
  ∃ self' hs' hc' sent st cand z,
    Negotiation.process_inbox_body self hs hc
      = Ok (self', hs', hc', sent, Some st) ∧
    let wm' := Planner.wm (Negotiation.planner self') in
    WorkingMemory.msgs_in wm'
      = WorkingMemory.msgs_in wm + Z.of_nat (length (Negotiation.inbox self)) ∧
    WorkingMemory.msgs_out wm'
      = WorkingMemory.msgs_out wm + Z.of_nat (length sent) ∧
    Negotiation.st_msgs_in st = WorkingMemory.msgs_in wm' ∧
    Negotiation.st_msgs_out st = WorkingMemory.msgs_out wm' ∧
    WorkingMemory.candidate wm' = Some cand ∧ hc' !! cand = Some z ∧
    Negotiation.st_perf st = Candidate.perf z ∧
    Negotiation.st_n_os st = length (Candidate.cs z) ∧
    (if Negotiation.st_msg_sent st
     then sent = (λ nb, Negotiation.mkMessage nb (WorkingMemory.sysconf wm')
                          (WorkingMemory.candidate wm'))
                 <$> WorkingMemory.neighbors wm
     else sent = [] ∧
          WorkingMemory.sysconf wm' = WorkingMemory.sysconf wm ∧
          WorkingMemory.candidate wm' = WorkingMemory.candidate wm).
Proof.
  intros Hinv Hmsgs Hne wm.
  destruct (process_inbox_body_spec n self hs hc Hinv Hmsgs Hne)
    as (hs' & hc' & wm' & sent & changed & cand & z & Hrun & _ & _ & _ &
        Hcand & Hz & _ & Hin & Hout & Hsent).
  eexists _, hs', hc', sent, _, cand, z. split; [exact Hrun|]. simpl.
  by split_and!.
Qed.

Lemma process_inbox_counts_messages_witness :
  let wm := Planner.wm (Negotiation.planner Sample.negotiation_A) in
  ∃ self' hs' hc' sent st cand z,
    @Negotiation.process_inbox_body Z_numeric Sample.negotiation_A
      [Sample.sc_A; Sample.sc_B] [Sample.cand_A; Sample.cand_B]
      = Ok (self', hs', hc', sent, Some st) ∧
    let wm' := Planner.wm (Negotiation.planner self') in
    WorkingMemory.msgs_in wm'
      = WorkingMemory.msgs_in wm
        + Z.of_nat (length (Negotiation.inbox Sample.negotiation_A)) ∧
    WorkingMemory.msgs_out wm'
      = WorkingMemory.msgs_out wm + Z.of_nat (length sent) ∧
    Negotiation.st_msgs_in st = WorkingMemory.msgs_in wm' ∧
    Negotiation.st_msgs_out st = WorkingMemory.msgs_out wm' ∧
    WorkingMemory.candidate wm' = Some cand ∧ hc' !! cand = Some z ∧
    Negotiation.st_perf st = Candidate.perf z ∧
    Negotiation.st_n_os st = length (Candidate.cs z) ∧
    (if Negotiation.st_msg_sent st
     then sent = (λ nb, Negotiation.mkMessage nb (WorkingMemory.sysconf wm')
                          (WorkingMemory.candidate wm'))
                 <$> WorkingMemory.neighbors wm
     else sent = [] ∧
          WorkingMemory.sysconf wm' = WorkingMemory.sysconf wm ∧
          WorkingMemory.candidate wm' = WorkingMemory.candidate wm).
Proof.
  apply (@process_inbox_counts_messages Z_numeric Z_numeric_laws 2%nat
           Sample.negotiation_A [Sample.sc_A; Sample.sc_B]
           [Sample.cand_A; Sample.cand_B]).
  - exists 0%nat, 0%nat, Sample.sc_A, Sample.cand_A.
    split_and!; try reflexivity;
      apply (bool_decide_unpack _); vm_compute; exact I.
  - repeat constructor.
    exists Sample.sc_B, Sample.cand_B.
    split_and!; try reflexivity;
      apply (bool_decide_unpack _); vm_compute; exact I.
  - discriminate.
Defined.

(** ** Quiescence: messages that bring nothing new *)

Section quiescence.
Context {N : Numeric} {NL : NumericLaws N}.

(** Merging an equal configuration returns the instance [sysconf_i]. *)
Lemma SystemConfig_merge_equal (h : heap SystemConfig.t) (i j : ref)
    (x y : SystemConfig.t) :
  h !! i = Some x → h !! j = Some y →
  SystemConfig.wf x → SystemConfig.wf y →
  SystemConfig.eqb y x = true →
  SystemConfig.merge h i j = Ok (h, i).
Proof.
  intros Hi Hj Hwx Hwy (Hidx & _ & Hcnt & _)%SystemConfig_eqb_true.
  destruct (SystemConfig_merge_wf_cases h i j x y Hi Hj Hwx Hwy)
    as (st & _ & [(_ & Hm & _)|(_ & rows & _ & _ & a & dj & Hdj & Hlt)]);
    [done|exfalso].
  destruct (SystemConfig_data_row y a dj Hdj) as (k & Hk & _ & _ & Hc).
  destruct (SystemConfig_data_Ok x a Hwx) as (di & Hdi & _).
  { apply elem_of_dom. rewrite <- Hidx. eauto. }
  destruct (SystemConfig_data_row x a di Hdi) as (k' & Hk' & _ & _ & Hc').
  assert (k' = k) as -> by congruence.
  specialize (Hlt di Hdi).
  assert (SystemConfig.count di = SystemConfig.count dj) by congruence. lia.
Qed.

(** Merging an equal candidate returns the instance [candidate_i]. *)
Lemma Candidate_merge_equal (h : heap Candidate.t) (i j : ref) (me : string)
    (f : list (list num) → num) (ci cj : Candidate.t) :
  h !! i = Some ci → h !! j = Some cj →
  is_Some (Candidate.perf ci) →
  Candidate.eqb cj ci = true →
  Candidate.merge h i j me f = Ok (h, i).
Proof.
  intros Hi Hj Hp Heq.
  pose proof (Candidate_reduce_from_equal me f h i ci [j] Hi Hp) as Hred.
  simpl in Hred.
  destruct (Candidate.merge h i j me f) as [[h' r]|e]; simpl in Hred.
  - apply Hred. repeat constructor. by exists cj.
  - discriminate Hred. repeat constructor. by exists cj.
Qed.

Lemma perceive_loop_equal (self : Planner.t) (hs : heap SystemConfig.t)
    (hc : heap Candidate.t) (sysconf candidate : ref) (x : SystemConfig.t)
    (c : Candidate.t) (msgs : list (ref * ref)) (msgs_in : Z) :
  hs !! sysconf = Some x → hc !! candidate = Some c →
  SystemConfig.wf x → is_Some (Candidate.perf c) →
  Forall (λ m, ∃ y d, hs !! m.1 = Some y ∧ hc !! m.2 = Some d ∧
            SystemConfig.wf y ∧ SystemConfig.eqb y x = true ∧
            Candidate.eqb d c = true) msgs →
  Negotiation.perceive_loop self hs hc msgs msgs_in sysconf candidate
    = Ok (hs, hc, msgs_in + Z.of_nat (length msgs), sysconf, candidate).
Proof.
  intros Hx Hc Hwx Hp Hmsgs. revert msgs_in.
  induction Hmsgs as [|[so co] msgs (y & d & Hy & Hd & Hwy & Hey & Hed) _ IH];
    intros msgs_in.
  - simpl. by rewrite Z.add_0_r.
  - replace (msgs_in + Z.of_nat (length ((so, co) :: msgs)))
      with (msgs_in + 1 + Z.of_nat (length msgs))
      by (rewrite length_cons; lia).
    simpl in Hy, Hd |- *. unfold Negotiation._perceive.
    rewrite (SystemConfig_merge_equal hs sysconf so x y Hx Hy Hwx Hwy Hey).
    simpl.
    rewrite (Candidate_merge_equal hc candidate co _ _ c d Hc Hd Hp Hed).
    simpl. apply IH.
Qed.
End quiescence.

(** X18. Quiescence.  When every message in a non-empty inbox carries a
    configuration and a candidate that are equal ([==]) to those the
    planner already holds, a pass of [process_inbox] changes nothing but
    the counter of received messages: the working memory keeps the same
    configuration and candidate instances, no object is allocated, no
    message is sent, [_decide] is not run, and the observer is told that
    nothing was sent. *)
Theorem process_inbox_quiescent {N : Numeric} {NL : NumericLaws N}
    (self : Negotiation.t) (hs : heap SystemConfig.t) (hc : heap Candidate.t)
    (sysconf candidate : ref) (x : SystemConfig.t) (c : Candidate.t) :
  let wm := Planner.wm (Negotiation.planner self) in
  WorkingMemory.sysconf wm = Some sysconf →
  WorkingMemory.candidate wm = Some candidate →
  hs !! sysconf = Some x → hc !! candidate = Some c →
  SystemConfig.wf x → is_Some (Candidate.perf c) →
  Negotiation.inbox self ≠ [] →
  Forall (λ m, ∃ y d, hs !! m.1 = Some y ∧ hc !! m.2 = Some d ∧
            SystemConfig.wf y ∧ SystemConfig.eqb y x = true ∧
            Candidate.eqb d c = true) (Negotiation.inbox self) →
  let msgs_in :=
    WorkingMemory.msgs_in wm + Z.of_nat (length (Negotiation.inbox self)) in
  Negotiation.process_inbox_body self hs hc
  = Ok (Negotiation.mk
          (Planner.mk (Planner.name (Negotiation.planner self))
             (Negotiation.set_msgs_in wm msgs_in))
          [] (Negotiation.task_negotiation_stop self),
        hs, hc, [],
        Some (Negotiation.mkStats (Candidate.perf c) (length (Candidate.cs c))
                msgs_in (WorkingMemory.msgs_out wm) false)).
Proof.
  intros wm Hsc Hcand Hx Hc Hwx Hp Hne Hmsgs msgs_in.
  unfold Negotiation.process_inbox_body.
  pose proof (perceive_loop_equal (Negotiation.planner self) hs hc sysconf
                candidate x c (Negotiation.inbox self)
                (WorkingMemory.msgs_in wm) Hx Hc Hwx Hp Hmsgs) as Hloop.
  destruct (Negotiation.inbox self) as [|m msgs] eqn:Hinbox; [done|].
  fold wm. rewrite Hsc, Hcand. simpl or_raise. cbn [mbind result_bind].
  rewrite Hloop. cbn [mbind result_bind].
  rewrite !bool_decide_eq_true_2 by done. simpl.
  unfold Negotiation._update_obs_agent. simpl. rewrite Hcand. simpl.
  unfold deref. rewrite Hc. simpl. reflexivity.
Qed.

Lemma process_inbox_quiescent_witness :
  let self :=
    @Negotiation.mk Z_numeric
      (Negotiation.planner Sample.negotiation_A) [(1%nat, 1%nat)] false in
  let wm := Planner.wm (Negotiation.planner self) in
  let msgs_in :=
    WorkingMemory.msgs_in wm + Z.of_nat (length (Negotiation.inbox self)) in
  Negotiation.process_inbox_body self [Sample.sc_A; Sample.sc_A]
    [Sample.cand_A; Sample.cand_A]
  = Ok (Negotiation.mk
          (Planner.mk (Planner.name (Negotiation.planner self))
             (Negotiation.set_msgs_in wm msgs_in))
          [] (Negotiation.task_negotiation_stop self),
        [Sample.sc_A; Sample.sc_A], [Sample.cand_A; Sample.cand_A], [],
        Some (Negotiation.mkStats (Candidate.perf Sample.cand_A)
                (length (Candidate.cs Sample.cand_A))
                msgs_in (WorkingMemory.msgs_out wm) false)).
Proof.
  intros self wm msgs_in.
  apply (@process_inbox_quiescent Z_numeric Z_numeric_laws self
           [Sample.sc_A; Sample.sc_A] [Sample.cand_A; Sample.cand_A]
           0%nat 0%nat Sample.sc_A Sample.cand_A).
  - reflexivity.
  - reflexivity.
  - reflexivity.
  - reflexivity.
  - apply (bool_decide_unpack _). vm_compute. exact I.
  - eexists. reflexivity.
  - discriminate.
  - repeat constructor. exists Sample.sc_A, Sample.cand_A.
    split_and!; try reflexivity.
    apply (bool_decide_unpack _). vm_compute. exact I.
Defined.

(** ** [Planner.store_topology]: the initial state *)

(** X19. [store_topology] establishes the invariant of the negotiation
    loop.  If [intervals] is the length of the target schedule, the weights
    have that length too, and the unit
    offers at least one possible schedule, all of that length, the method
    raises nothing and leaves a working memory whose configuration and
    candidate are new well-formed objects that hold exactly the agent
    itself with its first possible schedule - the configuration with the
    counter [0], the candidate written by the agent with the objective
    function of that schedule as performance; both message counters are
    [0], the inbox is untouched and the stop flag is cleared. *)
Theorem store_topology_establishes_invariant {N : Numeric} (name : string)
    (self_inbox : list (ref * ref))
    (hs : heap SystemConfig.t) (hc : heap Candidate.t)
    (neighbors : list string) (ts weights : list num)
    (resolution intervals startdate : Z)
    (ps : list (Z * num * list num)) (sid : Z) (u : num) (os : list num) :
  intervals = Z.of_nat (length ts) →
  length weights = length ts →
  ps !! 0%nat = Some (sid, u, os) →
  Forall (λ p, length p.2 = length ts) ps →
  ∃ self sysconf candidate,
    Negotiation.store_topology name self_inbox hs hc neighbors ts weights
      resolution intervals startdate ps
    = Ok (self,
          hs ++ [SystemConfig.mk {[ name := 0%nat ]} [os] [sid] [0]],
          hc ++ [Candidate.mk name {[ name := 0%nat ]} [os] [sid]
                   (Some (WorkingMemory.objective_function
                            (Planner.wm (Negotiation.planner self)) [os]))]) ∧
    let wm := Planner.wm (Negotiation.planner self) in
    Planner.name (Negotiation.planner self) = name ∧
    WorkingMemory.sysconf wm = Some sysconf ∧ sysconf = length hs ∧
    WorkingMemory.candidate wm = Some candidate ∧ candidate = length hc ∧
    WorkingMemory.msgs_in wm = 0 ∧ WorkingMemory.msgs_out wm = 0 ∧
    WorkingMemory.neighbors wm = neighbors ∧
    Negotiation.inbox self = self_inbox ∧
    Negotiation.task_negotiation_stop self = false ∧
    Negotiation.inv (length ts) (Negotiation.planner self)
      (hs ++ [SystemConfig.mk {[ name := 0%nat ]} [os] [sid] [0]])
      (hc ++ [Candidate.mk name {[ name := 0%nat ]} [os] [sid]
                (Some (WorkingMemory.objective_function
                         (Planner.wm (Negotiation.planner self)) [os]))]).
Proof.
  intros Hint Hws Hps Hall.
  assert (length os = length ts) as Hos.
  { by apply (Forall_lookup_1 _ _ _ _ Hall Hps). }
  unfold Negotiation.store_topology.
  rewrite bool_decide_eq_true_2 by done. simpl. rewrite Hps. simpl.
  exists (Negotiation.mk
            (Planner.mk name
               (Negotiation.set_state
                  (WorkingMemory.mk neighbors startdate resolution intervals
                     ts weights ps None None 0 0)
                  (Some (length hs)) (Some (length hc))))
            self_inbox false), (length hs), (length hc).
  split; [reflexivity|]. simpl.
  split_and!; try done.
  eexists (length hs), (length hc), _, _. simpl.
  split_and!; try done.
  - by rewrite list_lookup_middle.
  - by rewrite list_lookup_middle.
  - unfold SystemConfig.wf. simpl. split_and!.
    + intros a i [<- <-]%lookup_singleton_Some. simpl. lia.
    + rewrite map_to_list_singleton. simpl. apply NoDup_singleton.
    + by rewrite map_size_singleton.
    + done.
    + done.
    + by repeat constructor.
    + by repeat constructor.
  - unfold Candidate.wf. simpl. split_and!; [|done|eauto].
    intros a i [<- <-]%lookup_singleton_Some. simpl. lia.
  - simpl. rewrite dom_singleton_L. set_solver.
  - simpl. rewrite dom_singleton_L. set_solver.
  - simpl. by repeat constructor.
  - simpl. by repeat constructor.
Qed.

Lemma store_topology_establishes_invariant_witness :
  let ps := [(0, 0, [0; 0]); (1, 0, [2; 0])] in
  let x := @SystemConfig.mk Z_numeric {[ "A" := 0%nat ]} [[0; 0]] [0] [0] in
  let c wm := @Candidate.mk Z_numeric "A" {[ "A" := 0%nat ]} [[0; 0]] [0]
                (Some (@WorkingMemory.objective_function Z_numeric wm
                         [[0; 0]])) in
  ∃ self sysconf candidate,
    @Negotiation.store_topology Z_numeric "A" [] [] [] ["B"] [2; 2] [1; 1]
      900 2 0 ps
    = Ok (self, [] ++ [x],
          [] ++ [c (Planner.wm (Negotiation.planner self))]) ∧
    let wm := Planner.wm (Negotiation.planner self) in
    Planner.name (Negotiation.planner self) = "A" ∧
    WorkingMemory.sysconf wm = Some sysconf ∧
    sysconf = length (@nil (@SystemConfig.t Z_numeric)) ∧
    WorkingMemory.candidate wm = Some candidate ∧
    candidate = length (@nil (@Candidate.t Z_numeric)) ∧
    WorkingMemory.msgs_in wm = 0 ∧ WorkingMemory.msgs_out wm = 0 ∧
    WorkingMemory.neighbors wm = ["B"] ∧
    Negotiation.inbox self = [] ∧
    Negotiation.task_negotiation_stop self = false ∧
    Negotiation.inv (length [2; 2]) (Negotiation.planner self)
      ([] ++ [x]) ([] ++ [c (Planner.wm (Negotiation.planner self))]).
Proof.
  intros ps x c.
  apply (@store_topology_establishes_invariant Z_numeric "A" [] [] [] ["B"]
           [2; 2] [1; 1] 900 2 0 ps 0 0 [0; 0]).
  - reflexivity.
  - reflexivity.
  - reflexivity.
  - repeat constructor.
Defined.

(** X20. What a planner sends can be received.  Over numbers without a
    NaN (the laws [NumericLaws]) and under the assumptions of the invariant
    (well-formed objects that know the agent; rows, possible schedules,
    target schedule and weights of [n] entries; acceptable messages in the
    inbox), every message that a pass of [process_inbox] sends
    carries the configuration and the candidate of the new working memory,
    and these are well-formed objects with rows of [n] entries: the
    message satisfies the condition under which the receiving planner's pass
    is safe. *)
Theorem process_inbox_sends_acceptable {N : Numeric} {NL : NumericLaws N}
    (n : nat) (self : Negotiation.t)
    (hs : heap SystemConfig.t) (hc : heap Candidate.t) :
  Negotiation.inv n (Negotiation.planner self) hs hc →
  Forall (Negotiation.msg_ok n hs hc) (Negotiation.inbox self) →
  ∃ self' hs' hc' sent st,
    Negotiation.process_inbox_body self hs hc
      = Ok (self', hs', hc', sent, st) ∧
    Forall (λ m, ∃ so co,
              Negotiation.msg_sysconf m = Some so ∧
              Negotiation.msg_candidate m = Some co ∧
              Negotiation.msg_to m ∈
                WorkingMemory.neighbors
                  (Planner.wm (Negotiation.planner self)) ∧
              Negotiation.msg_ok n hs' hc' (so, co)) sent.
Proof.
  intros Hinv Hmsgs.
  destruct (Negotiation.inbox self) as [|m msgs] eqn:Hinbox.
  - exists self, hs, hc, [], None. unfold Negotiation.process_inbox_body.
    rewrite Hinbox. done.
  - destruct (process_inbox_body_spec n self hs hc Hinv)
      as (hs' & hc' & wm' & sent & changed & cand & z & Hrun & Hinv' & _ & _ &
          _ & _ & _ & _ & _ & Hsent); [by rewrite Hinbox..|].
    eexists _, hs', hc', sent, _. split; [exact Hrun|].
    destruct changed; [|by destruct Hsent as (-> & _)].
    destruct Hinv' as (so & co & x & c & Hso & Hco & Hx & Hc & Hwx & Hwc & _ &
                       _ & Hnx & Hnc & _ & _ & _).
    simpl in Hso, Hco. rewrite Hsent, Hso, Hco.
    apply Forall_fmap, Forall_forall. intros nb Hnb. simpl.
    exists so, co. split_and!; [done..|].
    exists x, c. by split_and!.
Qed.

Lemma process_inbox_sends_acceptable_witness :
  ∃ self' hs' hc' sent st,
    @Negotiation.process_inbox_body Z_numeric Sample.negotiation_A
      [Sample.sc_A; Sample.sc_B] [Sample.cand_A; Sample.cand_B]
      = Ok (self', hs', hc', sent, st) ∧
    Forall (λ m, ∃ so co,
              Negotiation.msg_sysconf m = Some so ∧
              Negotiation.msg_candidate m = Some co ∧
              Negotiation.msg_to m ∈
                WorkingMemory.neighbors
                  (Planner.wm (Negotiation.planner Sample.negotiation_A)) ∧
              Negotiation.msg_ok 2 hs' hc' (so, co)) sent.
Proof.
  apply (@process_inbox_sends_acceptable Z_numeric Z_numeric_laws 2%nat
           Sample.negotiation_A [Sample.sc_A; Sample.sc_B]
           [Sample.cand_A; Sample.cand_B]).
  - exists 0%nat, 0%nat, Sample.sc_A, Sample.cand_A.
    split_and!; try reflexivity;
      apply (bool_decide_unpack _); vm_compute; exact I.
  - repeat constructor.
    exists Sample.sc_B, Sample.cand_B.
    split_and!; try reflexivity;
      apply (bool_decide_unpack _); vm_compute; exact I.
Defined.

(** ** [ControllerAgent._broadcast_solution] *)

Section broadcast.
Context {N : Numeric}.

Lemma broadcast_loop_spec (s : Candidate.t) (items : list (nat * string)) :
  Candidate.wf s →
  ∀ futs0 : list (nat * Z),
    match ControllerAgent._broadcast_loop s items futs0 with
    | Ok futs =>
        ∃ new, futs = futs0 ++ new ∧
          Forall2 (λ item fut,
                     fut.1 = item.1 ∧
                     ∃ d, Candidate.data s item.2 = Ok d ∧
                          fut.2 = Candidate.sid d) items new
    | Err e =>
        e = KeyError ∧
        Exists (λ item, item.2 ∉ dom (Candidate.idx s)) items
    end.
Proof.
  intros Hwf. induction items as [|[agent addr] items IH]; intros futs0.
  - simpl. exists []. by rewrite app_nil_r.
  - simpl.
    destruct (Candidate.idx s !! addr) as [i|] eqn:Hi; simpl; last first.
    { split; [done|]. left. simpl. by apply not_elem_of_dom. }
    destruct (Candidate_data_Ok s addr Hwf) as [d Hd];
      [by apply elem_of_dom|].
    destruct (Candidate_data_row s addr d Hd) as (i' & Hi' & _ & Hsid).
    assert (i' = i) as -> by congruence.
    rewrite Hsid. simpl.
    specialize (IH (futs0 ++ [(agent, Candidate.sid d)])).
    destruct (ControllerAgent._broadcast_loop s items _) as [futs|e].
    + destruct IH as (new & -> & Hall).
      exists ((agent, Candidate.sid d) :: new). rewrite <- app_assoc.
      split; [done|]. constructor; [|done]. simpl. eauto.
    + destruct IH as [-> Hex]. split; [done|]. by right.
Qed.
End broadcast.

(** X21. [_broadcast_solution] tells every registered agent its schedule:
    for a well-formed solution that covers the addresses of all registered
    agents it issues exactly one [set_schedule] call per agent, in the
    order of the registrations, with the schedule id that the solution
    holds for the agent's address.  It fails with a [KeyError] exactly when
    the solution lacks the address of a registered agent. *)
Theorem broadcast_solution_outcome {N : Numeric}
    (agents : list (nat * string)) (hc : heap Candidate.t) (solution : ref)
    (s : Candidate.t) :
  hc !! solution = Some s → Candidate.wf s →
  (Forall (λ item, item.2 ∈ dom (Candidate.idx s)) agents →
   ∃ futs,
     ControllerAgent._broadcast_solution agents hc solution = Ok futs ∧
     Forall2 (λ item fut,
                fut.1 = item.1 ∧
                ∃ d, Candidate.data s item.2 = Ok d ∧
                     fut.2 = Candidate.sid d) agents futs) ∧
  (ControllerAgent._broadcast_solution agents hc solution = Err KeyError ↔
   Exists (λ item, item.2 ∉ dom (Candidate.idx s)) agents).
Proof.
  intros Hs Hwf. unfold ControllerAgent._broadcast_solution, deref.
  rewrite Hs. simpl.
  pose proof (broadcast_loop_spec s agents Hwf []) as Hloop.
  destruct (ControllerAgent._broadcast_loop s agents []) as [futs|e].
  - destruct Hloop as (new & -> & Hall). split.
    + intros _. by exists new.
    + split; [done|]. intros Hex. exfalso.
      apply Exists_exists in Hex as (item & Hin & Hnot).
      apply list_elem_of_lookup in Hin as [k Hk].
      destruct (Forall2_lookup_l _ _ _ _ _ Hall Hk)
        as (fut & _ & _ & d & Hd & _).
      apply Hnot. apply Candidate_data_row in Hd as (i & Hi & _).
      apply elem_of_dom. eauto.
  - destruct Hloop as [-> Hex]. split; [|done].
    intros Hall. exfalso.
    apply Exists_exists in Hex as (item & Hin & Hnot).
    apply Hnot. by apply (proj1 (Forall_forall _ _) Hall item).
Qed.

Lemma broadcast_solution_outcome_witness :
  let agents := [(0%nat, "a"); (1%nat, "b")] in
  (Forall (λ item, item.2 ∈ dom (Candidate.idx Sample.cand_a)) agents →
   ∃ futs,
     @ControllerAgent._broadcast_solution Z_numeric agents [Sample.cand_a]
       0%nat = Ok futs ∧
     Forall2 (λ item fut,
                fut.1 = item.1 ∧
                ∃ d, Candidate.data Sample.cand_a item.2 = Ok d ∧
                     fut.2 = Candidate.sid d) agents futs) ∧
  (@ControllerAgent._broadcast_solution Z_numeric agents [Sample.cand_a]
     0%nat = Err KeyError ↔
   Exists (λ item, item.2 ∉ dom (Candidate.idx Sample.cand_a)) agents).
Proof.
  intros agents.
  apply (@broadcast_solution_outcome Z_numeric agents [Sample.cand_a] 0%nat
           Sample.cand_a).
  - reflexivity.
  - apply (bool_decide_unpack _). vm_compute. exact I.
Defined.

(** X22. The solution of the observer can be broadcast.  Over numbers
    without a NaN (the laws [NumericLaws]): if every final candidate is
    well-formed with rows of the length of the target schedule, the weights
    have that length too, and the address of every registered agent occurs
    in at least one candidate, the reduction of the candidates by
    [Candidate.merge] (as [_get_solution] computes it in a session with
    this target schedule and these weights) succeeds, and
    [_broadcast_solution] on its result raises nothing and issues one
    [set_schedule] call per registered agent. *)
Theorem solution_can_be_broadcast {N : Numeric} {NL : NumericLaws N}
    (ts weights : list num) (agents : list (nat * string))
    (h : heap Candidate.t) (q0 : ref) (l : list ref) :
  Forall (λ q, ∃ c, h !! q = Some c ∧ Candidate.wf c ∧
            Forall (λ r, length r = length ts) (Candidate.cs c)) (q0 :: l) →
  length weights = length ts →
  Forall (λ item, ∃ q c, q ∈ q0 :: l ∧ h !! q = Some c ∧
            item.2 ∈ dom (Candidate.idx c)) agents →
  let perf_fn :=
    WorkingMemory.objective_function (ObserverAgent.dummy_wm ts weights) in
  ∃ h' solution futs,
    ObserverAgent.reduce
      (λ h ci cj, Candidate.merge h ci cj "controller" perf_fn) h (q0 :: l)
      = Ok (h', solution) ∧
    ControllerAgent._broadcast_solution agents h' solution = Ok futs ∧
    futs.*1 = agents.*1.
Proof.
  intros Hall _ Hcover perf_fn.
  apply Forall_cons in Hall as [(c0 & Hq0 & Hw0 & _) Hall].
  assert (Forall (λ q, ∃ c, h !! q = Some c ∧ Candidate.wf c) l) as Hall'.
  { eapply Forall_impl; [exact Hall|]. simpl. intros q (c & ? & ? & _).
    by exists c. }
  destruct (Candidate_reduce_from "controller" perf_fn l h q0 c0 Hq0 Hw0 Hall')
    as (h' & r & z & Hred & Hz & Hwz & _ & Hdom).
  exists h', r.
  unfold ControllerAgent._broadcast_solution, deref. rewrite Hz. simpl.
  pose proof (broadcast_loop_spec z agents Hwz []) as Hloop.
  destruct (ControllerAgent._broadcast_loop z agents []) as [futs|e].
  - destruct Hloop as (new & -> & Hfuts). exists new.
    split_and!; [done..|].
    clear -Hfuts. induction Hfuts as [|item fut items futs [Hfst _] _ IH];
      [done|]. rewrite !fmap_cons. by f_equal.
  - exfalso. destruct Hloop as [_ Hex].
    apply Exists_exists in Hex as (item & Hin & Hnot).
    destruct (proj1 (Forall_forall _ _) Hcover item Hin)
      as (q & c & Hq & Hc & Ha).
    apply Hnot, Hdom. apply elem_of_cons in Hq as [->|Hq].
    + left. congruence.
    + right. by exists q, c.
Qed.

Lemma solution_can_be_broadcast_witness :
  let agents := [(0%nat, "a"); (1%nat, "b"); (2%nat, "c")] in
  let h := [Sample.cand_a; Sample.cand_b; Sample.cand_c] in
  let perf_fn :=
    @WorkingMemory.objective_function Z_numeric
      (@ObserverAgent.dummy_wm Z_numeric [2; 2] [1; 1]) in
  ∃ h' solution futs,
    ObserverAgent.reduce
      (λ h ci cj, @Candidate.merge Z_numeric h ci cj "controller" perf_fn) h
      [0%nat; 1%nat; 2%nat] = Ok (h', solution) ∧
    @ControllerAgent._broadcast_solution Z_numeric agents h' solution
      = Ok futs ∧
    futs.*1 = agents.*1.
Proof.
  intros agents h perf_fn.
  apply (@solution_can_be_broadcast Z_numeric Z_numeric_laws [2; 2] [1; 1]
           agents h 0%nat [1%nat; 2%nat]).
  - repeat constructor.
    + exists Sample.cand_a. split_and!; [reflexivity| |repeat constructor].
      apply (bool_decide_unpack _). vm_compute. exact I.
    + exists Sample.cand_b. split_and!; [reflexivity| |repeat constructor].
      apply (bool_decide_unpack _). vm_compute. exact I.
    + exists Sample.cand_c. split_and!; [reflexivity| |repeat constructor].
      apply (bool_decide_unpack _). vm_compute. exact I.
  - reflexivity.
  - repeat constructor.
    + exists 0%nat, Sample.cand_a. split_and!; [by left|reflexivity|].
      apply (bool_decide_unpack _). vm_compute. exact I.
    + exists 0%nat, Sample.cand_a. split_and!; [by left|reflexivity|].
      apply (bool_decide_unpack _). vm_compute. exact I.
    + exists 2%nat, Sample.cand_c.
      split_and!; [by right; right; left|reflexivity|].
      apply (bool_decide_unpack _). vm_compute. exact I.
Defined.

(** ** [TopologyManager]: the ring *)

Lemma insert_by_addr_Sorted (x : nat * string) (l : list (nat * string)) :
  Sorted (λ p q : nat * string, String.ltb q.2 p.2 = false) l →
  Sorted (λ p q : nat * string, String.ltb q.2 p.2 = false)
    (TopologyManager.insert_by_addr x l).
Proof.
  induction 1 as [|y l Hs IH Hhd]; simpl.
  - by repeat constructor.
  - destruct (String.ltb x.2 y.2) eqn:Hlt.
    + constructor; [by constructor|]. constructor.
      by apply String_ltb_asym.
    + constructor; [done|].
      destruct l as [|z l]; simpl in *.
      * by constructor.
      * destruct (String.ltb x.2 z.2); constructor; [done|].
        by inversion Hhd.
Qed.

Lemma sorted_by_addr_Sorted (items : list (nat * string)) :
  Sorted (λ p q : nat * string, String.ltb q.2 p.2 = false)
    (TopologyManager.sorted_by_addr items).
Proof.
  unfold TopologyManager.sorted_by_addr.
  assert (Sorted (λ p q : nat * string, String.ltb q.2 p.2 = false) [])
    as Hnil by constructor.
  revert Hnil. generalize (@nil (nat * string)).
  induction items as [|x items IH]; intros acc Hacc; simpl; [done|].
  by apply IH, insert_by_addr_Sorted.
Qed.

(** With [phi = 0] nothing is drawn. *)
Lemma n_draws_zero (n : nat) (phi : QArith_base.Q) :
  QArith_base.Qnum phi = 0 → TopologyManager.n_draws n phi = 0%nat.
Proof.
  destruct phi as [p q]. simpl. intros ->.
  unfold TopologyManager.n_draws, TopologyManager.int, QArith_base.Qmult.
  simpl. rewrite Z.mul_0_r. reflexivity.
Qed.

(** X23. With [phi = 0] the topology is exactly the ring over the agents
    in the order of their addresses.  If [phi] is [0], so that
    [int(n * phi)] is [0] and nothing is drawn, and there are at least two
    agents, [make_topology] gives every agent exactly the addresses of its
    predecessor and of its successor in the list of the agents sorted by
    address (cyclically) as neighbours, whatever the seed and the random
    generator. *)
Theorem make_topology_pure_ring {rng : Type} (Random : option Z → rng)
    (randbelow : rng → nat → nat * rng) (self : TopologyManager.t)
    (agents : list (nat * string)) :
  NoDup (fst <$> agents) →
  (2 ≤ length agents)%nat →
  QArith_base.Qnum (TopologyManager._topology_phi self) = 0 →
  let L := fst <$> TopologyManager.sorted_by_addr agents in
  ∃ self' topology,
    TopologyManager.make_topology Random randbelow self agents
      = Ok (self', topology) ∧
    Sorted (λ p q : nat * string, String.ltb q.2 p.2 = false)
      (TopologyManager.sorted_by_addr agents) ∧
    dom topology = list_to_set (fst <$> agents) ∧
    ∀ (k : nat) a, L !! k = Some a →
      ∃ l r al ar,
        L !! Z.to_nat ((Z.of_nat k - 1) mod Z.of_nat (length L)) = Some l ∧
        L !! Z.to_nat ((Z.of_nat k + 1) mod Z.of_nat (length L)) = Some r ∧
        (l, al) ∈ agents ∧ (r, ar) ∈ agents ∧
        topology !! a = Some {[al; ar]}.
Proof.
  intros Hkeys H2 Hphi L.
  assert (TopologyManager.n_draws (length agents)
            (TopologyManager._topology_phi self) = 0%nat) as Hdraws.
  { by apply n_draws_zero. }
  assert (L ≡ₚ fst <$> agents) as HL.
  { unfold L. by rewrite sorted_by_addr_Permutation. }
  assert (length L = length agents) as Hlen.
  { rewrite HL. by rewrite length_fmap. }
  assert (L ≠ []) as HLne.
  { intros HL0. rewrite HL0 in Hlen. simpl in Hlen. lia. }
  destruct (build_ring_Ok agents L Hkeys HL HLne)
    as (T1 & Hring & Hdom1 & Hring_of).
  unfold TopologyManager.make_topology. fold L.
  rewrite decide_False by lia.
  rewrite Hlen in Hring. rewrite Hring. simpl.
  unfold TopologyManager._add_random_topology.
  rewrite Hlen, Hdraws. simpl.
  eexists _, T1. split_and!; [done|apply sorted_by_addr_Sorted| |].
  - rewrite Hdom1. apply set_eq. intros a.
    rewrite !elem_of_list_to_set. by rewrite HL.
  - intros k a Hk.
    destruct (Hring_of k a Hk) as (l & r & al & ar & Hl & Hr & Hal & Har & HT).
    rewrite Hlen in Hl, Hr.
    exists l, r, al, ar. split_and!; [done..|].
    rewrite HT. f_equal. set_solver.
Qed.

Lemma make_topology_pure_ring_witness :
  let self := TopologyManager.__init__ (QArith_base.Qmake 0 1) (Some 7) in
  let L := fst <$> TopologyManager.sorted_by_addr Sample.agents3 in
  ∃ self' topology,
    TopologyManager.make_topology Sample.lcg_Random Sample.lcg_randbelow self
      Sample.agents3 = Ok (self', topology) ∧
    Sorted (λ p q : nat * string, String.ltb q.2 p.2 = false)
      (TopologyManager.sorted_by_addr Sample.agents3) ∧
    dom topology = list_to_set (fst <$> Sample.agents3) ∧
    ∀ (k : nat) a, L !! k = Some a →
      ∃ l r al ar,
        L !! Z.to_nat ((Z.of_nat k - 1) mod Z.of_nat (length L)) = Some l ∧
        L !! Z.to_nat ((Z.of_nat k + 1) mod Z.of_nat (length L)) = Some r ∧
        (l, al) ∈ Sample.agents3 ∧ (r, ar) ∈ Sample.agents3 ∧
        topology !! a = Some {[al; ar]}.
Proof.
  intros self L.
  apply (make_topology_pure_ring Sample.lcg_Random Sample.lcg_randbelow self
           Sample.agents3).
  - apply (bool_decide_unpack _). vm_compute. exact I.
  - simpl. lia.
  - reflexivity.
Defined.

(** ** The observer: the equality check that never runs *)

Section observer_assert.
Context {N : Numeric} {NL : NumericLaws N}.

Lemma Candidate_merge_not_assertion (h : heap Candidate.t) (i j : ref)
    (me : string) (f : list (list num) → num) :
  Candidate.merge h i j me f ≠ Err AssertionError.
Proof.
  destruct (h !! i) as [ci|] eqn:Hi; last first.
  { unfold Candidate.merge, Candidate.merge_with, deref. by rewrite Hi. }
  destruct (h !! j) as [cj|] eqn:Hj; last first.
  { unfold Candidate.merge, Candidate.merge_with, deref. by rewrite Hi, Hj. }
  pose proof (Candidate_merge_cases h i j me f ci cj Hi Hj) as Hout.
  intros Hm. rewrite Hm in Hout.
  destruct Hout as [(_ & ? & _)|(_ & Hloop)]; [done|].
  by apply Candidate_merge_loop_Err in Hloop as [?|?].
Qed.

(** A merge with a performance function that may raise is the merge with
    one that returns, up to the exception of the performance function. *)
Lemma Candidate_merge_with_cases (h : heap Candidate.t) (i j : ref)
    (me : string) (pf : list (list num) → result num) :
  (∃ f, Candidate.merge_with h i j me pf = Candidate.merge h i j me f) ∨
  (∃ cs e, pf cs = Err e ∧ Candidate.merge_with h i j me pf = Err e).
Proof.
  unfold Candidate.merge, Candidate.merge_with.
  destruct (deref h i) as [ci|e]; simpl; [|left; by exists (λ _, num_zero)].
  destruct (deref h j) as [cj|e]; simpl; [|left; by exists (λ _, num_zero)].
  destruct (decide (dom (Candidate.idx ci) ⊂ dom (Candidate.idx cj)));
    [left; by exists (λ _, num_zero)|].
  destruct (decide (dom (Candidate.idx ci) = dom (Candidate.idx cj)));
    [left; by exists (λ _, num_zero)|].
  destruct (decide (dom (Candidate.idx cj) ∖ dom (Candidate.idx ci) ≠ ∅));
    [|left; by exists (λ _, num_zero)].
  destruct (Candidate.merge_loop ci cj _ 0 Candidate.locals0) as [st|e];
    simpl; [|left; by exists (λ _, num_zero)].
  destruct (pf (Candidate.cs_buf st)) as [p|e] eqn:Hpf; simpl.
  - left. by exists (λ _, p).
  - right. by exists (Candidate.cs_buf st), e.
Qed.

Lemma reduce_from_not_assertion (me : string)
    (pf : list (list num) → result num) (l : list ref) :
  (∀ cs, pf cs ≠ Err AssertionError) →
  ∀ (h : heap Candidate.t) (acc : ref),
    ObserverAgent.reduce_from (λ h ci cj, Candidate.merge_with h ci cj me pf)
      h acc l ≠ Err AssertionError.
Proof.
  intros Hpf. induction l as [|c l IH]; intros h acc; simpl; [done|].
  destruct (Candidate.merge_with h acc c me pf) as [[h' r]|e] eqn:Hm; simpl.
  - apply IH.
  - intros [= ->].
    destruct (Candidate_merge_with_cases h acc c me pf)
      as [[f Hf]|(cs & e & He & Hf)]; rewrite Hm in Hf.
    + symmetry in Hf. by apply Candidate_merge_not_assertion in Hf.
    + injection Hf as <-. by apply Hpf in He.
Qed.
End observer_assert.

(** X24. The observer never runs its check that all final candidates are
    equal.  In every state that the observer reaches from [__init__]
    through calls of its methods, [_terminated] is still [False] - no
    method sets it, also not when the termination detector fires - so
    [_get_solution] always takes the merging branch; and over numbers
    without a NaN (the laws [NumericLaws], under which the closing
    assertion of [Candidate.merge] holds) storing a final candidate does
    not raise an [AssertionError], whether or not the candidates agree. *)
Theorem observer_never_asserts {N : Numeric} {NL : NumericLaws N}
    (n_agents : option Z) (h0 : heap Candidate.t)
    (evs : list ObserverAgent.event) (self : ObserverAgent.t)
    (h : heap Candidate.t) :
  ObserverAgent.run (ObserverAgent.__init__ n_agents) h0 evs = Ok (self, h) →
  ObserverAgent._terminated self = false ∧
  ∀ c, ObserverAgent.update_final_cand self h c ≠ Err AssertionError.
Proof.
  intros Hrun. apply ObserverAgent_run_inv in Hrun as [Hterm _].
  simpl in Hterm. split; [done|]. intros c.
  unfold ObserverAgent.update_final_cand. simpl.
  case_bool_decide; [|done].
  unfold ObserverAgent._get_solution. simpl. rewrite Hterm.
  match goal with
  | |- context [ObserverAgent.reduce
                  (λ h ci cj, Candidate.merge_with h ci cj ?me ?pf) h ?l] =>
      assert (∀ cs, pf cs ≠ Err AssertionError) as Hpf;
      [|destruct (ObserverAgent.reduce
                    (λ h ci cj, Candidate.merge_with h ci cj me pf) h l)
          as [[h' r]|e] eqn:Hred]
  end; simpl.
  - intros cs. destruct (ObserverAgent._ts self); [|done].
    by destruct (ObserverAgent._weights self).
  - by destruct (ObserverAgent._solution_determined self).
  - intros [= ->]. unfold ObserverAgent.reduce in Hred.
    destruct (ObserverAgent._candidates self ++ [c]) as [|q rest]; [done|].
    by apply reduce_from_not_assertion in Hred.
Qed.

Lemma observer_never_asserts_witness :
  ObserverAgent._terminated Sample.obs_state = false ∧
  ∀ c, @ObserverAgent.update_final_cand Z_numeric Sample.obs_state
         [Sample.cand_a; Sample.cand_a] c ≠ Err AssertionError.
Proof.
  apply (@observer_never_asserts Z_numeric Z_numeric_laws None
           [Sample.cand_a; Sample.cand_a] Sample.obs_events).
  vm_compute. reflexivity.
Defined.

(** ** The observer: the solution of a session *)




(** ** [WorkingMemory.objective_function] in exact arithmetic *)

Lemma sum_nonneg (l : list Z) :
  Forall (λ v, 0 ≤ v) l →
  0 ≤ foldr Z.add 0 l ∧ (foldr Z.add 0 l = 0 ↔ Forall (λ v, v = 0) l).
Proof.
  induction 1 as [|v l Hv _ [IH0 IH]]; simpl.
  - split; [lia|]. split; [by constructor|done].
  - split; [lia|]. split.
    + intros Hsum. assert (v = 0 ∧ foldr Z.add 0 l = 0) as [-> Hl] by lia.
      constructor; [done|]. by apply IH.
    + intros [-> Hl%IH]%Forall_cons. lia.
Qed.

Lemma sum_axis0_length (cs : list (list Z)) (n : nat) :
  cs ≠ [] → Forall (λ r, length r = n) cs →
  length (@sum_axis0 Z_numeric cs) = n.
Proof.
  destruct cs as [|r rest]; [done|]. intros _ [Hr Hrest]%Forall_cons.
  simpl. revert r Hr. induction Hrest as [|r' rest Hr' _ IH]; intros r Hr.
  - done.
  - simpl. apply IH. rewrite length_zip_with. lia.
Qed.

(** X25. On integer-valued schedules (exact arithmetic) the objective
    function is never positive when the weights are not negative, and it is
    [0] - the best possible performance - exactly when in every interval
    with a non-zero weight the column sum of the cluster schedule meets the
    target.  (The cluster schedule has at least one row, and its rows, the
    target schedule and the weights have the same length.) *)
Theorem objective_function_nonpositive (wm : @WorkingMemory.t Z_numeric)
    (cs : list (list Z)) :
  cs ≠ [] →
  Forall (λ r, length r = length (WorkingMemory.ts wm)) cs →
  length (WorkingMemory.weights wm) = length (WorkingMemory.ts wm) →
  Forall (λ w, 0 ≤ w) (WorkingMemory.weights wm) →
  @WorkingMemory.objective_function Z_numeric wm cs ≤ 0 ∧
  (@WorkingMemory.objective_function Z_numeric wm cs = 0 ↔
   ∀ (k : nat) t s w,
     WorkingMemory.ts wm !! k = Some t →
     @sum_axis0 Z_numeric cs !! k = Some s →
     WorkingMemory.weights wm !! k = Some w →
     w = 0 ∨ s = t).
Proof.
  intros Hne Hrows Hlen Hw.
  pose proof (sum_axis0_length cs _ Hne Hrows) as Hsum.
  unfold WorkingMemory.objective_function. simpl.
  set (ts := WorkingMemory.ts wm) in *.
  set (ws := WorkingMemory.weights wm) in *.
  set (sums := @sum_axis0 Z_numeric cs) in *.
  set (terms := zip_with Z.mul (Z.abs <$> zip_with Z.sub ts sums) ws).
  assert (∀ k v, terms !! k = Some v ↔
            ∃ t s w, ts !! k = Some t ∧ sums !! k = Some s ∧
                     ws !! k = Some w ∧ v = Z.abs (t - s) * w) as Hterms.
  { intros k v. unfold terms.
    rewrite lookup_zip_with_Some. setoid_rewrite list_lookup_fmap_Some.
    setoid_rewrite lookup_zip_with_Some. split.
    - intros (d & w & -> & (v' & -> & t & s & -> & Ht & Hs) & Hw').
      by exists t, s, w.
    - intros (t & s & w & Ht & Hs & Hw' & ->).
      eexists _, w. split_and!; [done| |done].
      eexists. split; [done|]. by exists t, s. }
  assert (Forall (λ v, 0 ≤ v) terms) as Hpos.
  { apply Forall_lookup. intros k v (t & s & w & _ & _ & Hw' & ->)%Hterms.
    pose proof (Forall_lookup_1 _ _ _ _ Hw Hw') as Hw0. simpl in Hw0.
    apply Z.mul_nonneg_nonneg; [apply Z.abs_nonneg|done]. }
  destruct (sum_nonneg terms Hpos) as [H0 Hzero].
  split; [lia|]. split.
  - intros Hperf. assert (foldr Z.add 0 terms = 0) as Hall%Hzero by lia.
    intros k t s w Ht Hs Hw'.
    assert (terms !! k = Some (Z.abs (t - s) * w)) as Hk.
    { apply Hterms. by exists t, s, w. }
    pose proof (Forall_lookup_1 _ _ _ _ Hall Hk) as Hv. simpl in Hv. nia.
  - intros Hmet. enough (foldr Z.add 0 terms = 0) by lia.
    apply Hzero, Forall_lookup.
    intros k v (t & s & w & Ht & Hs & Hw' & ->)%Hterms.
    destruct (Hmet k t s w Ht Hs Hw') as [-> | ->]; lia.
Qed.

Lemma objective_function_nonpositive_witness :
  let wm := Planner.wm Sample.planner_A in
  let cs := SystemConfig.cs Sample.sc_A in
  @WorkingMemory.objective_function Z_numeric wm cs ≤ 0 ∧
  (@WorkingMemory.objective_function Z_numeric wm cs = 0 ↔
   ∀ (k : nat) t s w,
     WorkingMemory.ts wm !! k = Some t →
     @sum_axis0 Z_numeric cs !! k = Some s →
     WorkingMemory.weights wm !! k = Some w →
     w = 0 ∨ s = t).
Proof.
  intros wm cs.
  apply (objective_function_nonpositive wm cs).
  - discriminate.
  - repeat constructor.
  - reflexivity.
  - repeat constructor; simpl; lia.
Defined.

(** ** [Candidate.update]: frame and errors *)

Section candidate_update.
Context {N : Numeric}.

(** Every run of [update] on a well-formed candidate. *)
Lemma Candidate_update_outcome (h : heap Candidate.t) (self : ref)
    (c : Candidate.t) (a : string) (os : list num) (sid : Z)
    (f : list (list num) → num) :
  h !! self = Some c → Candidate.wf c →
  match Candidate.update h self a os sid f with
  | Ok (h', r) =>
      ∃ i row, Candidate.idx c !! a = Some i ∧
        Candidate.cs c !! i = Some row ∧
        (length os = length row ∨ length os = 1%nat) ∧
        h' = h ++ [Candidate.mk a (Candidate.idx c)
                     (<[i:=if decide (length os = length row) then os
                           else replicate (length row) (default num_zero
                                                          (head os))]>
                        (Candidate.cs c))
                     (<[i:=sid]> (Candidate.sids c))
                     (Some (f (<[i:=if decide (length os = length row) then os
                                    else replicate (length row)
                                           (default num_zero (head os))]>
                                 (Candidate.cs c))))] ∧
        r = length h
  | Err e =>
      (e = KeyError ∧ a ∉ dom (Candidate.idx c)) ∨
      (e = ValueError ∧
       ∃ i row, Candidate.idx c !! a = Some i ∧
         Candidate.cs c !! i = Some row ∧
         length os ≠ length row ∧ length os ≠ 1%nat)
  end.
Proof.
  intros Hself (Hlt & Hsids & _).
  unfold Candidate.update, deref. rewrite Hself. simpl.
  destruct (Candidate.idx c !! a) as [i|] eqn:Hi; simpl;
    [|left; split; [done|by apply not_elem_of_dom]].
  pose proof (Hlt _ _ Hi) as Hi_lt. simpl in Hi_lt.
  destruct (lookup_lt_is_Some_2 (Candidate.cs c) i Hi_lt) as [row Hrow].
  unfold set_row. rewrite Hrow. simpl. unfold list_set.
  destruct (decide (length os = length row)) as [Hlen|Hlen]; simpl.
  - rewrite decide_True by lia. simpl.
    exists i, row. rewrite !decide_True by done.
    split_and!; [done|done|by left|done|done].
  - destruct os as [|v [|v' os]]; simpl.
    + right. split; [done|]. exists i, row. simpl in *. by split_and!.
    + rewrite decide_True by lia. simpl.
      exists i, row. rewrite !decide_False by done.
      split_and!; [done|done|by right|done|done].
    + right. split; [done|]. exists i, row. simpl in *.
      split_and!; [done|done|done|lia].
Qed.
End candidate_update.

(** X26. [Candidate.update] changes only the agent's own entry.  On a
    well-formed candidate with an injective index map that holds [agent],
    and with a schedule [os] of the length of the agent's row, it returns
    a new well-formed candidate with the same index map in which [agent]
    holds [os] and [sid] and every other agent holds what it held before;
    the given candidate and all other objects stay as they were. *)
Theorem Candidate_update_frame {N : Numeric} (h : heap Candidate.t)
    (self : ref) (c : Candidate.t) (agent : string) (os : list num)
    (sid : Z) (f : list (list num) → num) (d : Candidate.Data) :
  h !! self = Some c → Candidate.wf c →
  NoDup (snd <$> map_to_list (Candidate.idx c)) →
  Candidate.data c agent = Ok d →
  length os = length (Candidate.os d) →
  ∃ c', Candidate.update h self agent os sid f = Ok (h ++ [c'], length h) ∧
    Candidate.wf c' ∧
    Candidate.idx c' = Candidate.idx c ∧
    Candidate.data c' agent = Ok (Candidate.mkData os sid) ∧
    ∀ b, b ≠ agent → Candidate.data c' b = Candidate.data c b.
Proof.
  intros Hself Hwf Hinj Hd Hlen.
  pose proof (Candidate_update_outcome h self c agent os sid f Hself Hwf)
    as Hout.
  destruct (Candidate_data_row c agent d Hd) as (i & Hi & Hrow & Hsid).
  pose proof Hwf as (Hlt & Hsids & _).
  pose proof (lookup_lt_Some _ _ _ Hrow) as Hi_lt.
  destruct (Candidate.update h self agent os sid f) as [[h' r]|e].
  - destruct Hout as (i' & row & Hi' & Hrow' & _ & -> & ->).
    assert (i' = i) as -> by congruence.
    assert (row = Candidate.os d) as -> by congruence.
    rewrite decide_True by done.
    eexists. split; [done|]. split_and!; simpl.
    + split_and!; simpl.
      * intros b j Hb. simpl. rewrite length_insert. by apply (Hlt b j).
      * by rewrite !length_insert.
      * eauto.
    + done.
    + unfold Candidate.data. simpl. rewrite Hi. simpl.
      rewrite !list_lookup_insert_eq by lia. done.
    + intros b Hb. unfold Candidate.data. simpl.
      destruct (Candidate.idx c !! b) as [j|] eqn:Hj; simpl; [|done].
      assert (j ≠ i) as Hji.
      { intros ->. apply Hb. by eapply idx_inj. }
      by rewrite !list_lookup_insert_ne by done.
  - exfalso. destruct Hout as [(_ & Hnot)|(_ & i' & row & Hi' & Hrow' & ? & _)].
    + apply Hnot, elem_of_dom. eauto.
    + assert (i' = i) as -> by congruence.
      assert (row = Candidate.os d) as -> by congruence. done.
Qed.

Lemma Candidate_update_frame_witness :
  ∃ c', @Candidate.update Z_numeric [Sample.cand_a] 0%nat "b" [7; 8] 4
          Sample.perf_sum
          = Ok ([Sample.cand_a] ++ [c'], length [Sample.cand_a]) ∧
    Candidate.wf c' ∧
    Candidate.idx c' = Candidate.idx Sample.cand_a ∧
    Candidate.data c' "b" = Ok (@Candidate.mkData Z_numeric [7; 8] 4) ∧
    ∀ b, b ≠ "b" → Candidate.data c' b = Candidate.data Sample.cand_a b.
Proof.
  apply (@Candidate_update_frame Z_numeric [Sample.cand_a] 0%nat
           Sample.cand_a "b" [7; 8] 4 Sample.perf_sum
           (@Candidate.mkData Z_numeric [3; 4] 1)).
  - reflexivity.
  - apply (bool_decide_unpack _). vm_compute. exact I.
  - apply (bool_decide_unpack _). vm_compute. exact I.
  - vm_compute. reflexivity.
  - reflexivity.
Defined.

(** X27. The errors of [Candidate.update] on a well-formed candidate: it
    raises [KeyError] exactly when the agent is not in the index map,
    [ValueError] exactly when the agent is known but the schedule has
    neither the length of the agent's row nor length one, and no other
    exception. *)
Theorem Candidate_update_errors {N : Numeric} (h : heap Candidate.t)
    (self : ref) (c : Candidate.t) (agent : string) (os : list num)
    (sid : Z) (f : list (list num) → num) (e : exn) :
  h !! self = Some c → Candidate.wf c →
  Candidate.update h self agent os sid f = Err e ↔
  (e = KeyError ∧ agent ∉ dom (Candidate.idx c)) ∨
  (e = ValueError ∧
   ∃ i row, Candidate.idx c !! agent = Some i ∧
     Candidate.cs c !! i = Some row ∧
     length os ≠ length row ∧ length os ≠ 1%nat).
Proof.
  intros Hself Hwf.
  pose proof (Candidate_update_outcome h self c agent os sid f Hself Hwf)
    as Hout.
  destruct (Candidate.update h self agent os sid f) as [[h' r]|e'].
  - split; [done|]. destruct Hout as (i & row & Hi & Hrow & Hos & _).
    intros [(_ & Hnot)|(_ & i' & row' & Hi' & Hrow' & ? & ?)]; exfalso.
    + apply Hnot, elem_of_dom. eauto.
    + assert (i' = i) as -> by congruence.
      assert (row' = row) as -> by congruence. lia.
  - split.
    + intros [= ->]. done.
    + intros Hcase. f_equal.
      destruct Hout as [(-> & Hnot)|(-> & i & row & Hi & _)],
               Hcase as [(-> & Hnot')|(-> & i' & row' & Hi' & _)];
        try done; exfalso.
      * apply Hnot, elem_of_dom. eauto.
      * apply Hnot', elem_of_dom. eauto.
Qed.

Lemma Candidate_update_errors_witness :
  @Candidate.update Z_numeric [Sample.cand_a] 0%nat "b" [7; 8; 9] 4
    Sample.perf_sum = Err ValueError ↔
  (ValueError = KeyError ∧ "b" ∉ dom (Candidate.idx Sample.cand_a)) ∨
  (ValueError = ValueError ∧
   ∃ i row, Candidate.idx Sample.cand_a !! "b" = Some i ∧
     Candidate.cs Sample.cand_a !! i = Some row ∧
     length [7; 8; 9] ≠ length row ∧ length [7; 8; 9] ≠ 1%nat).
Proof.
  apply (@Candidate_update_errors Z_numeric [Sample.cand_a] 0%nat
           Sample.cand_a "b" [7; 8; 9] 4 Sample.perf_sum ValueError).
  - reflexivity.
  - apply (bool_decide_unpack _). vm_compute. exact I.
Defined.
